(** * LilaGame: the authoritative tic-tac-toe match handler and the
      matchmaking queue of the Nakama backend, embedded in Rocq.

    Sources embedded here:
    - [backend/main.go]: constants and wire records;
    - the match handler ([TTTMatch], [TTTMatchHandler] and its methods
      [MatchInit], [MatchJoinAttempt], [MatchJoin], [MatchLeave], [MatchLoop],
      [MatchTerminate], [MatchSignal], [handleMove], [checkWinner],
      [updateLeaderboard], [sendError]);
    - [backend/matchmaking.go]: [startMatchmakingRPC], [stopMatchmakingRPC],
      [handleMatchmakerMatched], [CreateCustomMatch];
    - [backend/leaderboard.go]: [UpdateLeaderboard].

    Conventions.
    - Go's [int] is the 64-bit signed integer; it is a [Z] and the two
      arithmetic operations of the handler ([MoveCount++], [Size*Size]) are
      wrapped by [wrap_int].
    - A Go [map[string]T] is a [gmap string T].  Go leaves the order of
      [range] over a map unspecified: the order is a parameter of the model
      (for the match handler a function [range_players] returning some
      permutation of the map's entries, for the queue the list [visit] of the
      entries in the order of that call) and every theorem is proved for
      every such order.
    - Calls to the host ([dispatcher.BroadcastMessage], the two scoring
      functions, [nk.MatchCreate], [nk.NotificationsSend], [nk.UsersGetId],
      [nk.LeaderboardRecordWrite]) are recorded, in program order, in a list
      of effects.  [logger] calls are not
      recorded: they influence neither state nor control flow.
    - An index out of range makes Go panic: a function that indexes the board
      returns an [option], [None] being the panic. *)

From stdpp Require Import gmap strings list fin_maps pretty.
From Stdlib Require Import ZArith Lia.

Open Scope Z_scope.

(** ** [backend/main.go] *)

Definition GameModeClassic : string := "classic".
Definition GameModeAdvanced : string := "advanced".

Definition OpcodeMove : Z := 1.
Definition OpcodeState : Z := 2.
Definition OpcodeError : Z := 3.
Definition OpcodeMatchFound : Z := 4.
Definition OpcodeLeaderboard : Z := 5.

Definition GameStateWaiting : string := "waiting".
Definition GameStatePlaying : string := "playing".
Definition GameStateFinished : string := "finished".

Definition PlayerX : string := "X".
Definition PlayerO : string := "O".
Definition Empty : string := "".

(** [int] arithmetic of a 64-bit Go target. *)
Definition wrap_int (z : Z) : Z := (z + 2 ^ 63) mod 2 ^ 64 - 2 ^ 63.

Record MoveData := { Row : Z; Col : Z }.

Record StateData := {
  sd_Board : list (list string);
  sd_Turn : string;
  sd_Winner : string;
  sd_Size : Z;
  sd_Mode : string;
  sd_Players : gmap string string
}.

Record ErrorData := { Msg : string }.

Record MatchFoundData := { mf_MatchID : string; mf_Mode : string }.

(** The payload handed to [json.Marshal] before a broadcast. *)
Inductive Payload :=
| PState (d : StateData)
| PError (d : ErrorData)
| PMatchFound (d : MatchFoundData).

(** ** The match handler *)

Module Match.

Record TTTMatch := {
  ID : string;
  Mode : string;
  Size : Z;
  Board : list (list string);
  Turn : string;
  Winner : string;
  State : string;
  Players : gmap string string;
  MoveCount : Z;
  CreatedAt : Z
}.

Definition set_Board (b : list (list string)) (m : TTTMatch) : TTTMatch :=
  {| ID := ID m; Mode := Mode m; Size := Size m; Board := b; Turn := Turn m;
     Winner := Winner m; State := State m; Players := Players m;
     MoveCount := MoveCount m; CreatedAt := CreatedAt m |}.
Definition set_Turn (t : string) (m : TTTMatch) : TTTMatch :=
  {| ID := ID m; Mode := Mode m; Size := Size m; Board := Board m; Turn := t;
     Winner := Winner m; State := State m; Players := Players m;
     MoveCount := MoveCount m; CreatedAt := CreatedAt m |}.
Definition set_Winner (w : string) (m : TTTMatch) : TTTMatch :=
  {| ID := ID m; Mode := Mode m; Size := Size m; Board := Board m; Turn := Turn m;
     Winner := w; State := State m; Players := Players m;
     MoveCount := MoveCount m; CreatedAt := CreatedAt m |}.
Definition set_State (s : string) (m : TTTMatch) : TTTMatch :=
  {| ID := ID m; Mode := Mode m; Size := Size m; Board := Board m; Turn := Turn m;
     Winner := Winner m; State := s; Players := Players m;
     MoveCount := MoveCount m; CreatedAt := CreatedAt m |}.
Definition set_Players (p : gmap string string) (m : TTTMatch) : TTTMatch :=
  {| ID := ID m; Mode := Mode m; Size := Size m; Board := Board m; Turn := Turn m;
     Winner := Winner m; State := State m; Players := p;
     MoveCount := MoveCount m; CreatedAt := CreatedAt m |}.
Definition set_MoveCount (c : Z) (m : TTTMatch) : TTTMatch :=
  {| ID := ID m; Mode := Mode m; Size := Size m; Board := Board m; Turn := Turn m;
     Winner := Winner m; State := State m; Players := Players m;
     MoveCount := c; CreatedAt := CreatedAt m |}.

(** A message of [MatchLoop]: [GetUserId], [GetOpCode], and the result of
    [json.Unmarshal(message.GetData(), &moveData)] ([None] when it fails). *)
Record MatchData := {
  UserId : string;
  OpCode : Z;
  Data : option MoveData
}.

(** Calls to the host, in program order.  [BroadcastMessage opcode data
    presences reliable]: the [sender] argument is [nil] at every call site;
    [presences = None] is Go's [nil]. *)
Inductive Effect :=
| BroadcastMessage (opcode : Z) (data : Payload)
    (presences : option (list string)) (reliable : bool)
| UpdateLeaderboard (userID : string) (score : Z)
| UpdateUserStats (userID : string) (won lost drawn : bool).

(** [match.Board[i][j]] as an r-value. *)
Definition cell (b : list (list string)) (i j : Z) : option string :=
  if decide (0 ≤ i ∧ 0 ≤ j)
  then r ← b !! Z.to_nat i; r !! Z.to_nat j
  else None.

(** [match.Board[i][j] = s]; in [handleMove] the same cell has just been
    read, so the write is in range whenever it is reached. *)
Definition set_cell (b : list (list string)) (i j : Z) (s : string)
  : list (list string) :=
  alter (λ r, <[Z.to_nat j := s]> r) (Z.to_nat i) b.

(** [MatchInit]; [modeParam] is [params["mode"].(string)], [now] is
    [time.Now().Unix()]. *)
Definition MatchInit (modeParam : option string) (now : Z) : TTTMatch :=
  let mode := match modeParam with Some p => p | None => GameModeClassic end in
  let size := if decide (mode = GameModeAdvanced) then 5 else 3 in
  {| ID := ""; Mode := mode; Size := size;
     Board := replicate (Z.to_nat size) (replicate (Z.to_nat size) Empty);
     Turn := PlayerX; Winner := ""; State := GameStateWaiting;
     Players := ∅; MoveCount := 0; CreatedAt := now |}.

(** The body shared by the four scans of [checkWinner]:
    [for k := 1; k < size; k++ { if line[k] != line[0] { won = false; break } }],
    started at [k] with [n] iterations left. *)
Fixpoint scan_line (line : Z → option string) (first : string) (k : Z) (n : nat)
  : option bool :=
  match n with
  | O => Some true
  | S n' =>
      c ← line k;
      if decide (c ≠ first) then Some false
      else scan_line line first (k + 1) n'
  end.

(** [if line[0] != Empty { won := ...; if won { return line[0] } }];
    [Some (Some s)] is [return s], [Some None] falls through. *)
Definition check_line (line : Z → option string) (size : Z)
  : option (option string) :=
  c0 ← line 0;
  if decide (c0 ≠ Empty) then
    won ← scan_line line c0 1 (Z.to_nat (size - 1));
    Some (if won : bool then Some c0 else None)
  else Some None.

(** [for i := 0; i < size; i++ { <check line i> }], started at [i]. *)
Fixpoint scan_lines (lines : Z → Z → option string) (size : Z) (i : Z) (n : nat)
  : option (option string) :=
  match n with
  | O => Some None
  | S n' =>
      r ← check_line (lines i) size;
      match r with
      | Some w => Some (Some w)
      | None => scan_lines lines size (i + 1) n'
      end
  end.

Definition checkWinner (m : TTTMatch) : option string :=
  let size := Size m in
  let b := Board m in
  (* Check rows *)
  r ← scan_lines (λ i j, cell b i j) size 0 (Z.to_nat size);
  match r with Some w => Some w | None =>
  (* Check columns *)
  r ← scan_lines (λ j i, cell b i j) size 0 (Z.to_nat size);
  match r with Some w => Some w | None =>
  (* Check main diagonal *)
  r ← check_line (λ i, cell b i i) size;
  match r with Some w => Some w | None =>
  (* Check anti-diagonal *)
  r ← check_line (λ i, cell b i (size - 1 - i)) size;
  match r with Some w => Some w | None =>
  Some ""
  end end end end.

Section Handler.

(** The order in which Go's [range match.Players] visits the entries. *)
Variable range_players : gmap string string → list (string * string).
Hypothesis range_players_perm :
  ∀ p, range_players p ≡ₚ map_to_list p.

(** One iteration of the loop of [updateLeaderboard]. *)
Definition report (winner : string) (entry : string * string) : list Effect :=
  let '(userID, symbol) := entry in
  let '(score, won, lost, drawn) :=
    if decide (winner = symbol) then (10, true, false, false)
    else if decide (winner = "") then (1, false, false, true)
    else (-5, false, true, false) in
  [UpdateLeaderboard userID score; UpdateUserStats userID won lost drawn].

Definition updateLeaderboard (m : TTTMatch) : list Effect :=
  flat_map (report (Winner m)) (range_players (Players m)).

Definition sendError (message : string) : list Effect :=
  [BroadcastMessage OpcodeError (PError {| Msg := message |}) None true].

Definition stateData (m : TTTMatch) : StateData :=
  {| sd_Board := Board m; sd_Turn := Turn m; sd_Winner := Winner m;
     sd_Size := Size m; sd_Mode := Mode m; sd_Players := Players m |}.

Definition handleMove (m : TTTMatch) (message : MatchData)
  : option (TTTMatch * list Effect) :=
  (* Check if game is in playing state *)
  if decide (State m ≠ GameStatePlaying) then
    Some (m, sendError "Game is not in playing state")
  else
  (* Parse move data *)
  match Data message with
  | None => Some (m, sendError "Invalid move data")
  | Some moveData =>
  (* Validate move coordinates *)
  if decide (Row moveData < 0 ∨ Row moveData >= Size m ∨
             Col moveData < 0 ∨ Col moveData >= Size m) then
    Some (m, sendError "Invalid move coordinates")
  else
  (* Check if it's the player's turn *)
  match Players m !! UserId message with
  | None => Some (m, sendError "Player not in match")
  | Some playerSymbol =>
  if decide (playerSymbol ≠ Turn m) then
    Some (m, sendError "Not your turn")
  else
  (* Check if cell is empty *)
  c ← cell (Board m) (Row moveData) (Col moveData);
  if decide (c ≠ Empty) then
    Some (m, sendError "Cell already occupied")
  else
  (* Make the move *)
  let m1 :=
    set_MoveCount (wrap_int (MoveCount m + 1))
      (set_Board (set_cell (Board m) (Row moveData) (Col moveData) playerSymbol) m) in
  (* Check for win or draw *)
  winner ← checkWinner m1;
  let '(m2, scored) :=
    if decide (winner ≠ "") then
      let m2 := set_State GameStateFinished (set_Winner winner m1) in
      (m2, updateLeaderboard m2)
    else if decide (MoveCount m1 >= wrap_int (Size m1 * Size m1)) then
      let m2 := set_State GameStateFinished m1 in
      (m2, updateLeaderboard m2)
    else
      (* Switch turns *)
      (set_Turn (if decide (Turn m1 = PlayerX) then PlayerO else PlayerX) m1, []) in
  (* Broadcast updated state *)
  Some (m2, scored ++ [BroadcastMessage OpcodeState (PState (stateData m2)) None true])
  end end.

(** [MatchLoop]: every message whose opcode is [OpcodeMove] goes through
    [handleMove], the others are skipped. *)
Fixpoint MatchLoop (m : TTTMatch) (messages : list MatchData)
  : option (TTTMatch * list Effect) :=
  match messages with
  | [] => Some (m, [])
  | message :: rest =>
      if decide (OpCode message = OpcodeMove) then
        '(m1, e1) ← handleMove m message;
        '(m2, e2) ← MatchLoop m1 rest;
        Some (m2, e1 ++ e2)
      else MatchLoop m rest
  end.

Definition MatchTerminate (m : TTTMatch) (graceSeconds : Z)
  : TTTMatch * list Effect :=
  (* Update leaderboard if game was finished *)
  if decide (State m = GameStateFinished ∧ Winner m ≠ "")
  then (m, updateLeaderboard m)
  else (m, []).

End Handler.

(** [MatchJoinAttempt] for the presence of user [userId]; the result is the
    state, the admission flag and the rejection reason. *)
Definition MatchJoinAttempt (m : TTTMatch) (userId : string)
  : TTTMatch * bool * string :=
  (* Check if match is full *)
  if decide (2 ≤ size (Players m))%nat then (m, false, "Match is full")
  (* Check if match is already finished *)
  else if decide (State m = GameStateFinished) then (m, false, "Match is finished")
  else
    (* Assign player symbol *)
    let symbol := if decide (size (Players m) = 1%nat) then PlayerO else PlayerX in
    let m1 := set_Players (<[userId := symbol]> (Players m)) m in
    (* Start game if we have 2 players *)
    let m2 := if decide (size (Players m1) = 2%nat)
              then set_State GameStatePlaying m1 else m1 in
    (m2, true, "").

(** [MatchJoin]: a match-found notice to each joining presence, then the
    state to the whole match.  The [StateData] built here leaves [Winner] at
    its zero value. *)
Definition MatchJoin (m : TTTMatch) (presences : list string)
  : TTTMatch * list Effect :=
  (m,
   map (λ presence,
          BroadcastMessage OpcodeMatchFound
            (PMatchFound {| mf_MatchID := ID m; mf_Mode := Mode m |})
            (Some [presence]) false) presences
   ++ [BroadcastMessage OpcodeState
         (PState {| sd_Board := Board m; sd_Turn := Turn m; sd_Winner := "";
                    sd_Size := Size m; sd_Mode := Mode m;
                    sd_Players := Players m |}) None true]).

Definition MatchLeave (m : TTTMatch) (presences : list string) : TTTMatch :=
  (* Remove players *)
  let m1 := set_Players (foldl (λ p userId, delete userId p) (Players m) presences) m in
  (* If game was in progress, mark as finished *)
  if decide (State m1 = GameStatePlaying)
  then set_State GameStateFinished m1 else m1.

Definition MatchSignal (m : TTTMatch) (data : string) : TTTMatch * string :=
  (m, "").

(** The calls the Nakama runtime makes on one match. *)
Inductive HostCall :=
| CallJoinAttempt (userId : string)
| CallJoin (presences : list string)
| CallLeave (presences : list string)
| CallLoop (messages : list MatchData)
| CallTerminate (graceSeconds : Z)
| CallSignal (data : string).

Definition step (range_players : gmap string string → list (string * string))
  (m : TTTMatch) (c : HostCall) : option (TTTMatch * list Effect) :=
  match c with
  | CallJoinAttempt userId => Some ((MatchJoinAttempt m userId).1.1, [])
  | CallJoin presences => Some (MatchJoin m presences)
  | CallLeave presences => Some (MatchLeave m presences, [])
  | CallLoop messages => MatchLoop range_players m messages
  | CallTerminate graceSeconds => Some (MatchTerminate range_players m graceSeconds)
  | CallSignal data => Some ((MatchSignal m data).1, [])
  end.

(** A history of one match: the state after the calls and everything the
    handler asked of the host, oldest first. *)
Fixpoint run (range_players : gmap string string → list (string * string))
  (m : TTTMatch) (cs : list HostCall) : option (TTTMatch * list Effect) :=
  match cs with
  | [] => Some (m, [])
  | c :: rest =>
      '(m1, e1) ← step range_players m c;
      '(m2, e2) ← run range_players m1 rest;
      Some (m2, e1 ++ e2)
  end.

(** Who receives an effect, given the users present in the match.  Nakama's
    dispatcher sends a broadcast whose [presences] is [nil] to the whole
    match (compare the comment on [sendError] in the source: the error goes
    to all players). *)
Definition recipients (participants : list string) (e : Effect) : list string :=
  match e with
  | BroadcastMessage _ _ None _ => participants
  | BroadcastMessage _ _ (Some presences) _ => presences
  | _ => []
  end.

(** The calls to the scoring collaborator made on behalf of [userID]. *)
Definition is_report_for (userID : string) (e : Effect) : bool :=
  match e with
  | UpdateLeaderboard u _ => bool_decide (u = userID)
  | UpdateUserStats u _ _ _ => bool_decide (u = userID)
  | BroadcastMessage _ _ _ _ => false
  end.

Definition reports_for (userID : string) (es : list Effect) : list Effect :=
  List.filter (is_report_for userID) es.

(** The two calls that make up one outcome report. *)
Definition win_report (userID : string) : list Effect :=
  [UpdateLeaderboard userID 10; UpdateUserStats userID true false false].
Definition draw_report (userID : string) : list Effect :=
  [UpdateLeaderboard userID 1; UpdateUserStats userID false false true].
Definition loss_report (userID : string) : list Effect :=
  [UpdateLeaderboard userID (-5); UpdateUserStats userID false true false].

(** *** The words of the specification, for comparison with the code *)

(** A line is the list of its coordinates. *)
Definition row_line (size i : Z) : list (Z * Z) := (λ j, (i, j)) <$> seqZ 0 size.
Definition col_line (size j : Z) : list (Z * Z) := (λ i, (i, j)) <$> seqZ 0 size.
Definition diag_line (size : Z) : list (Z * Z) := (λ i, (i, i)) <$> seqZ 0 size.
Definition anti_line (size : Z) : list (Z * Z) :=
  (λ i, (i, size - 1 - i)) <$> seqZ 0 size.

(** Row scan, then column scan, then main diagonal, then anti-diagonal. *)
Definition all_lines (size : Z) : list (list (Z * Z)) :=
  (row_line size <$> seqZ 0 size) ++ (col_line size <$> seqZ 0 size)
  ++ [diag_line size; anti_line size].

(** [line_symbol b l = Some s]: the cells of [l] hold identical non-empty
    symbols [s]. *)
Definition line_symbol (b : list (list string)) (l : list (Z * Z)) : option string :=
  match l with
  | [] => None
  | p :: rest =>
      c0 ← cell b p.1 p.2;
      if decide (c0 ≠ Empty) then
        if decide (Forall (λ q, cell b q.1 q.2 = Some c0) rest) then Some c0 else None
      else None
  end.

(** The symbol of the first full line in scan order, if any. *)
Definition spec_winner (b : list (list string)) (size : Z) : option string :=
  head (omap (line_symbol b) (all_lines size)).

(** A square board of side [size]. *)
Definition board_ok (size : Z) (b : list (list string)) : Prop :=
  length b = Z.to_nat size ∧ Forall (λ r, length r = Z.to_nat size) b.

(** Number of occupied cells. *)
Definition filled (b : list (list string)) : nat :=
  length (List.filter (λ c, bool_decide (c ≠ Empty)) (concat b)).

(** The invariant of the states the handler can be in. *)
Record wf (m : TTTMatch) : Prop := {
  wf_size : Size m = 3 ∨ Size m = 5;
  wf_board : board_ok (Size m) (Board m);
  wf_turn : Turn m = PlayerX ∨ Turn m = PlayerO;
  wf_players : ∀ u s, Players m !! u = Some s → s = PlayerX ∨ s = PlayerO;
  wf_count : MoveCount m = Z.of_nat (filled (Board m));
  wf_winner : checkWinner m = Some (Winner m);
  wf_state : State m = GameStateWaiting ∨ State m = GameStatePlaying
             ∨ State m = GameStateFinished;
  wf_waiting : State m = GameStateWaiting →
               (size (Players m) < 2)%nat ∧ MoveCount m = 0;
  wf_playing : State m = GameStatePlaying →
               MoveCount m < Size m * Size m ∧ size (Players m) = 2%nat;
  wf_unfinished : State m ≠ GameStateFinished → Winner m = ""
}.

(** [rejected m message reason]: the first check of [handleMove] that
    [message] fails on [m], by the text of the error it sends. *)
Inductive rejected (m : TTTMatch) (message : MatchData) : string → Prop :=
| rej_phase :
    State m ≠ GameStatePlaying →
    rejected m message "Game is not in playing state"
| rej_data :
    State m = GameStatePlaying → Data message = None →
    rejected m message "Invalid move data"
| rej_coordinates d :
    State m = GameStatePlaying → Data message = Some d →
    ¬ (0 ≤ Row d < Size m ∧ 0 ≤ Col d < Size m) →
    rejected m message "Invalid move coordinates"
| rej_player d :
    State m = GameStatePlaying → Data message = Some d →
    0 ≤ Row d < Size m ∧ 0 ≤ Col d < Size m →
    Players m !! UserId message = None →
    rejected m message "Player not in match"
| rej_turn d s :
    State m = GameStatePlaying → Data message = Some d →
    0 ≤ Row d < Size m ∧ 0 ≤ Col d < Size m →
    Players m !! UserId message = Some s → s ≠ Turn m →
    rejected m message "Not your turn"
| rej_occupied d c :
    State m = GameStatePlaying → Data message = Some d →
    0 ≤ Row d < Size m ∧ 0 ≤ Col d < Size m →
    Players m !! UserId message = Some (Turn m) →
    cell (Board m) (Row d) (Col d) = Some c → c ≠ Empty →
    rejected m message "Cell already occupied".

(** The state right after [match.Board[row][col] = playerSymbol] and
    [match.MoveCount++], the mover being the player on turn. *)
Definition after_move (m : TTTMatch) (d : MoveData) : TTTMatch :=
  set_MoveCount (wrap_int (MoveCount m + 1))
    (set_Board (set_cell (Board m) (Row d) (Col d) (Turn m)) m).

(** The closing broadcast of [handleMove]. *)
Definition state_broadcast (m : TTTMatch) : Effect :=
  BroadcastMessage OpcodeState (PState (stateData m)) None true.

(** A move that passes every check. *)
Definition valid_move (m : TTTMatch) (message : MatchData) (d : MoveData) : Prop :=
  State m = GameStatePlaying ∧ Data message = Some d ∧
  0 ≤ Row d < Size m ∧ 0 ≤ Col d < Size m ∧
  Players m !! UserId message = Some (Turn m) ∧
  cell (Board m) (Row d) (Col d) = Some Empty.

Definition other_symbol (s : string) : string :=
  if decide (s = PlayerX) then PlayerO else PlayerX.

(** What an accepted move computes, by the three branches that follow
    [checkWinner]; [w] is its result. *)
Definition commit_outcome (range_players : gmap string string → list (string * string))
  (m : TTTMatch) (d : MoveData) (w : string)
  (m' : TTTMatch) (effs : list Effect) : Prop :=
  let m1 := after_move m d in
  (w ≠ "" ∧ m' = set_State GameStateFinished (set_Winner w m1) ∧
   effs = updateLeaderboard range_players m' ++ [state_broadcast m'])
  ∨ (w = "" ∧ MoveCount m1 >= wrap_int (Size m1 * Size m1) ∧
     m' = set_State GameStateFinished m1 ∧
     effs = updateLeaderboard range_players m' ++ [state_broadcast m'])
  ∨ (w = "" ∧ MoveCount m1 < wrap_int (Size m1 * Size m1) ∧
     m' = set_Turn (other_symbol (Turn m1)) m1 ∧
     effs = [state_broadcast m']).

(** No cell is empty. *)
Definition board_full (b : list (list string)) : Prop :=
  Forall (λ c, c ≠ Empty) (concat b).

(** What a history may contain, by the way the match ended. *)
Definition no_reports (effs : list Effect) : Prop :=
  ∀ u, reports_for u effs = [].

Definition drawn_reports (a b : string) (effs : list Effect) : Prop :=
  a ≠ b ∧
  ∀ u, reports_for u effs = if decide (u = a ∨ u = b) then draw_report u else [].

Definition history_ok (m : TTTMatch) (effs : list Effect) : Prop :=
  (State m ≠ GameStateFinished → no_reports effs)
  ∧ (State m = GameStateFinished → Winner m = "" →
     (MoveCount m < Size m * Size m ∧ no_reports effs)
     ∨ (MoveCount m = Size m * Size m ∧
        ∃ a b, drawn_reports a b effs ∧
               ∀ u, is_Some (Players m !! u) → u = a ∨ u = b)).

(** *** Concrete games, used as instances *)

Definition move (userId : string) (row col : Z) : MatchData :=
  {| UserId := userId; OpCode := OpcodeMove;
     Data := Some {| Row := row; Col := col |} |}.

(** The state after "a" alone has joined a fresh classic match. *)
Definition waiting_a : TTTMatch :=
  {| ID := ""; Mode := GameModeClassic; Size := 3;
     Board := [[Empty; Empty; Empty]; [Empty; Empty; Empty]; [Empty; Empty; Empty]];
     Turn := PlayerX; Winner := ""; State := GameStateWaiting;
     Players := <["a" := PlayerX]> ∅;
     MoveCount := 0; CreatedAt := 0 |}.

(** Users "a" and "b" join a fresh classic match. *)
Definition join_ab : list HostCall :=
  [CallJoinAttempt "a"; CallJoinAttempt "b"; CallJoin ["a"; "b"]].

(** The state after [join_ab]. *)
Definition playing_ab : TTTMatch :=
  {| ID := ""; Mode := GameModeClassic; Size := 3;
     Board := [[Empty; Empty; Empty]; [Empty; Empty; Empty]; [Empty; Empty; Empty]];
     Turn := PlayerX; Winner := ""; State := GameStatePlaying;
     Players := <["b" := PlayerO]> (<["a" := PlayerX]> ∅);
     MoveCount := 0; CreatedAt := 0 |}.

(** X takes the top row. *)
Definition row_win_moves : list MatchData :=
  [move "a" 0 0; move "b" 1 0; move "a" 0 1; move "b" 1 1; move "a" 0 2].

(** The state before X's last move of [row_win_moves]. *)
Definition before_row_win : TTTMatch :=
  {| ID := ""; Mode := GameModeClassic; Size := 3;
     Board := [[PlayerX; PlayerX; Empty]; [PlayerO; PlayerO; Empty];
               [Empty; Empty; Empty]];
     Turn := PlayerX; Winner := ""; State := GameStatePlaying;
     Players := <["b" := PlayerO]> (<["a" := PlayerX]> ∅);
     MoveCount := 4; CreatedAt := 0 |}.

(** A board with two full rows, O above X; no game reaches it, it shows
    the order of the scan. *)
Definition two_rows : TTTMatch :=
  {| ID := ""; Mode := GameModeClassic; Size := 3;
     Board := [[PlayerO; PlayerO; PlayerO]; [PlayerX; PlayerX; PlayerX];
               [Empty; Empty; Empty]];
     Turn := PlayerX; Winner := ""; State := GameStatePlaying;
     Players := ∅; MoveCount := 6; CreatedAt := 0 |}.

(** Nine moves that fill the board with no line:
    X O X / X O O / O X X. *)
Definition draw_moves : list MatchData :=
  [move "a" 0 0; move "b" 0 1; move "a" 0 2; move "b" 1 1; move "a" 1 0;
   move "b" 1 2; move "a" 2 1; move "b" 2 0; move "a" 2 2].

(** *** Further notions, for properties of whole histories *)

(** What a cell may hold. *)
Definition symbol_cell (c : string) : Prop :=
  c = Empty ∨ c = PlayerX ∨ c = PlayerO.

(** Number of cells holding [s]. *)
Definition count_sym (s : string) (b : list (list string)) : nat :=
  length (List.filter (λ c, bool_decide (c = s)) (concat b)).

Definition is_broadcast (e : Effect) : bool :=
  match e with BroadcastMessage _ _ _ _ => true | _ => false end.

Definition broadcasts (effs : list Effect) : list Effect :=
  List.filter is_broadcast effs.

(** The test of [MatchLoop] on a message. *)
Definition is_move (message : MatchData) : bool :=
  bool_decide (OpCode message = OpcodeMove).

(** A second invariant, on top of [wf]: the board size follows the mode,
    cells hold symbols only, X moves first and the players alternate, and a
    winner is the player who moved last. *)
Record played (m : TTTMatch) : Prop := {
  pl_wf : wf m;
  pl_mode : Size m = if decide (Mode m = GameModeAdvanced) then 5 else 3;
  pl_cells : Forall symbol_cell (concat (Board m));
  pl_diff : count_sym PlayerX (Board m) = count_sym PlayerO (Board m)
            ∨ count_sym PlayerX (Board m) = S (count_sym PlayerO (Board m));
  pl_turn : State m ≠ GameStateFinished →
            (Turn m = PlayerX
             ∧ count_sym PlayerX (Board m) = count_sym PlayerO (Board m))
            ∨ (Turn m = PlayerO
               ∧ count_sym PlayerX (Board m) = S (count_sym PlayerO (Board m)));
  pl_winner : Winner m ≠ "" → Winner m = Turn m;
  pl_players : (size (Players m) ≤ 2)%nat
}.

(** The calls to the scoring collaborator in a history. *)
Definition scoring (effs : list Effect) : list Effect :=
  List.filter (λ e, negb (is_broadcast e)) effs.

(** A sequence of whole outcome reports: each is a leaderboard write of 10,
    1 or -5 followed by the statistics update of the same user with the
    matching flag. *)
Inductive report_seq : list Effect → Prop :=
| report_seq_nil : report_seq []
| report_seq_win u l : report_seq l → report_seq (win_report u ++ l)
| report_seq_draw u l : report_seq l → report_seq (draw_report u ++ l)
| report_seq_loss u l : report_seq l → report_seq (loss_report u ++ l).

(** Every full line of the board holds the recorded winner's symbol. *)
Definition lines_won (m : TTTMatch) : Prop :=
  ∀ l t, l ∈ all_lines (Size m) → line_symbol (Board m) l = Some t → t = Winner m.

(** The match-found notice carried by an effect, with its addressees. *)
Definition match_found (e : Effect)
  : option (option (list string) * MatchFoundData) :=
  match e with
  | BroadcastMessage _ (PMatchFound d) presences _ => Some (presences, d)
  | _ => None
  end.

(** The presences handed to [MatchJoin] in a history, in order. *)
Definition joined (cs : list HostCall) : list string :=
  flat_map (λ c, match c with CallJoin presences => presences | _ => [] end) cs.

End Match.

(** ** [backend/matchmaking.go] *)

Module Matchmaking.

Record MatchmakingRequest := { req_Mode : string }.

Record MatchmakingResponse := { Ticket : string; resp_Mode : string }.

(** A player waiting for a match; [Timestamp] is the reading of
    [time.Now()]. *)
Record MatchmakingQueue := { UserID : string; Mode : string; Timestamp : Z }.

(** What the host answers during one RPC: the result of [nk.MatchCreate]
    (a match id or an error), of [nk.NotificationsSend] (an error or not; the
    code only logs it), and the two readings of the clock, [time.Now()] for
    the entry and [time.Now().Unix()] for the ticket. *)
Record Host := {
  host_MatchCreate : string + string;
  host_NotificationsSend : option string;
  host_now : Z;
  host_now_unix : Z
}.

Inductive Effect :=
| MatchCreate (module : string) (mode : string)
| NotificationsSend (userID subject : string) (match_id mode : string)
    (code : Z) (persistent : bool).

Inductive RpcError :=
| InvalidRequestFormat
| UserNotAuthenticated.

(** [fmt.Sprintf("ticket_%s_%d", userID, time.Now().Unix())] *)
Definition ticket_of (userID : string) (unix : Z) : string :=
  "ticket_" +:+ userID +:+ "_" +:+ pretty unix.

(** The search loop of [startMatchmakingRPC] over the entries in the order
    [range matchmakingQueue] visits them. *)
Fixpoint find_opponent (visit : list (string * MatchmakingQueue))
  (mode userID : string) : option MatchmakingQueue :=
  match visit with
  | [] => None
  | (_, queuedPlayer) :: rest =>
      if decide (Mode queuedPlayer = mode ∧ UserID queuedPlayer ≠ userID)
      then Some queuedPlayer
      else find_opponent rest mode userID
  end.

(** [if request.Mode != GameModeClassic && request.Mode != GameModeAdvanced
    { request.Mode = GameModeClassic }]: the mode the request is served in. *)
Definition requested_mode (request : MatchmakingRequest) : string :=
  if decide (req_Mode request ≠ GameModeClassic ∧ req_Mode request ≠ GameModeAdvanced)
  then GameModeClassic else req_Mode request.

(** [startMatchmakingRPC].  [payload] is the result of [json.Unmarshal] on
    the request, [ctxUser] the user id found in the context, [visit] the order
    of this call's [range] over the queue, [q] the global
    [matchmakingQueue] (the whole body runs under [queueMutex]).
    [json.Marshal] of a response of two strings cannot fail. *)
Definition startMatchmakingRPC (visit : list (string * MatchmakingQueue))
  (host : Host) (ctxUser : option string) (payload : option MatchmakingRequest)
  (q : gmap string MatchmakingQueue)
  : (RpcError + MatchmakingResponse) * gmap string MatchmakingQueue * list Effect :=
  match payload with
  | None => (inl InvalidRequestFormat, q, [])
  | Some request =>
  (* Validate game mode *)
  let mode := requested_mode request in
  (* Get user ID from context *)
  match ctxUser with
  | None => (inl UserNotAuthenticated, q, [])
  | Some userID =>
  (* Check if there's already a player waiting for the same mode *)
  match find_opponent visit mode userID with
  | Some opponent =>
      (* Remove both players from queue *)
      let q1 := delete (UserID opponent) q in
      (* Create a match *)
      match host_MatchCreate host with
      | inr err =>
          (* Add current player to queue as fallback *)
          let q2 := <[userID := {| UserID := userID; Mode := mode;
                                   Timestamp := host_now host |}]> q1 in
          (inr {| Ticket := ticket_of userID (host_now_unix host);
                  resp_Mode := mode |},
           q2, [MatchCreate "ttt_match" mode])
      | inl matchID =>
          (* Send notification to opponent *)
          (inr {| Ticket := matchID; resp_Mode := mode |},
           q1,
           [MatchCreate "ttt_match" mode;
            NotificationsSend (UserID opponent) "Match Created" matchID mode 1 true])
      end
  | None =>
      (* No opponent found, add to queue *)
      let q1 := <[userID := {| UserID := userID; Mode := mode;
                               Timestamp := host_now host |}]> q in
      (inr {| Ticket := ticket_of userID (host_now_unix host); resp_Mode := mode |},
       q1, [])
  end end end.

(** [stopMatchmakingRPC]; [payload] is the decoded ticket.  [inr tt] is the
    success acknowledgement. *)
Definition stopMatchmakingRPC (ctxUser : option string) (payload : option string)
  (q : gmap string MatchmakingQueue)
  : (RpcError + unit) * gmap string MatchmakingQueue :=
  match payload with
  | None => (inl InvalidRequestFormat, q)
  | Some ticket =>
  match ctxUser with
  | None => (inl UserNotAuthenticated, q)
  | Some userID =>
      (* Remove player from matchmaking queue *)
      match q !! userID with
      | Some _ => (inr tt, delete userID q)
      | None => (inr tt, q)
      end
  end end.

(** The states of the global queue: empty when the module is loaded, then
    changed by the two RPCs only; each [range] may visit the entries in any
    order. *)
Inductive reachable : gmap string MatchmakingQueue → Prop :=
| reach_init : reachable ∅
| reach_start q visit host ctxUser payload :
    reachable q →
    visit ≡ₚ map_to_list q →
    reachable (startMatchmakingRPC visit host ctxUser payload q).1.2
| reach_stop q ctxUser payload :
    reachable q →
    reachable (stopMatchmakingRPC ctxUser payload q).2.

(** Every entry is filed under its own user id. *)
Definition keyed (q : gmap string MatchmakingQueue) : Prop :=
  ∀ k e, q !! k = Some e → UserID e = k.

(** *** A concrete queue, used as an instance *)

(** A host whose [nk.MatchCreate] succeeds with match id "m1", and one
    whose [nk.MatchCreate] fails. *)
Definition host_ok (now : Z) : Host :=
  {| host_MatchCreate := inl "m1"; host_NotificationsSend := None;
     host_now := now; host_now_unix := now |}.
Definition host_failing (now : Z) : Host :=
  {| host_MatchCreate := inr "match create failed"; host_NotificationsSend := None;
     host_now := now; host_now_unix := now |}.

Definition alice_classic : MatchmakingQueue :=
  {| UserID := "alice"; Mode := GameModeClassic; Timestamp := 100 |}.
Definition bob_advanced : MatchmakingQueue :=
  {| UserID := "bob"; Mode := GameModeAdvanced; Timestamp := 200 |}.

(** "alice" waits for a classic match and "bob" for an advanced one. *)
Definition two_waiting : gmap string MatchmakingQueue :=
  <["bob" := bob_advanced]> (<["alice" := alice_classic]> ∅).

(** *** The other entry points of [matchmaking.go] *)

(** A property of a matchmaker entry as [handleMatchmakerMatched] reads it:
    a string, or a value of any other type. *)
Inductive PropValue :=
| PropString (s : string)
| PropOther.

(** A [runtime.MatchmakerEntry]: the user of its presence and its
    properties. *)
Record MatchmakerEntry := {
  entry_UserId : string;
  entry_Properties : gmap string PropValue
}.

Inductive MatchedError :=
| ExpectedTwoPlayers (got : nat)
| FailedToCreateMatch (err : string).

(** [handleMatchmakerMatched]; [create] is the answer of [nk.MatchCreate]. *)
Definition handleMatchmakerMatched (create : string + string)
  (entries : list MatchmakerEntry) : (MatchedError + string) * list Effect :=
  match entries with
  | [e0; e1] =>
      (* Determine game mode from matchmaker properties *)
      let mode :=
        match entry_Properties e0 !! "mode" with
        | Some (PropString modeStr) => modeStr
        | _ => GameModeClassic
        end in
      (* Create match *)
      match create with
      | inr err => (inl (FailedToCreateMatch err), [MatchCreate "ttt_match" mode])
      | inl matchID => (inr matchID, [MatchCreate "ttt_match" mode])
      end
  | _ => (inl (ExpectedTwoPlayers (length entries)), [])
  end.

(** [CreateCustomMatch] *)
Definition CreateCustomMatch (create : string + string) (mode : string)
  : (string + string) * list Effect :=
  match create with
  | inr err => (inl err, [MatchCreate "ttt_match" mode])
  | inl matchID => (inr matchID, [MatchCreate "ttt_match" mode])
  end.

(** What [nk.MatchCreate(ctx, module, params)] starts: [InitModule]
    registers [TTTMatchHandler] under the name "ttt_match", so the runtime
    answers a creation under that name by calling its [MatchInit] with the
    parameters of the call, here [{"mode": mode}]; no handler is registered
    under any other name. *)
Definition created_match (e : Effect) (now : Z) : option Match.TTTMatch :=
  match e with
  | MatchCreate module mode =>
      if decide (module = "ttt_match") then Some (Match.MatchInit (Some mode) now)
      else None
  | NotificationsSend _ _ _ _ _ _ => None
  end.

(** *** Notions for the properties of the queue *)

Definition one_per_mode (q : gmap string MatchmakingQueue) : Prop :=
  ∀ k1 k2 e1 e2,
    q !! k1 = Some e1 → q !! k2 = Some e2 → Mode e1 = Mode e2 → k1 = k2.

Definition modes_served (q : gmap string MatchmakingQueue) : Prop :=
  ∀ k e, q !! k = Some e → Mode e = GameModeClassic ∨ Mode e = GameModeAdvanced.

End Matchmaking.

(** ** [UpdateLeaderboard] of [backend/leaderboard.go] *)

Module Leaderboard.

(** The one field of [api.User] that is read. *)
Record User := { Username : string }.

(** What the host answers during one call: [nk.UsersGetId] (the users and
    the error, if any), and the two [nk.LeaderboardRecordWrite] (an error or
    none). *)
Record Host := {
  host_UsersGetId : list User * option string;
  host_write_main : option string;
  host_write_weekly : option string
}.

Inductive Effect :=
| UsersGetId (userIDs : list string)
| LeaderboardRecordWrite (id ownerID username : string) (score subscore : Z).

Inductive UpdateError :=
| FailedMainLeaderboard (err : string)
| FailedWeeklyLeaderboard (err : string).

(** [UpdateLeaderboard]; the result is the error returned, [None] for
    [nil]. *)
Definition UpdateLeaderboard (host : Host) (userID : string) (score : Z)
  : option UpdateError * list Effect :=
  (* Get user information including username; an error is only logged *)
  let users := (host_UsersGetId host).1 in
  let username :=
    match users with
    | u :: _ => Username u
    | [] => ""
    end in
  (* Update main leaderboard *)
  match host_write_main host with
  | Some err =>
      (Some (FailedMainLeaderboard err),
       [UsersGetId [userID];
        LeaderboardRecordWrite "ttt_leaderboard" userID username score 0])
  | None =>
      (* Update weekly leaderboard *)
      match host_write_weekly host with
      | Some err =>
          (Some (FailedWeeklyLeaderboard err),
           [UsersGetId [userID];
            LeaderboardRecordWrite "ttt_leaderboard" userID username score 0;
            LeaderboardRecordWrite "ttt_weekly_leaderboard" userID username score 0])
      | None =>
          (None,
           [UsersGetId [userID];
            LeaderboardRecordWrite "ttt_leaderboard" userID username score 0;
            LeaderboardRecordWrite "ttt_weekly_leaderboard" userID username score 0])
      end
  end.

(** The leaderboards written by a list of host calls, in order. *)
Definition written (effs : list Effect) : list string :=
  omap (λ e, match e with
             | LeaderboardRecordWrite id _ _ _ _ => Some id
             | UsersGetId _ => None
             end) effs.

End Leaderboard.

(** * Proofs *)

Module MatchProofs.
Import Match.

Lemma wrap_int_small z : - 2 ^ 63 ≤ z < 2 ^ 63 → wrap_int z = z.
Proof.
  intros Hz. unfold wrap_int. rewrite Z.mod_small; lia.
Qed.

(** *** The board *)

Lemma cell_Some_inv b i j c :
  cell b i j = Some c →
  0 ≤ i ∧ 0 ≤ j ∧ ∃ r, b !! Z.to_nat i = Some r ∧ r !! Z.to_nat j = Some c.
Proof.
  unfold cell. case_decide as H; [|done].
  destruct (b !! Z.to_nat i) as [r|] eqn:Hr; simpl; [|done].
  intros Hc. destruct H. eauto 6.
Qed.

Lemma cell_is_Some size b i j :
  board_ok size b → 0 ≤ i < size → 0 ≤ j < size → is_Some (cell b i j).
Proof.
  intros [Hlen Hrows] Hi Hj. unfold cell.
  rewrite decide_True by lia.
  destruct (lookup_lt_is_Some_2 b (Z.to_nat i)) as [r Hr]; [lia|].
  rewrite Hr. simpl. apply lookup_lt_is_Some_2.
  rewrite Forall_forall in Hrows.
  rewrite (Hrows r); [lia|]. eapply list_elem_of_lookup_2, Hr.
Qed.

Lemma cell_set_cell b i j s i' j' :
  0 ≤ i → 0 ≤ j → is_Some (cell b i j) →
  cell (set_cell b i j s) i' j' =
  if decide (i' = i ∧ j' = j) then Some s else cell b i' j'.
Proof.
  intros Hi Hj [c Hc]. apply cell_Some_inv in Hc as (_ & _ & r & Hr & Hrc).
  unfold cell, set_cell.
  destruct (decide (0 ≤ i' ∧ 0 ≤ j')) as [[Hi' Hj']|Hneg].
  - destruct (decide (Z.to_nat i' = Z.to_nat i)) as [Heq|Hne].
    + rewrite Heq, list_lookup_alter_eq, Hr. simpl.
      destruct (decide (Z.to_nat j' = Z.to_nat j)) as [Heqj|Hnej].
      * rewrite Heqj, list_lookup_insert_eq by (by eapply lookup_lt_Some).
        rewrite decide_True by lia. done.
      * rewrite list_lookup_insert_ne by done.
        rewrite decide_False by lia. done.
    + rewrite list_lookup_alter_ne by done.
      rewrite decide_False by lia. done.
  - rewrite decide_False by lia. done.
Qed.

Lemma board_ok_set_cell size b i j s :
  board_ok size b → board_ok size (set_cell b i j s).
Proof.
  intros [Hlen Hrows]. split; unfold set_cell.
  - by rewrite length_alter.
  - apply Forall_alter; [done|]. intros r _ Hr. by rewrite length_insert.
Qed.

Lemma filled_cons r b :
  filled (r :: b) =
  (length (List.filter (λ c, bool_decide (c ≠ Empty)) r) + filled b)%nat.
Proof.
  unfold filled. simpl. by rewrite List.filter_app, length_app.
Qed.

Lemma count_insert (r : list string) j s :
  r !! j = Some Empty → s ≠ Empty →
  length (List.filter (λ c, bool_decide (c ≠ Empty)) (<[j:=s]> r)) =
  S (length (List.filter (λ c, bool_decide (c ≠ Empty)) r)).
Proof.
  intros Hj Hs. revert j Hj. induction r as [|c r IH]; intros [|j] Hj; try done.
  - injection Hj as ->. simpl. by rewrite bool_decide_eq_true_2.
  - simpl in *. destruct (bool_decide (c ≠ Empty)); simpl; by rewrite (IH j).
Qed.

Lemma filled_set_cell b i j s :
  cell b i j = Some Empty → s ≠ Empty →
  filled (set_cell b i j s) = S (filled b).
Proof.
  intros Hc Hs. apply cell_Some_inv in Hc as (_ & _ & r & Hr & Hrj).
  unfold set_cell. revert Hr. generalize (Z.to_nat i). intros n. revert n.
  induction b as [|r0 b IH]; intros [|n] Hn; try done.
  - injection Hn as ->. simpl. rewrite !filled_cons, count_insert by done. lia.
  - change (filled (r0 :: alter (λ r, <[Z.to_nat j := s]> r) n b) = S (filled (r0 :: b))).
    rewrite !filled_cons, (IH n) by done. lia.
Qed.

Lemma filled_replicate_empty n k : filled (replicate n (replicate k Empty)) = 0%nat.
Proof.
  induction n as [|n IH]; [done|]. simpl. rewrite filled_cons, IH.
  rewrite Nat.add_0_r. clear IH.
  induction k as [|k IHk]; [reflexivity|]. exact IHk.
Qed.

(** A board with no empty cell has [size * size] occupied cells. *)
Lemma filled_full size b :
  0 ≤ size → board_ok size b → board_full b →
  Z.of_nat (filled b) = size * size.
Proof.
  intros Hsize [Hlen Hrows] Hfull. unfold filled, board_full in *.
  assert (List.filter (λ c, bool_decide (c ≠ Empty)) (concat b) = concat b) as ->.
  { induction (concat b) as [|c l IH]; [done|].
    apply Forall_cons in Hfull as [Hc Hl]. simpl.
    rewrite bool_decide_eq_true_2 by done. f_equal. by apply IH. }
  assert (length (concat b) = (length b * Z.to_nat size)%nat) as ->; [|lia].
  clear Hlen Hfull. induction b as [|r b IH]; [done|].
  apply Forall_cons in Hrows as [Hr Hrows].
  simpl. rewrite length_app, Hr, IH by done. lia.
Qed.

(** *** [checkWinner] against the scan order of the specification *)

Lemma scan_line_spec (line : Z → option string) first n k :
  (∀ k', k ≤ k' < k + Z.of_nat n → is_Some (line k')) →
  scan_line line first k n =
  Some (bool_decide (Forall (λ k', line k' = Some first) (seqZ k (Z.of_nat n)))).
Proof.
  revert k. induction n as [|n IH]; intros k Hdef.
  - reflexivity.
  - rewrite seqZ_cons by lia. simpl scan_line.
    destruct (Hdef k) as [c Hc]; [lia|]. rewrite Hc. simpl.
    replace (Z.pred (Z.of_nat (S n))) with (Z.of_nat n) by lia.
    case_decide as Hne.
    + rewrite bool_decide_eq_false_2; [done|].
      intros HF. apply Forall_cons in HF as [HF _]. congruence.
    + subst c.
      rewrite IH by (intros k' Hk'; apply Hdef; lia).
      f_equal. apply bool_decide_ext. unfold Z.succ. rewrite Forall_cons. tauto.
Qed.

Lemma check_line_spec b (pos : Z → Z * Z) size :
  1 ≤ size →
  (∀ k, 0 ≤ k < size → is_Some (cell b (pos k).1 (pos k).2)) →
  check_line (λ k, cell b (pos k).1 (pos k).2) size =
  Some (line_symbol b (pos <$> seqZ 0 size)).
Proof.
  intros Hsize Hdef. unfold check_line.
  rewrite (seqZ_cons 0 size) by lia. simpl.
  destruct (Hdef 0) as [c0 Hc0]; [lia|]. rewrite Hc0. simpl.
  case_decide as Hne; [|done].
  rewrite scan_line_spec by (intros k' Hk'; apply Hdef; lia). simpl.
  replace (Z.of_nat (Z.to_nat (size - 1))) with (Z.pred size) by lia.
  f_equal. unfold Z.succ. simpl.
  case_bool_decide as HF; case_decide as HF'; try done.
  - destruct HF'. by apply Forall_fmap.
  - destruct HF. by apply Forall_fmap in HF'.
Qed.

Lemma scan_lines_spec b (pos : Z → Z → Z * Z) size n i :
  1 ≤ size →
  (∀ i' k, i ≤ i' < i + Z.of_nat n → 0 ≤ k < size →
           is_Some (cell b (pos i' k).1 (pos i' k).2)) →
  scan_lines (λ i' k, cell b (pos i' k).1 (pos i' k).2) size i n =
  Some (head (omap (line_symbol b)
                ((λ i', pos i' <$> seqZ 0 size) <$> seqZ i (Z.of_nat n)))).
Proof.
  intros Hsize. revert i. induction n as [|n IH]; intros i Hdef; [done|].
  rewrite (seqZ_cons i) by lia. simpl scan_lines.
  rewrite (check_line_spec b (pos i)) by (try done; intros; apply Hdef; lia).
  simpl. destruct (line_symbol b (pos i <$> seqZ 0 size)) as [w|]; [done|].
  rewrite IH by (intros; apply Hdef; lia).
  by replace (Z.pred (Z.of_nat (S n))) with (Z.of_nat n) by lia.
Qed.

Lemma head_omap_app {A B} (f : A → option B) l1 l2 :
  head (omap f (l1 ++ l2)) =
  match head (omap f l1) with Some x => Some x | None => head (omap f l2) end.
Proof.
  rewrite omap_app. by destruct (omap f l1).
Qed.

(** The scans of [checkWinner] return the symbol of the first full line in
    the order rows, columns, main diagonal, anti-diagonal, and the empty
    string when no line is full. *)
Lemma checkWinner_spec m :
  1 ≤ Size m → board_ok (Size m) (Board m) →
  checkWinner m = Some (default "" (spec_winner (Board m) (Size m))).
Proof.
  intros Hsize Hb. unfold checkWinner, spec_winner, all_lines.
  rewrite !head_omap_app.
  change (scan_lines (λ i j, cell (Board m) i j)) with
    (scan_lines (λ i j, cell (Board m) ((λ i j, (i, j)) i j).1 ((λ i j, (i, j)) i j).2)).
  rewrite scan_lines_spec
    by first [done | intros; eapply cell_is_Some; [done|simpl; lia..]].
  rewrite Z2Nat.id by lia. simpl mbind. unfold row_line.
  destruct (head (omap _ ((λ i, (λ j, (i, j)) <$> _) <$> _))) as [w|]; [done|].
  change (scan_lines (λ j i, cell (Board m) i j)) with
    (scan_lines (λ j i, cell (Board m) ((λ j i, (i, j)) j i).1 ((λ j i, (i, j)) j i).2)).
  rewrite scan_lines_spec
    by first [done | intros; eapply cell_is_Some; [done|simpl; lia..]].
  rewrite Z2Nat.id by lia. simpl mbind. unfold col_line.
  destruct (head (omap _ ((λ j, (λ i, (i, j)) <$> _) <$> _))) as [w|]; [done|].
  change (check_line (λ i, cell (Board m) i i)) with
    (check_line (λ i, cell (Board m) ((λ i, (i, i)) i).1 ((λ i, (i, i)) i).2)).
  rewrite check_line_spec
    by first [done | intros; eapply cell_is_Some; [done|simpl; lia..]].
  simpl. unfold diag_line.
  destruct (line_symbol _ ((λ i, (i, i)) <$> _)) as [w|]; [done|].
  change (check_line (λ i, cell (Board m) i (Size m - 1 - i))) with
    (check_line (λ i, cell (Board m) ((λ i, (i, Size m - 1 - i)) i).1
                                     ((λ i, (i, Size m - 1 - i)) i).2)).
  rewrite check_line_spec
    by first [done | intros; eapply cell_is_Some; [done|simpl; lia..]].
  simpl. unfold anti_line.
  by destruct (line_symbol _ _) as [w|].
Qed.

Lemma line_symbol_Some b l t :
  line_symbol b l = Some t ↔
  l ≠ [] ∧ t ≠ Empty ∧ Forall (λ q, cell b q.1 q.2 = Some t) l.
Proof.
  destruct l as [|p rest]; simpl.
  - split; [done|]. by intros [? _].
  - destruct (cell b p.1 p.2) as [c0|] eqn:Hc0; simpl.
    + rewrite Forall_cons, Hc0. repeat case_decide; intuition (simplify_eq; done).
    + rewrite Forall_cons, Hc0. intuition (simplify_eq; done).
Qed.

Lemma spec_winner_Some b size w :
  spec_winner b size = Some w →
  ∃ l, l ∈ all_lines size ∧ line_symbol b l = Some w.
Proof.
  unfold spec_winner. intros Hh. apply head_Some_elem_of in Hh.
  apply list_elem_of_omap in Hh. done.
Qed.

Lemma spec_winner_None b size l :
  spec_winner b size = None → l ∈ all_lines size → line_symbol b l = None.
Proof.
  unfold spec_winner. intros Hh Hl. apply head_None in Hh.
  destruct (line_symbol b l) as [w|] eqn:Hw; [|done].
  assert (w ∈ omap (line_symbol b) (all_lines size)) as Hin
    by (apply list_elem_of_omap; eauto).
  rewrite Hh in Hin. by apply elem_of_nil in Hin.
Qed.

(** "First match found wins": the result is the symbol of the full line of
    least index in [all_lines]. *)
Lemma spec_winner_first b size w :
  spec_winner b size = Some w ↔
  ∃ k l, all_lines size !! k = Some l ∧ line_symbol b l = Some w ∧
         ∀ k' l', (k' < k)%nat → all_lines size !! k' = Some l' →
                  line_symbol b l' = None.
Proof.
  unfold spec_winner. generalize (all_lines size). intros ls.
  induction ls as [|l0 ls IH]; simpl.
  - split; [done|]. by intros (k & l & Hk & _).
  - destruct (line_symbol b l0) as [w0|] eqn:Hl0; simpl.
    + split.
      * intros [= ->]. exists 0%nat, l0. repeat split; [done|]. intros; lia.
      * intros (k & l & Hk & Hl & Hfirst). destruct k as [|k].
        { simpl in Hk. congruence. }
        specialize (Hfirst 0%nat l0). rewrite Hfirst in Hl0; [done|lia|done].
    + rewrite IH. split.
      * intros (k & l & Hk & Hl & Hfirst). exists (S k), l. repeat split; [done..|].
        intros [|k'] l' Hlt Hk'; simpl in Hk'; [congruence|].
        apply (Hfirst k'); [lia|done].
      * intros (k & l & Hk & Hl & Hfirst). destruct k as [|k].
        { simpl in Hk. congruence. }
        exists k, l. repeat split; [done..|].
        intros k' l' Hlt Hk'. apply (Hfirst (S k')); [lia|done].
Qed.

(** *** [handleMove] case by case *)

Section HandlerFacts.

Variable range_players : gmap string string → list (string * string).
Hypothesis range_players_perm : ∀ p, range_players p ≡ₚ map_to_list p.

Abbreviation handleMove := (handleMove range_players).
Abbreviation updateLeaderboard := (updateLeaderboard range_players).

Lemma handleMove_rejected m message reason :
  rejected m message reason →
  handleMove m message = Some (m, sendError reason).
Proof.
  unfold Match.handleMove.
  destruct 1 as [Hs|Hs Hd|d Hs Hd Hc|d Hs Hd Hc Hp|d s Hs Hd Hc Hp Ht
                 |d c Hs Hd Hc Hp Hcell Hocc].
  - by rewrite decide_True.
  - rewrite decide_False by (by intros []). by rewrite Hd.
  - rewrite decide_False by (by intros []). rewrite Hd.
    rewrite decide_True by lia. done.
  - rewrite decide_False by (by intros []). rewrite Hd.
    rewrite decide_False by lia. by rewrite Hp.
  - rewrite decide_False by (by intros []). rewrite Hd.
    rewrite decide_False by lia. rewrite Hp. by rewrite decide_True.
  - rewrite decide_False by (by intros []). rewrite Hd.
    rewrite decide_False by lia. rewrite Hp.
    rewrite decide_False by (by intros []). rewrite Hcell. simpl.
    by rewrite decide_True.
Qed.

Abbreviation commit_outcome := (commit_outcome range_players).

Lemma handleMove_valid m message d :
  valid_move m message d →
  handleMove m message =
  w ← checkWinner (after_move m d);
  Some (if decide (w ≠ "") then
          let m2 := set_State GameStateFinished (set_Winner w (after_move m d)) in
          (m2, updateLeaderboard m2 ++ [state_broadcast m2])
        else if decide (MoveCount (after_move m d) >=
                        wrap_int (Size (after_move m d) * Size (after_move m d))) then
          let m2 := set_State GameStateFinished (after_move m d) in
          (m2, updateLeaderboard m2 ++ [state_broadcast m2])
        else
          let m2 := set_Turn (other_symbol (Turn (after_move m d))) (after_move m d) in
          (m2, [state_broadcast m2])).
Proof.
  intros (Hs & Hd & Hr & Hc & Hp & Hcell). unfold Match.handleMove.
  rewrite decide_False by (by intros []). rewrite Hd.
  rewrite decide_False by lia. rewrite Hp.
  rewrite decide_False by (by intros []). rewrite Hcell. simpl.
  unfold after_move, other_symbol, state_broadcast, stateData.
  destruct (checkWinner _) as [w|]; [|done]. simpl.
  repeat case_decide; done.
Qed.

Lemma handleMove_inv m message m' effs :
  handleMove m message = Some (m', effs) →
  (∃ reason, rejected m message reason ∧ m' = m ∧ effs = sendError reason)
  ∨ (∃ d w, valid_move m message d ∧ checkWinner (after_move m d) = Some w ∧
            commit_outcome m d w m' effs).
Proof.
  intros Hh.
  destruct (decide (State m ≠ GameStatePlaying)) as [Hs|Hs].
  { left. eexists. split; [by apply rej_phase|].
    rewrite (handleMove_rejected _ _ _ (rej_phase m message Hs)) in Hh.
    by injection Hh as <- <-. }
  apply dec_stable in Hs.
  destruct (Data message) as [d|] eqn:Hd; cycle 1.
  { left. pose proof (rej_data m message Hs Hd) as Hrej.
    rewrite (handleMove_rejected _ _ _ Hrej) in Hh.
    injection Hh as <- <-. eauto. }
  destruct (decide (0 ≤ Row d < Size m ∧ 0 ≤ Col d < Size m)) as [Hc|Hc]; cycle 1.
  { left. pose proof (rej_coordinates m message d Hs Hd Hc) as Hrej.
    rewrite (handleMove_rejected _ _ _ Hrej) in Hh.
    injection Hh as <- <-. eauto. }
  destruct (Players m !! UserId message) as [s|] eqn:Hp; cycle 1.
  { left. pose proof (rej_player m message d Hs Hd Hc Hp) as Hrej.
    rewrite (handleMove_rejected _ _ _ Hrej) in Hh.
    injection Hh as <- <-. eauto. }
  destruct (decide (s = Turn m)) as [->|Ht]; cycle 1.
  { left. pose proof (rej_turn m message d s Hs Hd Hc Hp Ht) as Hrej.
    rewrite (handleMove_rejected _ _ _ Hrej) in Hh.
    injection Hh as <- <-. eauto. }
  destruct (cell (Board m) (Row d) (Col d)) as [c|] eqn:Hcell; cycle 1.
  { exfalso. revert Hh. unfold Match.handleMove.
    rewrite decide_False by (by intros []). rewrite Hd.
    rewrite decide_False by lia. rewrite Hp.
    rewrite decide_False by (by intros []). by rewrite Hcell. }
  destruct (decide (c = Empty)) as [->|Hocc]; cycle 1.
  { left. pose proof (rej_occupied m message d c Hs Hd Hc Hp Hcell Hocc) as Hrej.
    rewrite (handleMove_rejected _ _ _ Hrej) in Hh.
    injection Hh as <- <-. eauto. }
  right. assert (valid_move m message d) as Hv by (by destruct Hc).
  rewrite (handleMove_valid _ _ _ Hv) in Hh.
  destruct (checkWinner (after_move m d)) as [w|] eqn:Hw; [|done].
  simpl in Hh. exists d, w. split; [done|]. split; [done|].
  unfold commit_outcome. repeat case_decide; simplify_eq/=.
  - left. done.
  - right; left. done.
  - right; right. repeat split; first [done|lia].
Qed.

(** *** The invariant *)

Lemma checkWinner_ext m m' :
  Size m' = Size m → Board m' = Board m → checkWinner m' = checkWinner m.
Proof. unfold checkWinner. by intros -> ->. Qed.

Lemma wf_MatchInit modeParam now : wf (MatchInit modeParam now).
Proof.
  unfold MatchInit.
  destruct (decide (_ = GameModeAdvanced)) as [Hm|Hm];
    split; simpl; try done; auto; try (split; [lia|done]).
  all: split; [reflexivity|repeat constructor].
Qed.

Lemma wf_size_pos m : wf m → 1 ≤ Size m.
Proof. intros [[?|?]]; lia. Qed.

Lemma wf_turn_nonempty m : wf m → Turn m ≠ Empty.
Proof. intros Hwf. by destruct (wf_turn m Hwf) as [-> | ->]. Qed.

(** What the two assignments of an accepted move do to a state of the
    invariant. *)
Lemma after_move_facts m message d :
  wf m → valid_move m message d →
  MoveCount (after_move m d) = MoveCount m + 1
  ∧ wrap_int (Size m * Size m) = Size m * Size m
  ∧ board_ok (Size m) (Board (after_move m d))
  ∧ MoveCount (after_move m d) = Z.of_nat (filled (Board (after_move m d)))
  ∧ MoveCount m + 1 ≤ Size m * Size m
  ∧ Winner m = "" ∧ size (Players m) = 2%nat.
Proof.
  intros Hwf (Hs & Hd & Hr & Hc & Hp & Hcell).
  destruct (wf_playing m Hwf Hs) as [Hcount Hsize].
  pose proof (wf_count m Hwf) as Hfilled.
  assert (Size m * Size m ≤ 25) as Hbound
    by (destruct (wf_size m Hwf) as [-> | ->]; lia).
  assert (wrap_int (MoveCount m + 1) = MoveCount m + 1) as Hwrap
    by (apply wrap_int_small; lia).
  simpl. rewrite Hwrap. repeat split.
  - apply wrap_int_small. destruct (wf_size m Hwf) as [-> | ->]; lia.
  - apply board_ok_set_cell, (wf_board m Hwf).
  - apply board_ok_set_cell, (wf_board m Hwf).
  - rewrite filled_set_cell by (done || by apply wf_turn_nonempty). lia.
  - lia.
  - apply (wf_unfinished m Hwf). by rewrite Hs.
  - done.
Qed.

Lemma checkWinner_after_move m message d :
  wf m → valid_move m message d →
  checkWinner (after_move m d) =
  Some (default "" (spec_winner (Board (after_move m d)) (Size m))).
Proof.
  intros Hwf Hv.
  destruct (after_move_facts m message d Hwf Hv) as (_ & _ & Hb & _).
  rewrite checkWinner_spec; [done|apply (wf_size_pos m Hwf)|done].
Qed.

Lemma handleMove_total m message : wf m → is_Some (handleMove m message).
Proof.
  intros Hwf.
  destruct (decide (State m ≠ GameStatePlaying)) as [Hs|Hs].
  { rewrite (handleMove_rejected _ _ _ (rej_phase _ _ Hs)). eauto. }
  apply dec_stable in Hs.
  destruct (Data message) as [d|] eqn:Hd; cycle 1.
  { rewrite (handleMove_rejected _ _ _ (rej_data _ _ Hs Hd)). eauto. }
  destruct (decide (0 ≤ Row d < Size m ∧ 0 ≤ Col d < Size m)) as [Hc|Hc]; cycle 1.
  { rewrite (handleMove_rejected _ _ _ (rej_coordinates _ _ d Hs Hd Hc)). eauto. }
  destruct (Players m !! UserId message) as [s|] eqn:Hp; cycle 1.
  { rewrite (handleMove_rejected _ _ _ (rej_player _ _ d Hs Hd Hc Hp)). eauto. }
  destruct (decide (s = Turn m)) as [->|Ht]; cycle 1.
  { rewrite (handleMove_rejected _ _ _ (rej_turn _ _ d s Hs Hd Hc Hp Ht)). eauto. }
  destruct (cell_is_Some (Size m) (Board m) (Row d) (Col d)) as [c Hcell];
    [apply (wf_board m Hwf)|lia..|].
  destruct (decide (c = Empty)) as [->|Hocc]; cycle 1.
  { rewrite (handleMove_rejected _ _ _ (rej_occupied _ _ d c Hs Hd Hc Hp Hcell Hocc)).
    eauto. }
  assert (valid_move m message d) as Hv by (by destruct Hc).
  rewrite (handleMove_valid _ _ _ Hv).
  rewrite (checkWinner_after_move m message d Hwf Hv). simpl. eauto.
Qed.

Lemma handleMove_wf m message m' effs :
  wf m → handleMove m message = Some (m', effs) → wf m'.
Proof.
  intros Hwf Hh.
  apply handleMove_inv in Hh as [(reason & _ & -> & _)|(d & w & Hv & Hw & Hout)];
    [done|].
  destruct (after_move_facts m message d Hwf Hv)
    as (Hcount & Hwrap & Hb & Hfilled & Hle & Hwin & Hsize).
  assert (checkWinner m' = Some w) as Hw'.
  { rewrite <- Hw. destruct Hout as [(_ & -> & _)|[(_ & _ & -> & _)|(_ & _ & -> & _)]];
      by apply checkWinner_ext. }
  destruct Hv as (Hs & _).
  unfold commit_outcome in Hout. simpl in Hout. rewrite Hwrap in Hout.
  destruct Hout as [(Hne & -> & _)|[(-> & Hge & -> & _)|(-> & Hlt & -> & _)]].
  - split; simpl; try done; try (by apply Hwf); auto.
  - split; simpl; try done; try (by apply Hwf); auto. by rewrite Hwin.
  - split; simpl; try done; try (by apply Hwf); auto.
    + unfold other_symbol. case_decide; auto.
    + by rewrite Hwin.
    + rewrite Hs. done.
Qed.

Lemma MatchLoop_total m messages :
  wf m → is_Some (MatchLoop range_players m messages).
Proof.
  revert m. induction messages as [|message rest IH]; intros m Hwf; simpl; [eauto|].
  case_decide; [|by apply IH].
  destruct (handleMove_total m message Hwf) as [[m1 e1] H1]. rewrite H1. simpl.
  destruct (IH m1) as [[m2 e2] H2]; [by eapply handleMove_wf|].
  rewrite H2. simpl. eauto.
Qed.

Lemma MatchLoop_wf m messages m' effs :
  wf m → MatchLoop range_players m messages = Some (m', effs) → wf m'.
Proof.
  revert m effs. induction messages as [|message rest IH]; intros m effs Hwf; simpl.
  - by intros [= <- <-].
  - case_decide; [|by apply IH].
    destruct (handleMove m message) as [[m1 e1]|] eqn:H1; simpl; [|done].
    destruct (MatchLoop range_players m1 rest) as [[m2 e2]|] eqn:H2; simpl; [|done].
    intros [= <- <-]. eapply IH; [|done]. by eapply handleMove_wf.
Qed.

End HandlerFacts.

Lemma foldl_delete_lookup (p : gmap string string) us k :
  foldl (λ p u, delete u p) p us !! k = if decide (k ∈ us) then None else p !! k.
Proof.
  revert p. induction us as [|u us IH]; intros p.
  - case_decide as H; [by apply elem_of_nil in H|done].
  - simpl. rewrite IH, lookup_delete.
    repeat case_decide; try done; subst;
      rewrite elem_of_cons in *; intuition congruence.
Qed.

Lemma foldl_delete_size (p : gmap string string) us :
  (size (foldl (λ p u, delete u p) p us) ≤ size p)%nat.
Proof.
  apply map_subseteq_size, map_subseteq_spec. intros k v.
  rewrite foldl_delete_lookup. by case_decide.
Qed.

Lemma MatchJoinAttempt_wf m userId : wf m → wf (MatchJoinAttempt m userId).1.1.
Proof.
  intros Hwf. unfold MatchJoinAttempt.
  case_decide as Hfull; [done|]. case_decide as Hfin; [done|].
  assert (State m = GameStateWaiting) as Hs.
  { destruct (wf_state m Hwf) as [?|[Hp|?]]; [done| |done].
    destruct (wf_playing m Hwf Hp) as [_ ?]. lia. }
  destruct (wf_waiting m Hwf Hs) as [_ Hzero].
  assert (∀ u s sym, sym = PlayerX ∨ sym = PlayerO →
            <[userId := sym]> (Players m) !! u = Some s →
            s = PlayerX ∨ s = PlayerO) as Hplayers.
  { intros u s sym Hsym. rewrite lookup_insert. case_decide.
    - by intros [= <-].
    - apply (wf_players m Hwf). }
  assert (∀ sym, (size (<[userId := sym]> (Players m)) ≤ 2)%nat) as Hle.
  { intros sym. destruct (Players m !! userId) as [s|] eqn:Hu.
    - rewrite map_size_insert_Some by (by rewrite Hu). lia.
    - rewrite map_size_insert_None by done. lia. }
  assert (Size m * Size m > 0) by (destruct (wf_size m Hwf) as [-> | ->]; lia).
  simpl.
  set (sym := if decide (size (Players m) = 1%nat) then PlayerO else PlayerX).
  assert (sym = PlayerX ∨ sym = PlayerO) as Hsym
    by (unfold sym; case_decide; auto).
  specialize (Hle sym).
  pose proof (wf_unfinished m Hwf Hfin) as Hwin.
  case_decide as H2; split; simpl;
    [apply Hwf|apply Hwf|apply Hwf|eauto|apply Hwf|apply Hwf|auto|done
    |intros _; split; [lia|done]|done
    |apply Hwf|apply Hwf|apply Hwf|eauto|apply Hwf|apply Hwf|apply Hwf
    |intros _; split; [lia|done]|rewrite Hs; done|done].
Qed.

Lemma MatchLeave_wf m presences : wf m → wf (MatchLeave m presences).
Proof.
  intros Hwf. unfold MatchLeave. simpl.
  assert (∀ u s, foldl (λ p userId, delete userId p) (Players m) presences !! u
                 = Some s → s = PlayerX ∨ s = PlayerO) as Hplayers.
  { intros u s. rewrite foldl_delete_lookup. case_decide; [done|].
    apply (wf_players m Hwf). }
  pose proof (foldl_delete_size (Players m) presences) as Hle.
  case_decide as Hs; split; simpl;
    [apply Hwf|apply Hwf|apply Hwf|done|apply Hwf|apply Hwf|auto|done|done|done
    |apply Hwf|apply Hwf|apply Hwf|done|apply Hwf|apply Hwf|apply Hwf
    | |done|apply Hwf].
  intros Hw. destruct (wf_waiting m Hwf Hw). split; [lia|done].
Qed.

Section RunFacts.

Variable range_players : gmap string string → list (string * string).
Hypothesis range_players_perm : ∀ p, range_players p ≡ₚ map_to_list p.

Lemma step_total m c : wf m → is_Some (step range_players m c).
Proof.
  intros Hwf. destruct c; simpl; eauto. by apply MatchLoop_total.
Qed.

Lemma step_wf m c m' effs :
  wf m → step range_players m c = Some (m', effs) → wf m'.
Proof.
  intros Hwf. destruct c; simpl.
  - intros [= <- <-]. by apply MatchJoinAttempt_wf.
  - by intros [= <- <-].
  - intros [= <- <-]. by apply MatchLeave_wf.
  - by apply MatchLoop_wf.
  - unfold MatchTerminate. case_decide; by intros [= <- <-].
  - by intros [= <- <-].
Qed.

Lemma run_total m cs : wf m → is_Some (run range_players m cs).
Proof.
  revert m. induction cs as [|c cs IH]; intros m Hwf; simpl; [eauto|].
  destruct (step_total m c Hwf) as [[m1 e1] H1]. rewrite H1. simpl.
  destruct (IH m1) as [[m2 e2] H2]; [by eapply step_wf|].
  rewrite H2. simpl. eauto.
Qed.

Lemma run_wf m cs m' effs :
  wf m → run range_players m cs = Some (m', effs) → wf m'.
Proof.
  revert m effs. induction cs as [|c cs IH]; intros m effs Hwf; simpl.
  - by intros [= <- <-].
  - destruct (step range_players m c) as [[m1 e1]|] eqn:H1; simpl; [|done].
    destruct (run range_players m1 cs) as [[m2 e2]|] eqn:H2; simpl; [|done].
    intros [= <- <-]. eapply IH; [|done]. by eapply step_wf.
Qed.

(** Every state a match can be in satisfies the invariant, and the handler
    never panics on the way. *)
Lemma reachable_wf modeParam now cs :
  ∃ m effs, run range_players (MatchInit modeParam now) cs = Some (m, effs) ∧ wf m.
Proof.
  destruct (run_total (MatchInit modeParam now) cs (wf_MatchInit _ _))
    as [[m effs] Hrun].
  exists m, effs. split; [done|]. eapply run_wf; [apply wf_MatchInit|done].
Qed.

(** *** Reports to the scoring collaborator *)

Lemma reports_for_app u e1 e2 :
  reports_for u (e1 ++ e2) = reports_for u e1 ++ reports_for u e2.
Proof. apply List.filter_app. Qed.

Lemma reports_for_report u w k v :
  reports_for u (report w (k, v)) = if decide (k = u) then report w (k, v) else [].
Proof.
  unfold report, reports_for.
  repeat case_decide; simpl;
    rewrite ?bool_decide_eq_true_2, ?bool_decide_eq_false_2 by done; done.
Qed.

Lemma reports_for_absent u w (l : list (string * string)) :
  u ∉ l.*1 → reports_for u (flat_map (report w) l) = [].
Proof.
  induction l as [|[k v] l IH]; [done|]. intros Hu.
  apply not_elem_of_cons in Hu as [Hne Hu].
  change (flat_map (report w) ((k, v) :: l))
    with (report w (k, v) ++ flat_map (report w) l).
  rewrite reports_for_app, reports_for_report, IH by done.
  by rewrite decide_False by done.
Qed.

Lemma reports_for_present u s w (l : list (string * string)) :
  NoDup l.*1 → (u, s) ∈ l →
  reports_for u (flat_map (report w) l) = report w (u, s).
Proof.
  induction l as [|[k v] l IH]; intros Hnd Hin; [by apply elem_of_nil in Hin|].
  apply NoDup_cons in Hnd as [Hk Hnd].
  change (flat_map (report w) ((k, v) :: l))
    with (report w (k, v) ++ flat_map (report w) l).
  rewrite reports_for_app, reports_for_report.
  apply elem_of_cons in Hin as [[= <- <-]|Hin].
  - rewrite decide_True by done. rewrite reports_for_absent by done.
    by rewrite app_nil_r.
  - rewrite decide_False.
    + by rewrite IH.
    + intros ->. apply Hk. apply list_elem_of_fmap. by exists (u, s).
Qed.

Lemma reports_for_updateLeaderboard m u :
  reports_for u (updateLeaderboard range_players m) =
  match Players m !! u with
  | Some s => report (Winner m) (u, s)
  | None => []
  end.
Proof.
  unfold updateLeaderboard.
  pose proof (range_players_perm (Players m)) as Hperm.
  destruct (Players m !! u) as [s|] eqn:Hu.
  - apply reports_for_present.
    + rewrite Hperm. apply NoDup_fst_map_to_list.
    + rewrite Hperm. by apply elem_of_map_to_list.
  - apply reports_for_absent. rewrite Hperm.
    intros ([k v] & -> & Hin)%list_elem_of_fmap.
    apply elem_of_map_to_list in Hin. simpl in *. congruence.
Qed.

Lemma reports_for_sendError u reason : reports_for u (sendError reason) = [].
Proof. done. Qed.

Lemma reports_for_MatchJoin u m presences :
  reports_for u (MatchJoin m presences).2 = [].
Proof.
  unfold MatchJoin. simpl. rewrite reports_for_app. simpl.
  rewrite app_nil_r. induction presences as [|p ps IH]; [done|]. apply IH.
Qed.

(** A map of two entries has two distinct keys and no other. *)
Lemma map_size_2_keys (p : gmap string string) :
  size p = 2%nat →
  ∃ a b, a ≠ b ∧ ∀ u, is_Some (p !! u) ↔ u = a ∨ u = b.
Proof.
  intros Hsize.
  destruct (map_size_ne_0_lookup_1 p) as (a & sa & Ha); [lia|].
  assert (size (delete a p) = 1%nat) as H1
    by (rewrite map_size_delete_Some by eauto; lia).
  destruct (map_size_ne_0_lookup_1 (delete a p)) as (b & sb & Hb); [lia|].
  assert (a ≠ b) as Hab by (intros ->; by rewrite lookup_delete_eq in Hb).
  assert (delete b (delete a p) = ∅) as Hempty.
  { apply map_size_empty_inv. rewrite map_size_delete_Some by eauto. lia. }
  exists a, b. split; [done|]. intros u. split.
  - intros Hu. destruct (decide (u = a)) as [|Hua]; [auto|].
    destruct (decide (u = b)) as [|Hub]; [auto|]. exfalso.
    assert (delete b (delete a p) !! u = p !! u) as Heq
      by (by rewrite !lookup_delete_ne).
    rewrite Hempty, lookup_empty in Heq. rewrite <- Heq in Hu. by destruct Hu.
  - intros [-> | ->]; [eauto|]. rewrite lookup_delete_ne in Hb by done. eauto.
Qed.

Lemma report_draw u s :
  s = PlayerX ∨ s = PlayerO → report "" (u, s) = draw_report u.
Proof. by intros [-> | ->]. Qed.

(** *** Histories *)

Lemma history_ok_silent m effs e :
  (∀ u, reports_for u e = []) → history_ok m effs → history_ok m (effs ++ e).
Proof.
  intros He [Hopen Hdone]. split.
  - intros Hs u. rewrite reports_for_app, He, app_nil_r. by apply Hopen.
  - intros Hs Hw. destruct (Hdone Hs Hw) as [[Hlt Hno]|(Heq & a & b & [Hab Hd] & Hp)].
    + left. split; [done|]. intros u. rewrite reports_for_app, He, app_nil_r.
      apply Hno.
    + right. split; [done|]. exists a, b. split; [|done]. split; [done|].
      intros u. rewrite reports_for_app, He, app_nil_r. apply Hd.
Qed.

Lemma handleMove_history m message m1 e1 effs :
  wf m → history_ok m effs →
  handleMove range_players m message = Some (m1, e1) →
  history_ok m1 (effs ++ e1).
Proof.
  intros Hwf Hhist Hh.
  apply handleMove_inv in Hh as [(reason & _ & -> & ->)|(d & w & Hv & Hw & Hout)].
  { by apply history_ok_silent. }
  destruct (after_move_facts m message d Hwf Hv)
    as (Hcount & Hwrap & Hb & Hfilled & Hle & Hwin & Hsize).
  destruct Hv as (Hs & _).
  assert (no_reports effs) as Hno by (apply Hhist; by rewrite Hs).
  unfold commit_outcome in Hout. simpl in Hout, Hcount. rewrite Hwrap in Hout.
  destruct Hout as [(Hne & -> & ->)|[(-> & Hge & -> & ->)|(-> & Hlt & -> & ->)]].
  - split; simpl; [done|]. intros _ Hw'. done.
  - split; simpl; [done|]. intros _ _. right.
    unfold after_move in Hge. simpl in Hge. split; [lia|].
    destruct (map_size_2_keys (Players m) Hsize) as (a & b & Hab & Hkeys).
    exists a, b. split; [|intros u; apply Hkeys]. split; [done|]. intros u.
    rewrite !reports_for_app, Hno, reports_for_updateLeaderboard.
    cbn -[report]. rewrite app_nil_r, Hwin.
    destruct (Players m !! u) as [s|] eqn:Hu.
    + rewrite decide_True by (apply Hkeys; eauto).
      apply report_draw. by apply (wf_players m Hwf u).
    + rewrite decide_False; [done|]. intros Hk%Hkeys. rewrite Hu in Hk.
      by destruct Hk.
  - split; simpl; [|by rewrite Hs]. intros _ u.
    rewrite reports_for_app, Hno. done.
Qed.

Lemma MatchLoop_history m messages m1 e1 effs :
  wf m → history_ok m effs →
  MatchLoop range_players m messages = Some (m1, e1) →
  history_ok m1 (effs ++ e1).
Proof.
  revert m e1 effs.
  induction messages as [|message rest IH]; intros m e1 effs Hwf Hhist; simpl.
  - intros [= <- <-]. by rewrite app_nil_r.
  - case_decide; [|by apply IH].
    destruct (handleMove range_players m message) as [[m2 e2]|] eqn:H2; simpl; [|done].
    destruct (MatchLoop range_players m2 rest) as [[m3 e3]|] eqn:H3; simpl; [|done].
    intros [= <- <-]. rewrite app_assoc. eapply IH; [|by eapply handleMove_history|done].
    by eapply (handleMove_wf range_players).
Qed.

Lemma step_history m c m1 e1 effs :
  wf m → history_ok m effs →
  step range_players m c = Some (m1, e1) →
  history_ok m1 (effs ++ e1).
Proof.
  intros Hwf Hhist. destruct c as [userId|presences|presences|messages|g|data]; simpl.
  - intros [= <- <-]. rewrite app_nil_r. unfold MatchJoinAttempt.
    case_decide; [done|]. case_decide as Hfin; [done|]. simpl.
    destruct Hhist as [Hopen _]. case_decide; (split; simpl; [auto|done]).
  - intros [= <- <-]. apply history_ok_silent; [|done].
    intros u. apply reports_for_MatchJoin.
  - intros [= <- <-]. rewrite app_nil_r. unfold MatchLeave. simpl.
    destruct Hhist as [Hopen Hdone]. case_decide as Hs.
    + split; simpl; [done|]. intros _ _. left.
      split; [by apply (wf_playing m Hwf)|]. apply Hopen. by rewrite Hs.
    + split; simpl; [done|]. intros Hf Hw.
      destruct (Hdone Hf Hw) as [?|(Heq & a & b & Hd & Hp)]; [by left|].
      right. split; [done|]. exists a, b. split; [done|].
      intros u [s Hu]. apply Hp. rewrite foldl_delete_lookup in Hu.
      case_decide; [done|]. eauto.
  - by apply MatchLoop_history.
  - unfold MatchTerminate. case_decide as Hfin; intros [= <- <-].
    + destruct Hfin as [Hf Hw]. split; done.
    + by rewrite app_nil_r.
  - intros [= <- <-]. by rewrite app_nil_r.
Qed.

Lemma run_history m cs m1 e1 effs :
  wf m → history_ok m effs →
  run range_players m cs = Some (m1, e1) →
  history_ok m1 (effs ++ e1).
Proof.
  revert m e1 effs. induction cs as [|c cs IH]; intros m e1 effs Hwf Hhist; simpl.
  - intros [= <- <-]. by rewrite app_nil_r.
  - destruct (step range_players m c) as [[m2 e2]|] eqn:H2; simpl; [|done].
    destruct (run range_players m2 cs) as [[m3 e3]|] eqn:H3; simpl; [|done].
    intros [= <- <-]. rewrite app_assoc. eapply IH; [|by eapply step_history|done].
    by eapply step_wf.
Qed.

(** *** Accepted moves *)

Lemma no_line_before_finish m l :
  wf m → State m ≠ GameStateFinished →
  l ∈ all_lines (Size m) → line_symbol (Board m) l = None.
Proof.
  intros Hwf Hs Hl. apply (spec_winner_None _ (Size m)); [|done].
  pose proof (wf_winner m Hwf) as Hw.
  rewrite checkWinner_spec in Hw by (apply wf_size_pos || apply wf_board; done).
  rewrite (wf_unfinished m Hwf Hs) in Hw.
  destruct (spec_winner (Board m) (Size m)) as [x|] eqn:Hx; [|done].
  apply spec_winner_Some in Hx as (l' & _ & (_ & Hne & _)%line_symbol_Some).
  simpl in Hw. injection Hw as Hw. by destruct Hne.
Qed.

(** A line that is full right after a move holds the mover's symbol. *)
Lemma line_after_move m message d l t :
  wf m → valid_move m message d →
  l ∈ all_lines (Size m) →
  line_symbol (Board (after_move m d)) l = Some t → t = Turn m.
Proof.
  intros Hwf Hv Hl Ht. pose proof Hv as (Hs & _ & Hr & Hc & _ & Hcell).
  apply line_symbol_Some in Ht as (Hnil & Hne & Hall).
  assert (∀ q, cell (Board (after_move m d)) q.1 q.2 =
               if decide (q.1 = Row d ∧ q.2 = Col d) then Some (Turn m)
               else cell (Board m) q.1 q.2) as Hset.
  { intros q. simpl. apply cell_set_cell; [lia|lia|by rewrite Hcell]. }
  destruct (decide ((Row d, Col d) ∈ l)) as [Hin|Hout].
  - rewrite Forall_forall in Hall. specialize (Hall _ Hin).
    rewrite Hset, decide_True in Hall by done. congruence.
  - exfalso.
    assert (line_symbol (Board m) l = Some t) as Hold.
    { apply line_symbol_Some. repeat split; [done..|].
      rewrite Forall_forall in Hall |- *. intros q Hq.
      specialize (Hall q Hq). rewrite Hset in Hall.
      rewrite decide_False in Hall; [done|].
      intros [? ?]. apply Hout. by destruct q; simplify_eq/=. }
    rewrite (no_line_before_finish m l) in Hold; [done..|by rewrite Hs|done].
Qed.

(** C2. A move in bounds on an empty cell by the player on turn, in the
    playing phase, is accepted: [handleMove] returns; the board becomes the
    old board with the mover's symbol (the symbol on turn) written at the
    target cell, so exactly that cell changes; [MoveCount] grows by exactly
    one; the turn passes to the other symbol unless the match has just
    finished, in which case it stays.  The last thing the handler does, also
    on the finishing move, is one STATE broadcast with [presences = nil]
    (the whole match) and the reliable flag, whose payload is the updated
    state: the new board, the new turn, the winner, the size, the mode and
    the players.  What precedes it is nothing when the match goes on, and
    the scoring calls of [updateLeaderboard] on the new state when the move
    finished the match; no other message is sent. *)
Theorem valid_move_commits m message d :
  wf m → valid_move m message d →
  ∃ m' scored,
    handleMove range_players m message =
      Some (m', scored ++
                [BroadcastMessage OpcodeState
                   (PState {| sd_Board := Board m'; sd_Turn := Turn m';
                              sd_Winner := Winner m'; sd_Size := Size m';
                              sd_Mode := Mode m'; sd_Players := Players m' |})
                   None true])
    ∧ Board m' = set_cell (Board m) (Row d) (Col d) (Turn m)
    ∧ Players m !! UserId message = Some (Turn m)
    ∧ (∀ i j, cell (Board m') i j =
              if decide (i = Row d ∧ j = Col d) then Some (Turn m)
              else cell (Board m) i j)
    ∧ MoveCount m' = MoveCount m + 1
    ∧ (State m' = GameStatePlaying ∨ State m' = GameStateFinished)
    ∧ (State m' ≠ GameStateFinished →
       Turn m' = other_symbol (Turn m) ∧ Turn m' ≠ Turn m ∧ scored = [])
    ∧ (State m' = GameStateFinished →
       Turn m' = Turn m ∧ scored = updateLeaderboard range_players m')
    ∧ (Size m' = Size m ∧ Mode m' = Mode m ∧ Players m' = Players m ∧ ID m' = ID m)
    ∧ Forall (λ e, ∃ u, (∃ score, e = UpdateLeaderboard u score)
                        ∨ (∃ won lost drawn, e = UpdateUserStats u won lost drawn))
        scored.
Proof.
  intros Hwf Hv.
  destruct (handleMove_total range_players m message Hwf) as [[m' effs] Hh].
  pose proof Hh as Hinv.
  apply handleMove_inv in Hinv as [(reason & Hrej & _)|(d' & w & Hv' & Hw & Hout)].
  { exfalso. destruct Hv as (Hs & Hd & Hr & Hc & Hp & Hcell).
    destruct Hrej; simplify_eq; try done; try lia. }
  assert (d' = d) as -> by (destruct Hv as (_ & ? & _), Hv' as (_ & ? & _); congruence).
  destruct (after_move_facts m message d Hwf Hv)
    as (Hcount & Hwrap & Hb & Hfilled & Hle & Hwin & Hsize).
  pose proof Hv as (Hs & _ & Hr & Hc & Hp & Hcell).
  assert (∀ i j, cell (Board (after_move m d)) i j =
                 if decide (i = Row d ∧ j = Col d) then Some (Turn m)
                 else cell (Board m) i j) as Hset.
  { intros i j. simpl. apply cell_set_cell; [lia|lia|by rewrite Hcell]. }
  assert (Forall (λ e, ∃ u, (∃ score, e = UpdateLeaderboard u score)
                            ∨ (∃ won lost drawn, e = UpdateUserStats u won lost drawn))
            (updateLeaderboard range_players m')) as Hscore.
  { apply Forall_forall. intros e. unfold updateLeaderboard.
    rewrite list_elem_of_In, in_flat_map.
    intros ([k v] & _ & Hin). unfold report in Hin.
    repeat case_decide; simpl in Hin; destruct Hin as [<-|[<-|[]]]; eauto 6. }
  assert (other_symbol (Turn m) ≠ Turn m) as Hflip.
  { unfold other_symbol. destruct (wf_turn m Hwf) as [-> | ->]; done. }
  simpl in Hcount. unfold commit_outcome in Hout.
  destruct Hout as [(Hne & Hm' & ->)|[(-> & Hge & Hm' & ->)|(-> & Hlt & Hm' & ->)]].
  - exists m', (updateLeaderboard range_players m'). split; [exact Hh|].
    split; [by subst m'|]. split; [exact Hp|]. split; [by subst m'|].
    split; [by subst m'|]. split; [right; by subst m'|].
    split; [intros Hnf; exfalso; apply Hnf; by subst m'|].
    split; [intros _; split; [by subst m'|done]|].
    split; [by subst m'|]. exact Hscore.
  - exists m', (updateLeaderboard range_players m'). split; [exact Hh|].
    split; [by subst m'|]. split; [exact Hp|]. split; [by subst m'|].
    split; [by subst m'|]. split; [right; by subst m'|].
    split; [intros Hnf; exfalso; apply Hnf; by subst m'|].
    split; [intros _; split; [by subst m'|done]|].
    split; [by subst m'|]. exact Hscore.
  - exists m', []. split; [exact Hh|].
    split; [by subst m'|]. split; [exact Hp|]. split; [by subst m'|].
    split; [by subst m'|]. split; [left; subst m'; simpl; by rewrite Hs|].
    split; [intros _; by subst m'|].
    split; [intros Hf; exfalso; subst m'; simpl in Hf; by rewrite Hs in Hf|].
    split; [by subst m'|]. constructor.
Qed.

Lemma row0_in_all_lines_3 : row_line 3 0 ∈ all_lines 3.
Proof.
  unfold all_lines. apply elem_of_app. left.
  apply (list_elem_of_fmap_2 (row_line 3) (seqZ 0 3) 0). vm_compute. left.
Qed.

(** C3. A submitted move that completes a line wins.  For a valid move,
    take the board with the mover's symbol written at the target cell: the
    handler returns the state with exactly that board, and if some row,
    column or full diagonal of it holds [Size] identical non-empty symbols,
    the phase becomes finished and the winner is that symbol, the mover's.
    The winner recorded is in every case the symbol of the first full line
    of that board, or empty when there is none.  In particular on a 3x3
    board, when X plays in row 0 and the two other cells of the row hold X,
    the winner is X and the phase is finished.
    The scan order: on any square board, [checkWinner] returns the symbol
    of the full line of least index in the order rows (top down), columns
    (left to right), main diagonal, anti-diagonal ([all_lines]), and the
    empty string when no line is full. *)
Theorem completing_a_line_wins m message d :
  wf m → valid_move m message d →
  (∃ m' effs,
     handleMove range_players m message = Some (m', effs)
     ∧ Board m' = set_cell (Board m) (Row d) (Col d) (Turn m)
     ∧ Size m' = Size m
     ∧ Players m !! UserId message = Some (Turn m)
     ∧ Winner m' =
       default "" (spec_winner (set_cell (Board m) (Row d) (Col d) (Turn m)) (Size m))
     ∧ (∀ l t, l ∈ all_lines (Size m) →
               line_symbol (set_cell (Board m) (Row d) (Col d) (Turn m)) l = Some t →
               State m' = GameStateFinished ∧ Winner m' = t ∧ t = Turn m)
     ∧ (Size m = 3 → Turn m = PlayerX → Row d = 0 →
        (∀ j, 0 ≤ j < 3 → j ≠ Col d → cell (Board m) 0 j = Some PlayerX) →
        Winner m' = PlayerX ∧ State m' = GameStateFinished))
  ∧ (∀ m0 : TTTMatch,
       1 ≤ Size m0 → board_ok (Size m0) (Board m0) →
       (∀ k l w,
          all_lines (Size m0) !! k = Some l → line_symbol (Board m0) l = Some w →
          (∀ k' l', (k' < k)%nat → all_lines (Size m0) !! k' = Some l' →
                    line_symbol (Board m0) l' = None) →
          checkWinner m0 = Some w)
       ∧ ((∀ l, l ∈ all_lines (Size m0) → line_symbol (Board m0) l = None) →
          checkWinner m0 = Some "")).
Proof.
  intros Hwf Hv. split; cycle 1.
  { intros m0 Hsize Hb. rewrite (checkWinner_spec m0 Hsize Hb). split.
    - intros k l w Hk Hl Hfirst.
      assert (spec_winner (Board m0) (Size m0) = Some w) as ->; [|done].
      apply spec_winner_first. by exists k, l.
    - intros Hnone.
      destruct (spec_winner (Board m0) (Size m0)) as [x|] eqn:Hx; [|done].
      apply spec_winner_Some in Hx as (l & Hl & Hx).
      by rewrite (Hnone l Hl) in Hx. }
  destruct (handleMove_total range_players m message Hwf) as [[m' effs] Hh].
  exists m', effs. split; [done|].
  pose proof (handleMove_wf range_players m message m' effs Hwf Hh) as Hwf'.
  pose proof (wf_winner m' Hwf') as Hwin'.
  pose proof Hwin' as Hspec.
  rewrite checkWinner_spec in Hspec by (apply wf_size_pos || apply wf_board; done).
  injection Hspec as Hspec.
  pose proof Hh as Hinv.
  apply handleMove_inv in Hinv as [(reason & Hrej & _)|(d' & w & Hv' & Hw & Hout)].
  { exfalso. destruct Hv as (Hs & Hd & Hr & Hc & Hp & Hcell).
    destruct Hrej; simplify_eq; try done; try lia. }
  assert (d' = d) as -> by (destruct Hv as (_ & ? & _), Hv' as (_ & ? & _); congruence).
  assert (Board m' = Board (after_move m d) ∧ Size m' = Size m) as [Hboard Hsz].
  { destruct Hout as [(_ & -> & _)|[(_ & _ & -> & _)|(_ & _ & -> & _)]]; done. }
  assert (Board (after_move m d) = set_cell (Board m) (Row d) (Col d) (Turn m))
    as Hafter by done.
  assert (∀ l t, l ∈ all_lines (Size m') → line_symbol (Board m') l = Some t →
                 State m' = GameStateFinished ∧ Winner m' = t ∧ t = Turn m) as Hline.
  { intros l t Hl Ht.
    assert (t = Turn m) as ->
      by (eapply (line_after_move m message d l);
          [done..|by rewrite <- Hsz|by rewrite <- Hboard]).
    destruct (spec_winner (Board m') (Size m')) as [x|] eqn:Hx; cycle 1.
    { by rewrite (spec_winner_None _ _ l Hx Hl) in Ht. }
    apply spec_winner_Some in Hx as (l' & Hl' & Hx).
    assert (x = Turn m) as ->
      by (eapply (line_after_move m message d l');
          [done..|by rewrite <- Hsz|by rewrite <- Hboard]).
    simpl in Hspec. split; [|done].
    destruct (wf_state m' Hwf') as [Hs'|[Hs'|Hs']]; [| |done].
    - pose proof (wf_unfinished m' Hwf') as Hu. rewrite Hs' in Hu.
      rewrite Hu in Hspec by done. by destruct (wf_turn_nonempty m Hwf).
    - pose proof (wf_unfinished m' Hwf') as Hu. rewrite Hs' in Hu.
      rewrite Hu in Hspec by done. by destruct (wf_turn_nonempty m Hwf). }
  rewrite Hboard, Hsz, Hafter in Hline, Hspec.
  pose proof Hv as (Hs & _ & Hr & Hc & Hp & Hcell).
  split; [by rewrite Hboard|]. split; [done|]. split; [done|].
  split; [done|]. split; [exact Hline|].
  intros H3 HX H0 Hrow.
  destruct (Hline (row_line 3 0) PlayerX) as (? & ? & _); [| |done].
  - rewrite H3. apply row0_in_all_lines_3.
  - apply line_symbol_Some. split; [done|]. split; [done|].
    assert (∀ j, 0 ≤ j < 3 →
                 cell (set_cell (Board m) (Row d) (Col d) (Turn m)) 0 j
                 = Some PlayerX) as Hj.
    { intros j Hjr. rewrite cell_set_cell by (lia || by rewrite Hcell).
      case_decide as Heq; [by rewrite HX|].
      apply Hrow; [done|]. intros ->. by apply Heq. }
    repeat constructor; simpl; apply Hj; lia.
Qed.

(** *** The end of a match *)

(** C4. Whatever the host calls on a fresh match, the handler returns, and
    if the board is then full (no empty cell) and holds no full line, then
    [MoveCount] is [Size * Size] (9 on the 3x3 board), the phase is
    finished, the winner is absent, and the whole history holds exactly one
    Draw report (score 1, drawn) for each of the two players and no other
    report for anyone. *)
Theorem full_board_without_line_is_a_draw modeParam now cs :
  is_Some (run range_players (MatchInit modeParam now) cs)
  ∧ ∀ m effs,
      run range_players (MatchInit modeParam now) cs = Some (m, effs) →
      board_full (Board m) → spec_winner (Board m) (Size m) = None →
      MoveCount m = Size m * Size m
      ∧ State m = GameStateFinished ∧ Winner m = ""
      ∧ ∃ a b, a ≠ b
               ∧ (∀ u, is_Some (Players m !! u) → u = a ∨ u = b)
               ∧ ∀ u, reports_for u effs =
                      if decide (u = a ∨ u = b) then draw_report u else [].
Proof.
  pose proof (wf_MatchInit modeParam now) as Hwf0.
  split; [by apply run_total|]. intros m effs Hrun Hfull Hline.
  pose proof (run_wf _ _ _ _ Hwf0 Hrun) as Hwf.
  assert (history_ok (MatchInit modeParam now) []) as Hh0 by (split; done).
  pose proof (run_history _ _ _ _ _ Hwf0 Hh0 Hrun) as [_ Hdone]. simpl in Hdone.
  pose proof (wf_size_pos m Hwf) as Hpos.
  assert (MoveCount m = Size m * Size m) as Hcount.
  { rewrite (wf_count m Hwf). apply filled_full; [lia|apply Hwf|done]. }
  assert (State m = GameStateFinished) as Hs.
  { destruct (wf_state m Hwf) as [Hs|[Hs|Hs]]; [| |done].
    - destruct (wf_waiting m Hwf Hs). nia.
    - destruct (wf_playing m Hwf Hs). lia. }
  assert (Winner m = "") as Hw.
  { pose proof (wf_winner m Hwf) as Hw.
    rewrite checkWinner_spec, Hline in Hw by (done || apply Hwf). by injection Hw. }
  repeat split; [done..|].
  destruct (Hdone Hs Hw) as [[Hlt _]|(_ & a & b & [Hab Hd] & Hp)]; [lia|].
  exists a, b. done.
Qed.

(** C1 (the code reports twice). When a move ends a playing match with a
    winner and the host then terminates the match, each player of the match
    is reported to the scoring collaborator twice: once by [handleMove] and
    once more by [MatchTerminate]. *)
Theorem winning_move_then_terminate_reports_twice m message g m' effs u s :
  wf m → State m = GameStatePlaying →
  run range_players m [CallLoop [message]; CallTerminate g] = Some (m', effs) →
  Winner m' ≠ "" → Players m !! u = Some s →
  reports_for u effs = report (Winner m') (u, s) ++ report (Winner m') (u, s)
  ∧ length (reports_for u effs) = 4%nat.
Proof.
  intros Hwf Hs Hrun Hw Hu.
  assert (reports_for u effs = report (Winner m') (u, s) ++ report (Winner m') (u, s))
    as ->; [|split; [done|]; unfold report; by repeat case_decide].
  pose proof (wf_unfinished m Hwf) as Hwin. rewrite Hs in Hwin.
  specialize (Hwin ltac:(done)).
  revert Hrun. simpl. unfold MatchTerminate.
  case_decide as Hop; cycle 1.
  { simpl. rewrite decide_False by (rewrite Hs; by intros []).
    intros [= <- <-]. done. }
  destruct (handleMove range_players m message) as [[m1 e1]|] eqn:Hh; simpl; [|done].
  apply handleMove_inv in Hh as [(reason & _ & -> & ->)|(d & w & Hv & _ & Hout)].
  { rewrite decide_False by (rewrite Hs; by intros []). intros [= <- <-]. done. }
  destruct Hout as [(Hne & -> & ->)|[(-> & _ & -> & ->)|(-> & _ & -> & ->)]].
  - rewrite decide_True by done. simpl. intros [= <- <-]. simpl.
    rewrite !reports_for_app, !reports_for_updateLeaderboard. simpl.
    by rewrite Hu, !app_nil_r.
  - rewrite decide_False by (simpl; rewrite Hwin; by intros []).
    intros [= <- <-]. simpl in Hw. done.
  - rewrite decide_False by (simpl; rewrite Hwin; by intros []).
    intros [= <- <-]. simpl in Hw. done.
Qed.

(** Once finished with no winner, a match stays so and reports nothing. *)
Lemma abandoned_step m c m1 e1 :
  State m = GameStateFinished → Winner m = "" →
  step range_players m c = Some (m1, e1) →
  State m1 = GameStateFinished ∧ Winner m1 = "" ∧ no_reports e1.
Proof.
  intros Hs Hw. destruct c as [userId|presences|presences|messages|g|data]; simpl.
  - intros [= <- <-]. unfold MatchJoinAttempt.
    case_decide; [done|]. by rewrite decide_True.
  - intros [= <- <-]. repeat split; [done..|]. intros u. apply reports_for_MatchJoin.
  - intros [= <- <-]. unfold MatchLeave. simpl.
    rewrite decide_False by (by rewrite Hs). done.
  - revert e1. induction messages as [|message rest IH]; intros e1; simpl.
    + by intros [= <- <-].
    + case_decide; [|by apply IH].
      rewrite (handleMove_rejected _ m message _ (rej_phase m message
                 ltac:(by rewrite Hs))). simpl.
      destruct (MatchLoop range_players m rest) as [[m2 e2]|] eqn:H2; simpl; [|done].
      intros [= <- <-]. destruct (IH e2 eq_refl) as (? & ? & Hno).
      repeat split; [done..|]. intros u. apply Hno.
  - unfold MatchTerminate. rewrite decide_False by (by intros [_ []]).
    by intros [= <- <-].
  - by intros [= <- <-].
Qed.

Lemma abandoned_run m cs m1 e1 :
  State m = GameStateFinished → Winner m = "" →
  run range_players m cs = Some (m1, e1) →
  State m1 = GameStateFinished ∧ Winner m1 = "" ∧ no_reports e1.
Proof.
  revert m e1. induction cs as [|c cs IH]; intros m e1 Hs Hw; simpl.
  - by intros [= <- <-].
  - destruct (step range_players m c) as [[m2 e2]|] eqn:H2; simpl; [|done].
    destruct (run range_players m2 cs) as [[m3 e3]|] eqn:H3; simpl; [|done].
    intros [= <- <-].
    destruct (abandoned_step _ _ _ _ Hs Hw H2) as (Hs2 & Hw2 & Hno2).
    destruct (IH _ _ Hs2 Hw2 H3) as (Hs3 & Hw3 & Hno3).
    repeat split; [done..|]. intros u. by rewrite reports_for_app, Hno2, Hno3.
Qed.

(** C5 (as the code has it). Removing players from a playing match makes
    the phase finished with the winner absent, and calls the scoring
    collaborator for nobody: not at the removal and not at any later call
    on that match, termination included.  Every later move is answered with
    the error "Game is not in playing state" and changes nothing. *)
Theorem leaving_finishes_without_report m presences :
  wf m → State m = GameStatePlaying →
  step range_players m (CallLeave presences) = Some (MatchLeave m presences, [])
  ∧ State (MatchLeave m presences) = GameStateFinished
  ∧ Winner (MatchLeave m presences) = ""
  ∧ ∀ cs m2 effs,
      run range_players (MatchLeave m presences) cs = Some (m2, effs) →
      State m2 = GameStateFinished ∧ Winner m2 = ""
      ∧ no_reports effs
      ∧ ∀ message,
          handleMove range_players m2 message =
          Some (m2, sendError "Game is not in playing state").
Proof.
  intros Hwf Hs.
  assert (State (MatchLeave m presences) = GameStateFinished) as Hs1.
  { unfold MatchLeave. simpl. by rewrite decide_True. }
  assert (Winner (MatchLeave m presences) = "") as Hw1.
  { unfold MatchLeave. simpl. rewrite decide_True by done. simpl.
    apply (wf_unfinished m Hwf). by rewrite Hs. }
  split; [reflexivity|]. split; [exact Hs1|]. split; [exact Hw1|].
  intros cs m2 effs Hrun.
  destruct (abandoned_run _ _ _ _ Hs1 Hw1 Hrun) as (Hs2 & Hw2 & Hno).
  repeat split; [done..|]. intros message.
  apply handleMove_rejected, rej_phase. by rewrite Hs2.
Qed.

(** *** Rejected moves *)

(** C6 (as the code has it). Every validation failure of a move (wrong
    phase, undecodable payload, coordinates out of bounds, sender not in
    the match, wrong turn, occupied cell) leaves the match state as it was
    and is answered by one error message that the dispatcher sends to the
    whole match, the opponent included. *)
Theorem rejection_is_broadcast_to_all m message reason :
  rejected m message reason →
  handleMove range_players m message =
    Some (m, [BroadcastMessage OpcodeError (PError {| Msg := reason |}) None true])
  ∧ ∀ participants,
      recipients participants
        (BroadcastMessage OpcodeError (PError {| Msg := reason |}) None true)
      = participants.
Proof.
  intros Hrej. split; [|done]. by apply handleMove_rejected.
Qed.

(** C7. A move that fails leaves the whole match state unchanged: whenever
    [handleMove] answers with an error, and whenever the move is not a valid
    one, the state it returns is the state it was given (and on a state of
    the invariant it always returns).  A move whose target cell is occupied
    is always answered with an error and the same state, whatever the phase
    and whoever is on turn. *)
Theorem failed_move_leaves_state m message :
  (wf m → is_Some (handleMove range_players m message))
  ∧ (∀ m' effs,
     handleMove range_players m message = Some (m', effs) →
     ((∃ reason, effs = sendError reason) ∨ ¬ (∃ d, valid_move m message d)) →
     m' = m ∧ ∃ reason, effs = sendError reason)
  ∧ (∀ d c,
       Data message = Some d →
       cell (Board m) (Row d) (Col d) = Some c → c ≠ Empty →
       ∃ reason, handleMove range_players m message = Some (m, sendError reason)).
Proof.
  split; [apply handleMove_total|]. split.
  - intros m' effs Hh Hfail.
    apply handleMove_inv in Hh as [(reason & _ & -> & ->)|(d & w & Hv & _ & Hout)];
      [eauto|].
    exfalso. destruct Hfail as [[reason ->]|Hnv]; [|eauto].
    assert (∃ l, sendError reason = l ++ [state_broadcast m']) as [l Hl].
    { destruct Hout as [(_ & _ & ->)|[(_ & _ & _ & ->)|(_ & _ & _ & ->)]];
        [eauto..|by exists []]. }
    apply (f_equal last) in Hl. rewrite last_snoc in Hl. simpl in Hl. done.
  - intros d c Hd Hcell Hocc.
    destruct (decide (State m ≠ GameStatePlaying)) as [Hs|Hs].
    { eexists. apply handleMove_rejected. by apply rej_phase. }
    apply dec_stable in Hs.
    destruct (decide (0 ≤ Row d < Size m ∧ 0 ≤ Col d < Size m)) as [Hc|Hc]; cycle 1.
    { eexists. apply handleMove_rejected. by eapply rej_coordinates. }
    destruct (Players m !! UserId message) as [s|] eqn:Hp; cycle 1.
    { eexists. apply handleMove_rejected. by eapply rej_player. }
    destruct (decide (s = Turn m)) as [->|Ht]; cycle 1.
    { eexists. apply handleMove_rejected. by eapply rej_turn. }
    eexists. apply handleMove_rejected. by eapply rej_occupied.
Qed.

(** C8 (as the code has it). A move whose row or column lies outside
    [0, Size) is rejected and the state, the board included, is unchanged;
    the error is "Invalid move coordinates" when the match is in the playing
    phase, and "Game is not in playing state" otherwise, the phase being
    checked first. *)
Theorem out_of_range_move_rejected m message d :
  Data message = Some d →
  ¬ (0 ≤ Row d < Size m ∧ 0 ≤ Col d < Size m) →
  handleMove range_players m message =
  Some (m, sendError (if decide (State m = GameStatePlaying)
                      then "Invalid move coordinates"
                      else "Game is not in playing state")).
Proof.
  intros Hd Hc. apply handleMove_rejected. case_decide as Hs.
  - by eapply rej_coordinates.
  - by apply rej_phase.
Qed.

End RunFacts.

(** *** Instances on concrete games *)

Lemma wf_of_run rp m cs m' :
  wf m → fst <$> run rp m cs = Some m' → wf m'.
Proof.
  intros Hwf Hrun. destruct (run rp m cs) as [[m1 e1]|] eqn:Hr; [|done].
  injection Hrun as <-. by eapply run_wf.
Qed.

Lemma wf_playing_ab : wf playing_ab.
Proof.
  apply (wf_of_run map_to_list (MatchInit None 0) join_ab);
    [apply wf_MatchInit|vm_compute; reflexivity].
Qed.

Lemma wf_before_row_win : wf before_row_win.
Proof.
  apply (wf_of_run map_to_list (MatchInit None 0)
           (join_ab ++ [CallLoop [move "a" 0 0; move "b" 1 0; move "a" 0 1;
                                  move "b" 1 1]]));
    [apply wf_MatchInit|vm_compute; reflexivity].
Qed.

(** Instance of C2: the opening move of "a" at (0,0). *)
Lemma valid_move_commits_witness :
  wf playing_ab
  ∧ valid_move playing_ab (move "a" 0 0) {| Row := 0; Col := 0 |}
  ∧ ∃ m',
      handleMove map_to_list playing_ab (move "a" 0 0) =
        Some (m', [BroadcastMessage OpcodeState
                     (PState {| sd_Board := [[PlayerX; Empty; Empty];
                                             [Empty; Empty; Empty];
                                             [Empty; Empty; Empty]];
                                sd_Turn := PlayerO; sd_Winner := "";
                                sd_Size := 3; sd_Mode := GameModeClassic;
                                sd_Players := Players playing_ab |})
                     None true])
      ∧ MoveCount m' = 1.
Proof.
  assert (valid_move playing_ab (move "a" 0 0) {| Row := 0; Col := 0 |}) as Hv.
  { unfold valid_move. simpl. repeat split; lia || (vm_compute; reflexivity). }
  split; [exact wf_playing_ab|]. split; [exact Hv|].
  destruct (valid_move_commits map_to_list playing_ab (move "a" 0 0) _
              wf_playing_ab Hv)
    as (m' & scored & Hh & Hboard & _ & _ & Hcount & [Hst|Hst] & Hgo & Hfin
        & (Hsize & Hmode & Hplayers & _) & _).
  - destruct Hgo as (Hturn & _ & ->); [by rewrite Hst|].
    exists m'. split; [|exact Hcount].
    rewrite Hh. simpl.
    assert (Winner m' = "") as ->.
    { pose proof Hh as Hc. vm_compute in Hc. by injection Hc as <- _. }
    by rewrite Hboard, Hturn, Hsize, Hmode, Hplayers.
  - exfalso. pose proof Hh as Hc. vm_compute in Hc. injection Hc as <- _.
    discriminate Hst.
Defined.

(** Instance of C3: X, holding (0,0) and (0,1), plays (0,2); and a board
    with O in the top row and X in the middle row, on which the scan answers
    O. *)
Lemma completing_a_line_wins_witness :
  wf before_row_win
  ∧ valid_move before_row_win (move "a" 0 2) {| Row := 0; Col := 2 |}
  ∧ (∃ m' effs,
       handleMove map_to_list before_row_win (move "a" 0 2) = Some (m', effs)
       ∧ Board m' = [[PlayerX; PlayerX; PlayerX]; [PlayerO; PlayerO; Empty];
                     [Empty; Empty; Empty]]
       ∧ Winner m' = PlayerX ∧ State m' = GameStateFinished)
  ∧ checkWinner two_rows = Some PlayerO.
Proof.
  assert (valid_move before_row_win (move "a" 0 2) {| Row := 0; Col := 2 |}) as Hv.
  { unfold valid_move. simpl. repeat split; lia || (vm_compute; reflexivity). }
  split; [exact wf_before_row_win|]. split; [exact Hv|].
  destruct (completing_a_line_wins map_to_list before_row_win (move "a" 0 2) _
              wf_before_row_win Hv)
    as [(m' & effs & Hh & Hboard & _ & _ & _ & _ & Hrow) Hscan].
  split.
  - exists m', effs. split; [exact Hh|]. split; [by rewrite Hboard|].
    apply Hrow; [reflexivity..|].
    intros j Hj Hne. simpl in Hne.
    assert (j = 0 ∨ j = 1) as [-> | ->] by lia; reflexivity.
  - destruct (Hscan two_rows) as [Hfirst _]; [simpl; lia|by repeat constructor|].
    apply (Hfirst 0%nat (row_line 3 0)); [reflexivity|reflexivity|].
    intros k' l' Hk. lia.
Defined.

(** Instance of C4: nine moves fill the board with no line. *)
Lemma full_board_without_line_is_a_draw_witness :
  ∃ m effs,
    run map_to_list (MatchInit None 0) (join_ab ++ [CallLoop draw_moves])
      = Some (m, effs)
    ∧ board_full (Board m) ∧ spec_winner (Board m) (Size m) = None
    ∧ MoveCount m = 9 ∧ State m = GameStateFinished ∧ Winner m = ""
    ∧ ∃ a b, a ≠ b
             ∧ ∀ u, reports_for u effs =
                    if decide (u = a ∨ u = b) then draw_report u else [].
Proof.
  destruct (full_board_without_line_is_a_draw map_to_list
              (λ p, reflexivity _) None 0 (join_ab ++ [CallLoop draw_moves]))
    as [[[m effs] Hrun] Hall].
  exists m, effs. split; [exact Hrun|].
  pose proof Hrun as Hc. vm_compute in Hc. injection Hc as Hm Heffs.
  assert (board_full (Board m)) as Hfull.
  { rewrite <- Hm. unfold board_full. simpl. repeat constructor; done. }
  assert (spec_winner (Board m) (Size m) = None) as Hline
    by (rewrite <- Hm; vm_compute; reflexivity).
  destruct (Hall m effs Hrun Hfull Hline) as (Hcount & Hs & Hw & a & b & Hab & _ & Hrep).
  split; [exact Hfull|]. split; [exact Hline|].
  split; [rewrite Hcount, <- Hm; reflexivity|]. split; [exact Hs|]. split; [exact Hw|].
  exists a, b. split; [exact Hab|exact Hrep].
Defined.

(** Instance of C1: X completes the top row, then the match terminates;
    "a" is reported as the winner twice. *)
Lemma winning_move_then_terminate_reports_twice_witness :
  wf before_row_win ∧ State before_row_win = GameStatePlaying
  ∧ Players before_row_win !! "a" = Some PlayerX
  ∧ ∃ m' effs,
      run map_to_list before_row_win [CallLoop [move "a" 0 2]; CallTerminate 0]
        = Some (m', effs)
      ∧ Winner m' ≠ ""
      ∧ reports_for "a" effs = win_report "a" ++ win_report "a".
Proof.
  assert (Players before_row_win !! "a" = Some PlayerX) as Hu
    by (vm_compute; reflexivity).
  split; [exact wf_before_row_win|]. split; [reflexivity|]. split; [exact Hu|].
  destruct (run map_to_list before_row_win
              [CallLoop [move "a" 0 2]; CallTerminate 0]) as [[m' effs]|] eqn:Hrun;
    [|vm_compute in Hrun; discriminate Hrun].
  exists m', effs. split; [reflexivity|].
  pose proof Hrun as Hc. vm_compute in Hc. injection Hc as Hm _.
  assert (Winner m' ≠ "") as Hw by (rewrite <- Hm; simpl; discriminate).
  split; [exact Hw|].
  destruct (winning_move_then_terminate_reports_twice map_to_list
              (λ p, reflexivity _) before_row_win (move "a" 0 2) 0 m' effs
              "a" PlayerX wf_before_row_win eq_refl Hrun Hw Hu) as [-> _].
  rewrite <- Hm. reflexivity.
Defined.

(** The same on a whole history, from the creation of the match: both
    players are reported twice, the winner with two wins and the loser with
    two losses. *)
Lemma row_win_history_reports_twice :
  (λ r, (Winner r.1, State r.1, reports_for "a" r.2, reports_for "b" r.2))
    <$> run map_to_list (MatchInit None 0)
          (join_ab ++ [CallLoop row_win_moves; CallTerminate 0])
  = Some (PlayerX, GameStateFinished,
          win_report "a" ++ win_report "a", loss_report "b" ++ loss_report "b").
Proof. vm_compute. reflexivity. Qed.

(** C5, counterexample: "a" leaves a playing match and the match is then
    terminated.  The phase is finished and "b" is still a player, but the
    handler has made no call to the host at all: no report, Abandoned or
    other, is made for "b". *)
Lemma leave_reports_nothing_for_the_remaining_player :
  run map_to_list playing_ab [CallLeave ["a"]; CallTerminate 0]
    = Some (MatchLeave playing_ab ["a"], [])
  ∧ State (MatchLeave playing_ab ["a"]) = GameStateFinished
  ∧ Players (MatchLeave playing_ab ["a"]) !! "b" = Some PlayerO
  ∧ reports_for "b" [] = [].
Proof.
  split; [vm_compute; reflexivity|]. split; [reflexivity|].
  split; [vm_compute; reflexivity|reflexivity].
Qed.

(** Instance of C5. *)
Lemma leaving_finishes_without_report_witness :
  wf playing_ab ∧ State playing_ab = GameStatePlaying
  ∧ State (MatchLeave playing_ab ["a"]) = GameStateFinished
  ∧ handleMove map_to_list (MatchLeave playing_ab ["a"]) (move "b" 0 0) =
      Some (MatchLeave playing_ab ["a"], sendError "Game is not in playing state").
Proof.
  split; [exact wf_playing_ab|]. split; [reflexivity|].
  destruct (leaving_finishes_without_report map_to_list playing_ab ["a"]
              wf_playing_ab eq_refl) as (_ & Hs & _ & Hlater).
  split; [exact Hs|].
  destruct (Hlater [] _ _ eq_refl) as (_ & _ & _ & Hmove). apply Hmove.
Defined.

(** C6, counterexample: "a" sends a move out of bounds; the error is sent
    with [presences = nil], that is to the whole match, and so reaches the
    opponent "b". *)
Lemma error_reaches_the_opponent :
  handleMove map_to_list playing_ab (move "a" 7 7) =
    Some (playing_ab,
          [BroadcastMessage OpcodeError
             (PError {| Msg := "Invalid move coordinates" |}) None true])
  ∧ recipients ["a"; "b"]
      (BroadcastMessage OpcodeError
         (PError {| Msg := "Invalid move coordinates" |}) None true)
    = ["a"; "b"]
  ∧ recipients ["a"; "b"]
      (BroadcastMessage OpcodeError
         (PError {| Msg := "Invalid move coordinates" |}) None true)
    ≠ ["a"].
Proof. split; [vm_compute; reflexivity|]. split; [reflexivity|discriminate]. Qed.

(** Instance of C6. *)
Lemma rejection_is_broadcast_to_all_witness :
  rejected playing_ab (move "a" 7 7) "Invalid move coordinates"
  ∧ handleMove map_to_list playing_ab (move "a" 7 7) =
      Some (playing_ab,
            [BroadcastMessage OpcodeError
               (PError {| Msg := "Invalid move coordinates" |}) None true]).
Proof.
  assert (rejected playing_ab (move "a" 7 7) "Invalid move coordinates") as Hrej.
  { apply (rej_coordinates _ _ {| Row := 7; Col := 7 |}); [reflexivity..|].
    simpl. lia. }
  split; [exact Hrej|].
  apply (rejection_is_broadcast_to_all map_to_list playing_ab (move "a" 7 7) _ Hrej).
Defined.

(** Instance of C7: "b" plays out of turn on the occupied cell (0,0). *)
Lemma failed_move_leaves_state_witness :
  cell (Board before_row_win) 0 0 = Some PlayerX ∧ PlayerX ≠ Empty
  ∧ (∃ reason, handleMove map_to_list before_row_win (move "b" 0 0) =
               Some (before_row_win, sendError reason))
  ∧ ∀ m' effs,
      handleMove map_to_list before_row_win (move "b" 0 0) = Some (m', effs) →
      m' = before_row_win.
Proof.
  split; [reflexivity|]. split; [discriminate|].
  destruct (failed_move_leaves_state map_to_list before_row_win (move "b" 0 0))
    as (_ & Hfail & Hocc).
  destruct (Hocc {| Row := 0; Col := 0 |} PlayerX eq_refl eq_refl ltac:(discriminate))
    as [reason Hh].
  split; [by exists reason|].
  intros m' effs Hh'. apply (Hfail m' effs Hh'). left. exists reason. congruence.
Defined.

(** C8, counterexample: "a" has joined a fresh match, the phase is still
    waiting, and "a" plays (5,5) on the 3x3 board: the call fails with
    "Game is not in playing state", not with "Invalid move coordinates". *)
Lemma out_of_range_while_waiting :
  fst <$> run map_to_list (MatchInit None 0) [CallJoinAttempt "a"; CallJoin ["a"]]
    = Some waiting_a
  ∧ handleMove map_to_list waiting_a (move "a" 5 5) =
      Some (waiting_a, sendError "Game is not in playing state")
  ∧ handleMove map_to_list waiting_a (move "a" 5 5) ≠
      Some (waiting_a, sendError "Invalid move coordinates").
Proof.
  split; [vm_compute; reflexivity|]. split; [reflexivity|].
  intros H. vm_compute in H. discriminate H.
Qed.

(** Instance of C8. *)
Lemma out_of_range_move_rejected_witness :
  Data (move "a" 3 0) = Some {| Row := 3; Col := 0 |}
  ∧ ¬ (0 ≤ 3 < Size playing_ab ∧ 0 ≤ 0 < Size playing_ab)
  ∧ handleMove map_to_list playing_ab (move "a" 3 0) =
      Some (playing_ab, sendError "Invalid move coordinates").
Proof.
  assert (¬ (0 ≤ 3 < Size playing_ab ∧ 0 ≤ 0 < Size playing_ab)) as Hc
    by (simpl; lia).
  split; [reflexivity|]. split; [exact Hc|].
  apply (out_of_range_move_rejected map_to_list playing_ab (move "a" 3 0)
           {| Row := 3; Col := 0 |} eq_refl Hc).
Defined.

End MatchProofs.

Module MatchmakingProofs.
Import Matchmaking.

Lemma find_opponent_Some visit mode userID opponent :
  find_opponent visit mode userID = Some opponent →
  Mode opponent = mode ∧ UserID opponent ≠ userID
  ∧ ∃ k, (k, opponent) ∈ visit.
Proof.
  induction visit as [|[k e] visit IH]; simpl; [done|].
  case_decide as Hc.
  - intros [= <-]. destruct Hc. repeat split; [done..|]. exists k. left.
  - intros (? & ? & k' & ?)%IH. repeat split; [done..|]. exists k'. by right.
Qed.

Lemma find_opponent_None visit mode userID k e :
  find_opponent visit mode userID = None → (k, e) ∈ visit →
  ¬ (Mode e = mode ∧ UserID e ≠ userID).
Proof.
  induction visit as [|[k' e'] visit IH]; simpl.
  - intros _ Hin. by apply elem_of_nil in Hin.
  - case_decide as Hc; [done|]. intros Hnone [[= -> ->]|Hin]%elem_of_cons; [done|].
    by apply IH.
Qed.

(** An opponent found by the search is an entry of the queue. *)
Lemma find_opponent_queued visit q mode userID opponent :
  visit ≡ₚ map_to_list q →
  find_opponent visit mode userID = Some opponent →
  ∃ k, q !! k = Some opponent.
Proof.
  intros Hperm (_ & _ & k & Hin)%find_opponent_Some. exists k.
  rewrite Hperm in Hin. by apply elem_of_map_to_list in Hin.
Qed.

Lemma keyed_insert q userID mode now :
  keyed q → keyed (<[userID := {| UserID := userID; Mode := mode; Timestamp := now |}]> q).
Proof.
  intros Hq k e. rewrite lookup_insert. case_decide as Hk.
  - subst k. by intros [= <-].
  - apply Hq.
Qed.

Lemma keyed_delete q k : keyed q → keyed (delete k q).
Proof.
  intros Hq k' e. rewrite lookup_delete. case_decide; [done|]. apply Hq.
Qed.

(** At most one entry per player: the queue is a map from user ids, and
    the entry under a key carries that user id. *)
Lemma reachable_keyed q : reachable q → keyed q.
Proof.
  induction 1 as [|q visit host ctxUser payload Hq IH Hperm|q ctxUser payload Hq IH].
  - intros k e. by rewrite lookup_empty.
  - unfold startMatchmakingRPC.
    destruct payload as [request|]; [|done].
    destruct ctxUser as [userID|]; [|done].
    destruct (find_opponent visit _ userID) as [opponent|]; simpl.
    + destruct (host_MatchCreate host); simpl.
      * by apply keyed_delete.
      * by apply keyed_insert, keyed_delete.
    + by apply keyed_insert.
  - unfold stopMatchmakingRPC.
    destruct payload as [ticket|]; [|done].
    destruct ctxUser as [userID|]; [|done].
    destruct (q !! userID); simpl; [by apply keyed_delete|done].
Qed.

(** Cancelling removes the caller's entry and no other, and succeeds also
    when there is none. *)
Lemma stop_removes_entry userID ticket q :
  stopMatchmakingRPC (Some userID) (Some ticket) q = (inr tt, delete userID q).
Proof.
  unfold stopMatchmakingRPC. destruct (q !! userID) eqn:Hu; [done|].
  by rewrite delete_id.
Qed.

(** With no opponent found the caller is filed, in place of any entry the
    caller already had. *)
Lemma start_without_opponent_enqueues visit host userID request q :
  find_opponent visit (requested_mode request) userID = None →
  (startMatchmakingRPC visit host (Some userID) (Some request) q).1.2 =
  <[userID := {| UserID := userID; Mode := requested_mode request;
                 Timestamp := host_now host |}]> q.
Proof.
  intros Hfind. unfold startMatchmakingRPC. by rewrite Hfind.
Qed.

(** When a match is created the waiting opponent's entry is deleted, and
    nothing else changes in the queue. *)
Lemma start_with_opponent_dequeues_opponent visit host userID request q opponent matchID :
  find_opponent visit (requested_mode request) userID = Some opponent →
  host_MatchCreate host = inl matchID →
  (startMatchmakingRPC visit host (Some userID) (Some request) q).1.2 =
  delete (UserID opponent) q.
Proof.
  intros Hfind Hok. unfold startMatchmakingRPC. by rewrite Hfind, Hok.
Qed.

(** C10. When the search finds a waiting opponent and [nk.MatchCreate]
    then fails, the call returns no error but an ordinary waiting ticket
    for the requested mode, and files the caller in the queue; the only host
    call it has made is the failed [MatchCreate] (no notification is sent to
    anyone); and the opponent, who was queued before the call, is in the
    queue no more. *)
Theorem failed_match_creation_drops_opponent
  visit host userID request q opponent err :
  reachable q → visit ≡ₚ map_to_list q →
  find_opponent visit (requested_mode request) userID = Some opponent →
  host_MatchCreate host = inr err →
  let mode := requested_mode request in
  let entry := {| UserID := userID; Mode := mode; Timestamp := host_now host |} in
  let q' := <[userID := entry]> (delete (UserID opponent) q) in
  startMatchmakingRPC visit host (Some userID) (Some request) q =
    (inr {| Ticket := ticket_of userID (host_now_unix host); resp_Mode := mode |},
     q', [MatchCreate "ttt_match" mode])
  ∧ q' !! userID = Some entry
  ∧ q !! UserID opponent = Some opponent
  ∧ q' !! UserID opponent = None
  ∧ (∀ k, k ≠ userID → k ≠ UserID opponent → q' !! k = q !! k).
Proof.
  intros Hq Hperm Hfind Herr mode entry q'.
  pose proof Hfind as (Hmode & Hne & _)%find_opponent_Some.
  repeat split.
  - unfold startMatchmakingRPC, q', entry, mode. rewrite Hfind, Herr. done.
  - unfold q'. by rewrite lookup_insert_eq.
  - destruct (find_opponent_queued _ _ _ _ _ Hperm Hfind) as [k Hk].
    by rewrite (reachable_keyed q Hq k opponent Hk).
  - unfold q'. rewrite lookup_insert_ne by done. by rewrite lookup_delete_eq.
  - intros k Hk1 Hk2. unfold q'.
    rewrite lookup_insert_ne by done. by rewrite lookup_delete_ne.
Qed.

Lemma two_waiting_reachable : reachable two_waiting.
Proof.
  pose proof (reach_start ∅ [] (host_ok 100) (Some "alice")
                (Some {| req_Mode := GameModeClassic |}) reach_init
                ltac:(by rewrite map_to_list_empty)) as H1.
  pose proof (reach_start _ (map_to_list _) (host_ok 200) (Some "bob")
                (Some {| req_Mode := GameModeAdvanced |}) H1 ltac:(done)) as H2.
  vm_compute in H2. vm_compute. exact H2.
Qed.

Lemma two_waiting_lookup k e :
  two_waiting !! k = Some e →
  (k = "alice" ∧ e = alice_classic) ∨ (k = "bob" ∧ e = bob_advanced).
Proof.
  unfold two_waiting. rewrite lookup_insert. case_decide as Hb.
  - intros [= <-]. auto.
  - rewrite lookup_insert. case_decide as Ha; [|by rewrite lookup_empty].
    intros [= <-]. auto.
Qed.

(** C9 (where the code departs from it). "alice" waits for a classic
    match and "bob" for an advanced one, a queue the two RPCs produce.
    "alice" now asks for an advanced match and the match is created:
    whatever the order of the search, she is paired with "bob", whose entry
    is deleted, while her own classic entry stays in the queue although she
    has just been matched. *)
Theorem matched_caller_keeps_stale_entry visit host matchID :
  visit ≡ₚ map_to_list two_waiting →
  host_MatchCreate host = inl matchID →
  reachable two_waiting
  ∧ startMatchmakingRPC visit host (Some "alice")
      (Some {| req_Mode := GameModeAdvanced |}) two_waiting =
    (inr {| Ticket := matchID; resp_Mode := GameModeAdvanced |},
     delete "bob" two_waiting,
     [MatchCreate "ttt_match" GameModeAdvanced;
      NotificationsSend "bob" "Match Created" matchID GameModeAdvanced 1 true])
  ∧ delete "bob" two_waiting !! "alice" = Some alice_classic.
Proof.
  intros Hperm Hok. split; [apply two_waiting_reachable|]. split; [|done].
  assert (find_opponent visit GameModeAdvanced "alice" = Some bob_advanced) as Hfind.
  { destruct (find_opponent visit GameModeAdvanced "alice") as [opp|] eqn:Hf.
    - pose proof Hf as (Hmode & _ & k & Hin)%find_opponent_Some.
      rewrite Hperm in Hin. apply elem_of_map_to_list in Hin.
      apply two_waiting_lookup in Hin as [[_ ->]|[_ ->]]; done.
    - exfalso. apply (find_opponent_None _ _ _ "bob" bob_advanced Hf); [|done].
      rewrite Hperm. by apply elem_of_map_to_list. }
  unfold startMatchmakingRPC.
  change (requested_mode {| req_Mode := GameModeAdvanced |}) with GameModeAdvanced.
  rewrite Hfind, Hok. done.
Qed.

(** Instance of the above. *)
Lemma matched_caller_keeps_stale_entry_witness :
  map_to_list two_waiting ≡ₚ map_to_list two_waiting
  ∧ host_MatchCreate (host_ok 300) = inl "m1"
  ∧ (startMatchmakingRPC (map_to_list two_waiting) (host_ok 300) (Some "alice")
       (Some {| req_Mode := GameModeAdvanced |}) two_waiting).1.2 !! "alice"
    = Some alice_classic.
Proof.
  split; [reflexivity|]. split; [reflexivity|].
  destruct (matched_caller_keeps_stale_entry (map_to_list two_waiting)
              (host_ok 300) "m1" (reflexivity _) eq_refl) as (_ & -> & H).
  exact H.
Defined.

(** What the entry left behind leads to: "carol" then asks for a classic
    match and is paired with "alice", who is already in match "m1". *)
Lemma stale_entry_is_matched_again :
  (startMatchmakingRPC (map_to_list (delete "bob" two_waiting)) (host_ok 400)
     (Some "carol") (Some {| req_Mode := GameModeClassic |})
     (delete "bob" two_waiting)).2
  = [MatchCreate "ttt_match" GameModeClassic;
     NotificationsSend "alice" "Match Created" "m1" GameModeClassic 1 true].
Proof. vm_compute. reflexivity. Qed.

(** Instance of C10: "carol" asks for an advanced match while "bob" waits
    for one, and the match cannot be created. *)
Lemma failed_match_creation_drops_opponent_witness :
  reachable two_waiting
  ∧ map_to_list two_waiting ≡ₚ map_to_list two_waiting
  ∧ find_opponent (map_to_list two_waiting)
      (requested_mode {| req_Mode := GameModeAdvanced |}) "carol" = Some bob_advanced
  ∧ host_MatchCreate (host_failing 300) = inr "match create failed"
  ∧ (startMatchmakingRPC (map_to_list two_waiting) (host_failing 300) (Some "carol")
       (Some {| req_Mode := GameModeAdvanced |}) two_waiting).1.1
    = inr {| Ticket := "ticket_carol_300"; resp_Mode := GameModeAdvanced |}
  ∧ (startMatchmakingRPC (map_to_list two_waiting) (host_failing 300) (Some "carol")
       (Some {| req_Mode := GameModeAdvanced |}) two_waiting).1.2 !! "bob" = None.
Proof.
  split; [apply two_waiting_reachable|]. split; [reflexivity|].
  assert (find_opponent (map_to_list two_waiting)
            (requested_mode {| req_Mode := GameModeAdvanced |}) "carol"
          = Some bob_advanced) as Hfind by (vm_compute; reflexivity).
  split; [exact Hfind|]. split; [reflexivity|].
  destruct (failed_match_creation_drops_opponent (map_to_list two_waiting)
              (host_failing 300) "carol" {| req_Mode := GameModeAdvanced |}
              two_waiting bob_advanced "match create failed"
              two_waiting_reachable (reflexivity _) Hfind eq_refl)
    as (-> & _ & _ & H & _).
  split; [reflexivity|exact H].
Defined.

End MatchmakingProofs.

(** * Further properties of the match handler *)

Module MatchExtras.
Import Match MatchProofs.

(** *** Counting symbols *)

Lemma count_sym_cons s r b :
  count_sym s (r :: b) =
  (length (List.filter (λ c, bool_decide (c = s)) r) + count_sym s b)%nat.
Proof.
  unfold count_sym. simpl. by rewrite List.filter_app, length_app.
Qed.

Lemma count_row_insert s (r : list string) j t :
  r !! j = Some Empty → s ≠ Empty →
  length (List.filter (λ c, bool_decide (c = s)) (<[j:=t]> r)) =
  (length (List.filter (λ c, bool_decide (c = s)) r)
   + if decide (t = s) then 1 else 0)%nat.
Proof.
  intros Hj Hs. revert j Hj. induction r as [|c r IH]; intros [|j] Hj; try done.
  - injection Hj as ->. simpl.
    rewrite (bool_decide_eq_false_2 (Empty = s)) by done.
    case_decide.
    + rewrite bool_decide_eq_true_2 by done. simpl. lia.
    + rewrite bool_decide_eq_false_2 by done. lia.
  - simpl in *. destruct (bool_decide (c = s)); simpl; rewrite (IH j) by done; lia.
Qed.

Lemma count_sym_set_cell s b i j t :
  cell b i j = Some Empty → s ≠ Empty →
  count_sym s (set_cell b i j t) =
  (count_sym s b + if decide (t = s) then 1 else 0)%nat.
Proof.
  intros Hc Hs. apply cell_Some_inv in Hc as (_ & _ & r & Hr & Hrj).
  unfold set_cell. revert Hr. generalize (Z.to_nat i). intros n. revert n.
  induction b as [|r0 b IH]; intros [|n] Hn; try done.
  - injection Hn as ->. simpl. rewrite !count_sym_cons, count_row_insert by done. lia.
  - change (count_sym s (r0 :: alter (λ r, <[Z.to_nat j := t]> r) n b) =
            (count_sym s (r0 :: b) + if decide (t = s) then 1 else 0)%nat).
    rewrite !count_sym_cons, (IH n) by done. lia.
Qed.

Lemma cells_set_cell b i j t :
  symbol_cell t → Forall symbol_cell (concat b) →
  Forall symbol_cell (concat (set_cell b i j t)).
Proof.
  intros Ht. unfold set_cell. generalize (Z.to_nat i). intros n. revert n.
  induction b as [|r0 b IH]; intros n Hb; [done|].
  simpl in Hb. apply Forall_app in Hb as [Hr0 Hb]. destruct n as [|n].
  - change (Forall symbol_cell (<[Z.to_nat j := t]> r0 ++ concat b)).
    apply Forall_app. split; [|done]. by apply Forall_insert.
  - change (Forall symbol_cell
              (r0 ++ concat (alter (λ r, <[Z.to_nat j := t]> r) n b))).
    apply Forall_app. split; [done|]. by apply IH.
Qed.

(** Occupied cells are the X cells and the O cells. *)
Lemma filled_counts b :
  Forall symbol_cell (concat b) →
  filled b = (count_sym PlayerX b + count_sym PlayerO b)%nat.
Proof.
  unfold filled, count_sym. induction (concat b) as [|c l IH]; [done|].
  intros [Hc Hl]%Forall_cons. specialize (IH Hl). simpl.
  destruct Hc as [-> | [-> | ->]]; simpl; lia.
Qed.

Lemma filled_bound size b :
  0 ≤ size → board_ok size b → Z.of_nat (filled b) ≤ size * size.
Proof.
  intros Hsize [Hlen Hrows]. unfold filled.
  assert (length (concat b) = (length b * Z.to_nat size)%nat) as Hall.
  { clear Hlen. induction b as [|r b IH]; [done|].
    apply Forall_cons in Hrows as [Hr Hrows].
    simpl. rewrite length_app, Hr, IH by done. lia. }
  pose proof (List.filter_length_le (λ c, bool_decide (c ≠ Empty)) (concat b)).
  nia.
Qed.

Lemma filled_zero_empty b :
  filled b = 0%nat → Forall (λ c, c = Empty) (concat b).
Proof.
  unfold filled. induction (concat b) as [|c l IH]; [constructor|].
  simpl. case_bool_decide as Hc; simpl; [done|].
  intros Hl. constructor; [|by apply IH].
  by destruct (decide (c = Empty)).
Qed.

(** *** The second invariant *)

Lemma played_MatchInit modeParam now : played (MatchInit modeParam now).
Proof.
  pose proof (wf_MatchInit modeParam now) as Hwf. unfold MatchInit in *.
  destruct (decide (_ = GameModeAdvanced)) as [Hm|Hm];
    (split;
     [exact Hwf
     |simpl; by rewrite ?decide_True, ?decide_False by done
     |simpl; repeat constructor; by left
     |by left
     |intros _; left; by split
     |done
     |simpl; rewrite map_size_empty; lia]).
Qed.

(** The symbol [checkWinner] finds right after a move is the mover's. *)
Lemma winner_after_move m message d w :
  wf m → valid_move m message d →
  checkWinner (after_move m d) = Some w → w ≠ "" → w = Turn m.
Proof.
  intros Hwf Hv Hw Hne. rewrite (checkWinner_after_move m message d Hwf Hv) in Hw.
  destruct (spec_winner (Board (after_move m d)) (Size m)) as [x|] eqn:Hx;
    simpl in Hw; injection Hw as Hw; [|by subst w].
  subst x. apply spec_winner_Some in Hx as (l & Hl & Hx).
  by eapply (line_after_move m message d l w).
Qed.

Section Invariant.

Variable range_players : gmap string string → list (string * string).

Lemma handleMove_played m message m' effs :
  played m → handleMove range_players m message = Some (m', effs) → played m'.
Proof.
  intros Hpl Hh. pose proof (pl_wf m Hpl) as Hwf.
  pose proof (handleMove_wf range_players m message m' effs Hwf Hh) as Hwf'.
  apply handleMove_inv in Hh as [(reason & _ & -> & _)|(d & w & Hv & Hw & Hout)];
    [done|].
  pose proof Hv as (Hs & _ & Hr & Hc & _ & Hcell).
  assert (w ≠ "" → w = Turn m) as Hwt.
  { intros Hne. rewrite (checkWinner_after_move m message d Hwf Hv) in Hw.
    destruct (spec_winner (Board (after_move m d)) (Size m)) as [x|] eqn:Hx;
      simpl in Hw; injection Hw as Hw; [|by subst w].
    subst x. apply spec_winner_Some in Hx as (l & Hl & Hx).
    by eapply (line_after_move m message d l w). }
  assert (count_sym PlayerX (Board (after_move m d)) =
          (count_sym PlayerX (Board m)
           + if decide (Turn m = PlayerX) then 1 else 0)%nat) as HX
    by (by apply count_sym_set_cell).
  assert (count_sym PlayerO (Board (after_move m d)) =
          (count_sym PlayerO (Board m)
           + if decide (Turn m = PlayerO) then 1 else 0)%nat) as HO
    by (by apply count_sym_set_cell).
  assert (Forall symbol_cell (concat (Board (after_move m d)))) as Hcells.
  { apply cells_set_cell; [|apply (pl_cells m Hpl)].
    destruct (wf_turn m Hwf) as [-> | ->]; [right; by left|right; by right]. }
  assert ((Turn m = PlayerX ∧
           count_sym PlayerX (Board (after_move m d)) =
           S (count_sym PlayerO (Board (after_move m d))))
          ∨ (Turn m = PlayerO ∧
             count_sym PlayerX (Board (after_move m d)) =
             count_sym PlayerO (Board (after_move m d)))) as Hnow.
  { destruct (pl_turn m Hpl) as [[Ht Heq]|[Ht Heq]]; [by rewrite Hs|..];
      rewrite HX, HO, Ht; simpl; [left|right]; split; [done|lia|done|lia]. }
  pose proof (pl_mode m Hpl) as Hmode.
  destruct Hout as [(Hne & -> & _)|[(-> & _ & -> & _)|(-> & _ & -> & _)]].
  - split; simpl; [done|done|done| |done|intros _; by apply Hwt|apply Hpl].
    destruct Hnow as [[_ ?]|[_ ?]]; auto.
  - split; simpl; [done|done|done| |done| |apply Hpl].
    + destruct Hnow as [[_ ?]|[_ ?]]; auto.
    + intros Hne. destruct Hne.
      apply (wf_unfinished m Hwf). by rewrite Hs.
  - split; simpl; [done|done|done| | | |apply Hpl].
    + destruct Hnow as [[_ ?]|[_ ?]]; auto.
    + intros _. unfold other_symbol.
      destruct Hnow as [[Ht Hn]|[Ht Hn]]; rewrite Ht; simpl in Hn;
        rewrite Ht in Hn; simpl; [right|left]; by split.
    + intros Hne. destruct Hne.
      apply (wf_unfinished m Hwf). by rewrite Hs.
Qed.

Lemma MatchLoop_played m messages m' effs :
  played m → MatchLoop range_players m messages = Some (m', effs) → played m'.
Proof.
  revert m effs. induction messages as [|message rest IH]; intros m effs Hpl; simpl.
  - by intros [= <- <-].
  - case_decide; [|by apply IH].
    destruct (handleMove range_players m message) as [[m1 e1]|] eqn:H1; simpl; [|done].
    destruct (MatchLoop range_players m1 rest) as [[m2 e2]|] eqn:H2; simpl; [|done].
    intros [= <- <-]. eapply IH; [|done]. by eapply handleMove_played.
Qed.

Lemma step_played m c m' effs :
  played m → step range_players m c = Some (m', effs) → played m'.
Proof.
  intros Hpl Hstep.
  pose proof (step_wf range_players m c m' effs (pl_wf m Hpl) Hstep) as Hwf'.
  destruct c as [userId|presences|presences|messages|g|data]; simpl in Hstep.
  - injection Hstep as <- <-. revert Hwf'. unfold MatchJoinAttempt.
    case_decide; [done|]. case_decide as Hfin; [done|]. simpl.
    case_decide; intros Hwf';
      (split; simpl;
       [done|apply (pl_mode m Hpl)|apply (pl_cells m Hpl)|apply (pl_diff m Hpl)
       |intros _; apply (pl_turn m Hpl Hfin)|apply (pl_winner m Hpl)| ]).
    + destruct (Players m !! userId) eqn:Hu.
      * rewrite map_size_insert_Some by (by rewrite Hu). lia.
      * rewrite map_size_insert_None by done. lia.
    + destruct (Players m !! userId) eqn:Hu.
      * rewrite map_size_insert_Some by (by rewrite Hu). lia.
      * rewrite map_size_insert_None by done. lia.
  - by injection Hstep as <- <-.
  - injection Hstep as <- <-. revert Hwf'. unfold MatchLeave. simpl.
    case_decide; intros Hwf';
      (split; simpl;
       [done|apply (pl_mode m Hpl)|apply (pl_cells m Hpl)|apply (pl_diff m Hpl)
       | |apply (pl_winner m Hpl)
       |pose proof (foldl_delete_size (Players m) presences);
        pose proof (pl_players m Hpl); lia]);
      [done|apply (pl_turn m Hpl)].
  - by eapply MatchLoop_played.
  - revert Hstep. unfold MatchTerminate. case_decide; by intros [= <- <-].
  - by injection Hstep as <- <-.
Qed.

Lemma run_played m cs m' effs :
  played m → run range_players m cs = Some (m', effs) → played m'.
Proof.
  revert m effs. induction cs as [|c cs IH]; intros m effs Hpl; simpl.
  - by intros [= <- <-].
  - destruct (step range_players m c) as [[m1 e1]|] eqn:H1; simpl; [|done].
    destruct (run range_players m1 cs) as [[m2 e2]|] eqn:H2; simpl; [|done].
    intros [= <- <-]. eapply IH; [|done]. by eapply step_played.
Qed.

(** Every history of a match ends in a state of both invariants. *)
Lemma reachable_played modeParam now cs :
  ∃ m effs, run range_players (MatchInit modeParam now) cs = Some (m, effs) ∧ played m.
Proof.
  destruct (run_total range_players (MatchInit modeParam now) cs (wf_MatchInit _ _))
    as [[m effs] Hrun].
  exists m, effs. split; [done|]. eapply run_played; [apply played_MatchInit|done].
Qed.

(** X1. After any sequence of host calls on a fresh match the handler has
    not panicked and the state is consistent: the board is square with side 5
    for the advanced mode and 3 otherwise, every cell is empty, X or O,
    [MoveCount] is the number of occupied cells and at most [Size * Size], a
    full board means the match is finished, a winner is X or O and only a
    finished match has one, and there are never more than two players. *)
Theorem match_state_invariants modeParam now cs :
  ∃ m effs,
    run range_players (MatchInit modeParam now) cs = Some (m, effs)
    ∧ Size m = (if decide (Mode m = GameModeAdvanced) then 5 else 3)
    ∧ board_ok (Size m) (Board m)
    ∧ Forall symbol_cell (concat (Board m))
    ∧ MoveCount m = Z.of_nat (filled (Board m))
    ∧ 0 ≤ MoveCount m ≤ Size m * Size m
    ∧ (MoveCount m = Size m * Size m → State m = GameStateFinished)
    ∧ (Winner m ≠ "" →
       State m = GameStateFinished ∧ (Winner m = PlayerX ∨ Winner m = PlayerO))
    ∧ (size (Players m) ≤ 2)%nat.
Proof.
  destruct (reachable_played modeParam now cs) as (m & effs & Hrun & Hpl).
  pose proof (pl_wf m Hpl) as Hwf. pose proof (wf_size_pos m Hwf) as Hpos.
  exists m, effs. split; [done|]. split; [apply Hpl|]. split; [apply Hwf|].
  split; [apply Hpl|]. split; [apply Hwf|].
  pose proof (filled_bound (Size m) (Board m) ltac:(lia) (wf_board m Hwf)) as Hb.
  pose proof (wf_count m Hwf) as Hc.
  split; [lia|]. split; [|split; [|apply Hpl]].
  - intros Hfull. destruct (wf_state m Hwf) as [Hs|[Hs|Hs]]; [| |done].
    + destruct (wf_waiting m Hwf Hs). nia.
    + destruct (wf_playing m Hwf Hs). lia.
  - intros Hw. split.
    + destruct (decide (State m = GameStateFinished)) as [|Hs]; [done|].
      by destruct Hw; apply (wf_unfinished m Hwf).
    + rewrite (pl_winner m Hpl Hw). apply (wf_turn m Hwf).
Qed.

(** X2. X moves first and the players alternate: after any sequence of
    host calls the board holds as many X as O, or one X more; while the
    match is not finished X is on turn exactly when the counts are equal and
    O exactly when X has one more; and a winner is always the symbol left
    on turn, that of the last mover. *)
Theorem players_alternate modeParam now cs :
  ∃ m effs,
    run range_players (MatchInit modeParam now) cs = Some (m, effs)
    ∧ MoveCount m =
      Z.of_nat (count_sym PlayerX (Board m) + count_sym PlayerO (Board m))
    ∧ (count_sym PlayerX (Board m) = count_sym PlayerO (Board m)
       ∨ count_sym PlayerX (Board m) = S (count_sym PlayerO (Board m)))
    ∧ (State m ≠ GameStateFinished →
       (Turn m = PlayerX ↔ count_sym PlayerX (Board m) = count_sym PlayerO (Board m))
       ∧ (Turn m = PlayerO ↔
          count_sym PlayerX (Board m) = S (count_sym PlayerO (Board m))))
    ∧ (Winner m ≠ "" → Winner m = Turn m).
Proof.
  destruct (reachable_played modeParam now cs) as (m & effs & Hrun & Hpl).
  exists m, effs. split; [done|]. split; [|split; [apply Hpl|split; [|apply Hpl]]].
  - rewrite (wf_count m (pl_wf m Hpl)). f_equal. apply filled_counts, Hpl.
  - intros Hs. destruct (pl_turn m Hpl Hs) as [[Ht Hc]|[Ht Hc]]; rewrite Ht, Hc.
    + split; split; (done || lia).
    + split; split; (done || lia).
Qed.

(** X3. Until the second player is admitted nothing can be played: in
    every waiting state the board is empty, no move is counted, X is on
    turn, there is no winner and at most one player, and every move is
    answered with "Game is not in playing state" and changes nothing. *)
Theorem waiting_match_is_untouched modeParam now cs :
  ∃ m effs,
    run range_players (MatchInit modeParam now) cs = Some (m, effs)
    ∧ (State m = GameStateWaiting →
       Forall (λ c, c = Empty) (concat (Board m))
       ∧ MoveCount m = 0 ∧ Turn m = PlayerX ∧ Winner m = ""
       ∧ (size (Players m) ≤ 1)%nat
       ∧ ∀ message,
           handleMove range_players m message =
           Some (m, sendError "Game is not in playing state")).
Proof.
  destruct (reachable_played modeParam now cs) as (m & effs & Hrun & Hpl).
  pose proof (pl_wf m Hpl) as Hwf.
  exists m, effs. split; [done|]. intros Hs.
  destruct (wf_waiting m Hwf Hs) as [Hp Hzero].
  assert (filled (Board m) = 0%nat) as Hf
    by (pose proof (wf_count m Hwf); lia).
  split; [by apply filled_zero_empty|]. split; [done|]. split.
  { rewrite (filled_counts _ (pl_cells m Hpl)) in Hf.
    destruct (pl_turn m Hpl) as [[? _]|[_ ?]]; [by rewrite Hs|done|lia]. }
  split; [apply (wf_unfinished m Hwf); by rewrite Hs|]. split; [lia|].
  intros message. apply handleMove_rejected, rej_phase. by rewrite Hs.
Qed.

(** X4. Players are admitted exactly while the match is waiting: in every
    state a history can reach, [MatchJoinAttempt] accepts a user if and only
    if the phase is waiting, and a refusal leaves the state as it was. *)
Theorem admission_only_while_waiting modeParam now cs :
  ∃ m effs,
    run range_players (MatchInit modeParam now) cs = Some (m, effs)
    ∧ ∀ userId,
        ((MatchJoinAttempt m userId).1.2 = true ↔ State m = GameStateWaiting)
        ∧ ((MatchJoinAttempt m userId).1.2 = false →
           (MatchJoinAttempt m userId).1.1 = m
           ∧ ((MatchJoinAttempt m userId).2 = "Match is full"
              ∨ (MatchJoinAttempt m userId).2 = "Match is finished")).
Proof.
  destruct (reachable_played modeParam now cs) as (m & effs & Hrun & Hpl).
  pose proof (pl_wf m Hpl) as Hwf.
  exists m, effs. split; [done|]. intros userId. unfold MatchJoinAttempt.
  destruct (wf_state m Hwf) as [Hs|[Hs|Hs]].
  - destruct (wf_waiting m Hwf Hs) as [Hp _].
    rewrite decide_False by lia. rewrite decide_False by (by rewrite Hs). simpl.
    split; [done|]. done.
  - destruct (wf_playing m Hwf Hs) as [_ Hp].
    rewrite decide_True by lia. simpl. split; [|auto].
    split; [done|]. by rewrite Hs.
  - split.
    + case_decide; simpl; [|rewrite decide_True by done; simpl];
        (split; [done|]; by rewrite Hs).
    + case_decide; simpl; [auto|]. rewrite decide_True by done. simpl. auto.
Qed.

End Invariant.

(** X5. Symbols go by join order: on a fresh match the first user admitted
    gets X and the match keeps waiting; a second, different user gets O and
    the phase becomes playing, with X on turn and the board as created. *)
Theorem join_order_assigns_symbols modeParam now a b :
  a ≠ b →
  let m0 := MatchInit modeParam now in
  let m1 := (MatchJoinAttempt m0 a).1.1 in
  let m2 := (MatchJoinAttempt m1 b).1.1 in
  MatchJoinAttempt m0 a = (m1, true, "")
  ∧ Players m1 = {[a := PlayerX]} ∧ State m1 = GameStateWaiting
  ∧ MatchJoinAttempt m1 b = (m2, true, "")
  ∧ Players m2 = <[b := PlayerO]> {[a := PlayerX]}
  ∧ Players m2 !! a = Some PlayerX ∧ Players m2 !! b = Some PlayerO
  ∧ State m2 = GameStatePlaying ∧ Turn m2 = PlayerX
  ∧ Board m2 = Board m0 ∧ MoveCount m2 = 0.
Proof.
  intros Hab m0 m1 m2.
  assert (MatchJoinAttempt m0 a =
          (set_Players {[a := PlayerX]} m0, true, "")) as H1.
  { unfold MatchJoinAttempt, m0. simpl. rewrite map_size_empty. simpl.
    rewrite insert_empty, map_size_singleton. done. }
  assert (m1 = set_Players {[a := PlayerX]} m0) as Hm1 by (unfold m1; by rewrite H1).
  assert (MatchJoinAttempt m1 b =
          (set_State GameStatePlaying
             (set_Players (<[b := PlayerO]> {[a := PlayerX]}) m1), true, "")) as H2.
  { rewrite Hm1. unfold MatchJoinAttempt, m0. simpl.
    rewrite map_size_singleton. simpl.
    rewrite map_size_insert_None by (by rewrite lookup_singleton_ne).
    rewrite map_size_singleton. done. }
  assert (m2 = set_State GameStatePlaying
                 (set_Players (<[b := PlayerO]> {[a := PlayerX]}) m1)) as Hm2
    by (unfold m2; by rewrite H2).
  rewrite H2, <- Hm2, H1, <- Hm1. rewrite Hm2, Hm1. simpl.
  repeat split; try done.
  - rewrite lookup_insert_ne by done. by rewrite lookup_singleton_eq.
  - by rewrite lookup_insert_eq.
Qed.

(** Instance of X5. *)
Lemma join_order_assigns_symbols_witness :
  "a" ≠ "b"
  ∧ (MatchJoinAttempt (MatchJoinAttempt (MatchInit None 0) "a").1.1 "b").1.1
    = playing_ab.
Proof.
  assert ("a" ≠ "b") as Hab by discriminate.
  split; [exact Hab|].
  destruct (join_order_assigns_symbols None 0 "a" "b" Hab)
    as (_ & _ & _ & H2 & _).
  rewrite H2. vm_compute. reflexivity.
Defined.

(** X6. A user admitted twice blocks the match: when the first user is
    admitted a second time while the match waits, the user's symbol becomes
    O and the match keeps waiting; the next user also gets O and the phase
    becomes playing with X on turn.  Nobody holds X, so from then on every
    batch of messages leaves the state as it is and is answered by error
    messages only. *)
Theorem rejoining_user_blocks_the_match range_players modeParam now a b :
  a ≠ b →
  ∃ m,
    run range_players (MatchInit modeParam now)
      [CallJoinAttempt a; CallJoinAttempt a; CallJoinAttempt b] = Some (m, [])
    ∧ Players m = <[b := PlayerO]> {[a := PlayerO]}
    ∧ State m = GameStatePlaying ∧ Turn m = PlayerX
    ∧ ∀ messages, ∃ effs,
        MatchLoop range_players m messages = Some (m, effs)
        ∧ Forall (λ e, ∃ reason, [e] = sendError reason) effs.
Proof.
  intros Hab.
  set (m := set_State GameStatePlaying
              (set_Players (<[b := PlayerO]> {[a := PlayerO]})
                 (MatchInit modeParam now))).
  assert (run range_players (MatchInit modeParam now)
            [CallJoinAttempt a; CallJoinAttempt a; CallJoinAttempt b]
          = Some (m, [])) as Hrun.
  { simpl. unfold MatchJoinAttempt at 3. simpl. rewrite map_size_empty. simpl.
    rewrite insert_empty, map_size_singleton. simpl.
    unfold MatchJoinAttempt at 2. simpl. rewrite map_size_singleton. simpl.
    rewrite insert_singleton_eq, map_size_singleton. simpl.
    unfold MatchJoinAttempt. simpl. rewrite map_size_singleton. simpl.
    rewrite map_size_insert_None by (by rewrite lookup_singleton_ne).
    rewrite map_size_singleton. done. }
  exists m. split; [done|]. split; [done|]. split; [done|]. split; [done|].
  assert (wf m) as Hwf
    by (eapply run_wf; [apply (wf_MatchInit modeParam now)|exact Hrun]).
  assert (∀ message m' effs,
            handleMove range_players m message = Some (m', effs) →
            m' = m ∧ ∃ reason, effs = sendError reason) as Hstuck.
  { intros message m' effs Hh.
    apply handleMove_inv in Hh as [(reason & _ & -> & ->)|(d & w & Hv & _)]; [eauto|].
    exfalso. destruct Hv as (_ & _ & _ & _ & Hp & _). revert Hp. simpl.
    rewrite lookup_insert. case_decide; [done|].
    rewrite lookup_singleton. by case_decide. }
  induction messages as [|message rest (effs & IH & Herr)]; simpl.
  - exists []. by split.
  - case_decide; [|eauto].
    destruct (handleMove_total range_players m message Hwf) as [[m1 e1] H1].
    destruct (Hstuck _ _ _ H1) as (-> & reason & ->).
    rewrite H1. simpl. rewrite IH. simpl. eexists. split; [done|].
    constructor; [by exists reason|done].
Qed.

(** Instance of X6. *)
Lemma rejoining_user_blocks_the_match_witness :
  "a" ≠ "b"
  ∧ ∃ m,
      run map_to_list (MatchInit None 0)
        [CallJoinAttempt "a"; CallJoinAttempt "a"; CallJoinAttempt "b"]
        = Some (m, [])
      ∧ State m = GameStatePlaying
      ∧ ∃ effs,
          MatchLoop map_to_list m [move "a" 0 0; move "b" 0 0] = Some (m, effs).
Proof.
  assert ("a" ≠ "b") as Hab by discriminate.
  split; [exact Hab|].
  destruct (rejoining_user_blocks_the_match map_to_list None 0 "a" "b" Hab)
    as (m & Hrun & _ & Hs & _ & Hloop).
  destruct (Hloop [move "a" 0 0; move "b" 0 0]) as (effs & Hl & _).
  exists m. split; [exact Hrun|]. split; [exact Hs|]. exists effs. exact Hl.
Defined.

Section Histories.

Variable range_players : gmap string string → list (string * string).

Lemma handleMove_finished m message :
  State m = GameStateFinished →
  handleMove range_players m message =
  Some (m, sendError "Game is not in playing state").
Proof.
  intros Hs. apply handleMove_rejected, rej_phase. by rewrite Hs.
Qed.

Lemma MatchLoop_finished m messages :
  State m = GameStateFinished →
  ∃ effs, MatchLoop range_players m messages = Some (m, effs).
Proof.
  intros Hs. induction messages as [|message rest [effs IH]]; simpl; [eauto|].
  case_decide; [|eauto].
  rewrite handleMove_finished by done. simpl. rewrite IH. simpl. eauto.
Qed.

(** X7. A finished match is frozen: whatever the host calls afterwards,
    the handler returns, the phase stays finished, and board, turn, winner,
    move count, size and mode never change; the players can only become
    fewer. *)
Theorem finished_match_is_frozen m cs :
  State m = GameStateFinished →
  ∃ m' effs,
    run range_players m cs = Some (m', effs)
    ∧ State m' = GameStateFinished
    ∧ Board m' = Board m ∧ Turn m' = Turn m ∧ Winner m' = Winner m
    ∧ MoveCount m' = MoveCount m ∧ Size m' = Size m ∧ Mode m' = Mode m
    ∧ ∀ u s, Players m' !! u = Some s → Players m !! u = Some s.
Proof.
  revert m. induction cs as [|c cs IH]; intros m Hs.
  { exists m, []. by repeat split. }
  assert (∃ m1 e1, step range_players m c = Some (m1, e1)
            ∧ State m1 = GameStateFinished
            ∧ Board m1 = Board m ∧ Turn m1 = Turn m ∧ Winner m1 = Winner m
            ∧ MoveCount m1 = MoveCount m ∧ Size m1 = Size m ∧ Mode m1 = Mode m
            ∧ ∀ u s, Players m1 !! u = Some s → Players m !! u = Some s)
    as (m1 & e1 & Hstep & Hs1 & Hb & Ht & Hw & Hc & Hsz & Hmo & Hp).
  { destruct c as [userId|presences|presences|messages|g|data]; simpl.
    - assert ((MatchJoinAttempt m userId).1.1 = m) as ->.
      { unfold MatchJoinAttempt. case_decide; [done|]. by rewrite decide_True. }
      eexists _, _. by repeat split.
    - eexists _, _. by repeat split.
    - eexists _, _. split; [done|]. unfold MatchLeave. simpl.
      rewrite decide_False by (by rewrite Hs). simpl. repeat split; try done.
      intros u s. rewrite foldl_delete_lookup. by case_decide.
    - destruct (MatchLoop_finished m messages Hs) as [effs ->].
      eexists _, _. by repeat split.
    - unfold MatchTerminate. case_decide; eexists _, _; by repeat split.
    - eexists _, _. by repeat split. }
  destruct (IH m1 Hs1) as (m' & effs & Hrun & Hs' & Hb' & Ht' & Hw' & Hc' & Hsz' & Hmo' & Hp').
  exists m', (e1 ++ effs). simpl. rewrite Hstep. simpl. rewrite Hrun. simpl.
  repeat split; try congruence. intros u s Hu. by apply Hp, Hp'.
Qed.

Lemma MatchLoop_app m l1 l2 :
  MatchLoop range_players m (l1 ++ l2) =
  '(m1, e1) ← MatchLoop range_players m l1;
  '(m2, e2) ← MatchLoop range_players m1 l2;
  Some (m2, e1 ++ e2).
Proof.
  revert m. induction l1 as [|message l1 IH]; intros m; simpl.
  - by destruct (MatchLoop range_players m l2) as [[m2 e2]|].
  - case_decide; [|apply IH].
    destruct (handleMove range_players m message) as [[m1 e1]|]; simpl; [|done].
    rewrite IH.
    destruct (MatchLoop range_players m1 l1) as [[m2 e2]|]; simpl; [|done].
    destruct (MatchLoop range_players m2 l2) as [[m3 e3]|]; simpl; [|done].
    by rewrite app_assoc.
Qed.

Lemma run_app m cs1 cs2 :
  run range_players m (cs1 ++ cs2) =
  '(m1, e1) ← run range_players m cs1;
  '(m2, e2) ← run range_players m1 cs2;
  Some (m2, e1 ++ e2).
Proof.
  revert m. induction cs1 as [|c cs1 IH]; intros m; simpl.
  - by destruct (run range_players m cs2) as [[m2 e2]|].
  - destruct (step range_players m c) as [[m1 e1]|]; simpl; [|done].
    rewrite IH.
    destruct (run range_players m1 cs1) as [[m2 e2]|]; simpl; [|done].
    destruct (run range_players m2 cs2) as [[m3 e3]|]; simpl; [|done].
    by rewrite app_assoc.
Qed.

(** X8. Batching does not matter: the messages of one [MatchLoop] call
    may as well arrive in two consecutive calls, the resulting state and the
    calls made to the host are the same; and messages whose opcode is not
    the move opcode are skipped without a trace. *)
Theorem match_loop_batching m l1 l2 :
  run range_players m [CallLoop (l1 ++ l2)] =
  run range_players m [CallLoop l1; CallLoop l2]
  ∧ MatchLoop range_players m l1 =
    MatchLoop range_players m (List.filter is_move l1).
Proof.
  split.
  - simpl. rewrite MatchLoop_app.
    destruct (MatchLoop range_players m l1) as [[m1 e1]|]; simpl; [|done].
    destruct (MatchLoop range_players m1 l2) as [[m2 e2]|]; simpl; [|done].
    by rewrite !app_nil_r.
  - revert m. induction l1 as [|message l1 IH]; intros m; [done|].
    simpl. unfold is_move at 1. case_bool_decide as Hop.
    + simpl. rewrite decide_True by done. rewrite decide_True by done.
      destruct (handleMove range_players m message) as [[m1 e1]|]; simpl; [|done].
      by rewrite IH.
    + rewrite decide_False by done. apply IH.
Qed.

Lemma broadcasts_app e1 e2 : broadcasts (e1 ++ e2) = broadcasts e1 ++ broadcasts e2.
Proof. apply List.filter_app. Qed.

Lemma broadcasts_updateLeaderboard m :
  broadcasts (updateLeaderboard range_players m) = [].
Proof.
  unfold updateLeaderboard.
  induction (range_players (Players m)) as [|[k v] l IH]; [done|].
  change (flat_map (report (Winner m)) ((k, v) :: l))
    with (report (Winner m) (k, v) ++ flat_map (report (Winner m)) l).
  rewrite broadcasts_app, IH. unfold report. by repeat case_decide.
Qed.

Lemma handleMove_one_broadcast m message m' effs :
  handleMove range_players m message = Some (m', effs) →
  ∃ opcode data,
    broadcasts effs = [BroadcastMessage opcode data None true]
    ∧ last effs = Some (BroadcastMessage opcode data None true)
    ∧ ((opcode = OpcodeError ∧ m' = m)
       ∨ (opcode = OpcodeState ∧ data = PState (stateData m'))).
Proof.
  intros Hh.
  apply handleMove_inv in Hh as [(reason & _ & -> & ->)|(d & w & _ & _ & Hout)].
  { eexists _, _. split; [done|]. split; [done|]. by left. }
  exists OpcodeState, (PState (stateData m')).
  destruct Hout as [(_ & _ & ->)|[(_ & _ & _ & ->)|(_ & _ & _ & ->)]].
  - rewrite broadcasts_app, broadcasts_updateLeaderboard, last_snoc. auto.
  - rewrite broadcasts_app, broadcasts_updateLeaderboard, last_snoc. auto.
  - auto.
Qed.

(** X9. Every move message gets exactly one answer, sent to the whole
    match: a batch of messages produces as many broadcasts as it holds move
    messages, each with [presences = nil] and the reliable flag, and each
    either an error or a state snapshot. *)
Theorem one_broadcast_per_move m messages :
  wf m →
  ∃ m' effs,
    MatchLoop range_players m messages = Some (m', effs)
    ∧ length (broadcasts effs) = length (List.filter is_move messages)
    ∧ Forall (λ e, ∃ opcode data,
                e = BroadcastMessage opcode data None true
                ∧ (opcode = OpcodeError ∨ opcode = OpcodeState))
        (broadcasts effs).
Proof.
  revert m. induction messages as [|message rest IH]; intros m Hwf; simpl.
  { exists m, []. by repeat split. }
  unfold is_move at 1. case_bool_decide as Hop; cycle 1.
  { rewrite decide_False by done. by apply IH. }
  rewrite decide_True by done.
  destruct (handleMove_total range_players m message Hwf) as [[m1 e1] H1].
  rewrite H1. simpl.
  destruct (IH m1) as (m2 & e2 & H2 & Hlen & Hall);
    [by eapply handleMove_wf|].
  rewrite H2. simpl. exists m2, (e1 ++ e2). split; [done|].
  destruct (handleMove_one_broadcast _ _ _ _ H1) as (op & data & Hb & _ & Hop').
  rewrite broadcasts_app, Hb. simpl. split; [by rewrite Hlen|].
  constructor; [|done]. exists op, data. split; [done|].
  destruct Hop' as [[-> _]|[-> _]]; auto.
Qed.

End Histories.

(** Instance of X7: the match "a" has left. *)
Lemma finished_match_is_frozen_witness :
  State (MatchLeave playing_ab ["a"]) = GameStateFinished
  ∧ ∃ m' effs,
      run map_to_list (MatchLeave playing_ab ["a"])
        [CallLoop [move "b" 0 0]; CallJoinAttempt "c"; CallTerminate 0]
        = Some (m', effs)
      ∧ Board m' = Board playing_ab.
Proof.
  split; [reflexivity|].
  destruct (finished_match_is_frozen map_to_list (MatchLeave playing_ab ["a"])
              [CallLoop [move "b" 0 0]; CallJoinAttempt "c"; CallTerminate 0]
              eq_refl) as (m' & effs & Hrun & _ & Hb & _).
  exists m', effs. split; [exact Hrun|exact Hb].
Defined.

(** Instance of X9. *)
Lemma one_broadcast_per_move_witness :
  wf playing_ab
  ∧ ∃ m' effs,
      MatchLoop map_to_list playing_ab
        [move "a" 0 0; move "a" 1 1;
         {| UserId := "b"; OpCode := OpcodeState; Data := None |}; move "b" 1 1]
        = Some (m', effs)
      ∧ length (broadcasts effs) = 3%nat.
Proof.
  split; [exact wf_playing_ab|].
  destruct (one_broadcast_per_move map_to_list playing_ab
              [move "a" 0 0; move "a" 1 1;
               {| UserId := "b"; OpCode := OpcodeState; Data := None |};
               move "b" 1 1] wf_playing_ab) as (m' & effs & Hl & Hlen & _).
  exists m', effs. split; [exact Hl|]. rewrite Hlen. reflexivity.
Defined.

(** X10. The move that wins is scored at once: [handleMove] reports a
    win (score 10, won) for every player holding the mover's symbol, the
    sender of the move among them, a loss (score -5, lost) for the other
    player, and nothing for anyone else. *)
Theorem winning_move_reports_win_and_loss range_players m message d m' effs :
  (∀ p, range_players p ≡ₚ map_to_list p) →
  wf m → valid_move m message d →
  handleMove range_players m message = Some (m', effs) →
  Winner m' ≠ "" →
  Winner m' = Turn m
  ∧ reports_for (UserId message) effs = win_report (UserId message)
  ∧ (∀ u s, Players m !! u = Some s →
            reports_for u effs =
            if decide (s = Turn m) then win_report u else loss_report u)
  ∧ (∀ u, Players m !! u = None → reports_for u effs = []).
Proof.
  intros Hperm Hwf Hv Hh Hw.
  pose proof Hv as (Hs & _ & _ & _ & Hp & _).
  pose proof (wf_unfinished m Hwf) as Hwin. rewrite Hs in Hwin.
  specialize (Hwin ltac:(done)).
  apply handleMove_inv in Hh as [(reason & _ & -> & _)|(d' & w & Hv' & Hcw & Hout)];
    [done|].
  assert (d' = d) as -> by (destruct Hv as (_ & ? & _), Hv' as (_ & ? & _); congruence).
  destruct Hout as [(Hne & -> & ->)|[(-> & _ & -> & _)|(-> & _ & -> & _)]];
    [|simpl in Hw; by rewrite Hwin in Hw..].
  pose proof (winner_after_move m message d w Hwf Hv Hcw Hne) as ->.
  assert (∀ u, reports_for u
                 (updateLeaderboard range_players
                    (set_State GameStateFinished (set_Winner (Turn m) (after_move m d)))
                  ++ [state_broadcast
                        (set_State GameStateFinished
                           (set_Winner (Turn m) (after_move m d)))])
               = match Players m !! u with
                 | Some s => report (Turn m) (u, s)
                 | None => []
                 end) as Hrep.
  { intros u. rewrite reports_for_app, (reports_for_updateLeaderboard _ Hperm).
    simpl. by rewrite app_nil_r. }
  assert (∀ u s, Players m !! u = Some s →
            report (Turn m) (u, s) =
            if decide (s = Turn m) then win_report u else loss_report u) as Hcase.
  { intros u s Hu. unfold report.
    destruct (decide (s = Turn m)) as [->|Hne'].
    - by rewrite decide_True.
    - rewrite (decide_False (P := Turn m = s)) by (by intros <-).
      rewrite (decide_False (P := Turn m = "")) by done. done. }
  split; [done|]. split; [|split].
  - rewrite Hrep, Hp, (Hcase _ _ Hp). by rewrite decide_True.
  - intros u s Hu. by rewrite Hrep, Hu, (Hcase _ _ Hu).
  - intros u Hu. by rewrite Hrep, Hu.
Qed.

(** Instance of X10: X completes the top row. *)
Lemma winning_move_reports_win_and_loss_witness :
  wf before_row_win
  ∧ valid_move before_row_win (move "a" 0 2) {| Row := 0; Col := 2 |}
  ∧ ∃ m' effs,
      handleMove map_to_list before_row_win (move "a" 0 2) = Some (m', effs)
      ∧ Winner m' ≠ ""
      ∧ reports_for "a" effs = win_report "a"
      ∧ reports_for "b" effs = loss_report "b".
Proof.
  assert (valid_move before_row_win (move "a" 0 2) {| Row := 0; Col := 2 |}) as Hv.
  { unfold valid_move. simpl. repeat split; lia || (vm_compute; reflexivity). }
  split; [exact wf_before_row_win|]. split; [exact Hv|].
  destruct (handleMove map_to_list before_row_win (move "a" 0 2))
    as [[m' effs]|] eqn:Hh; [|vm_compute in Hh; discriminate Hh].
  exists m', effs. split; [reflexivity|].
  pose proof Hh as Hc. vm_compute in Hc. injection Hc as Hm _.
  assert (Winner m' ≠ "") as Hw by (rewrite <- Hm; simpl; discriminate).
  split; [exact Hw|].
  destruct (winning_move_reports_win_and_loss map_to_list before_row_win
              (move "a" 0 2) _ m' effs (λ p, reflexivity _) wf_before_row_win
              Hv Hh Hw) as (_ & Ha & Hall & _).
  split; [exact Ha|].
  assert (Players before_row_win !! "b" = Some PlayerO) as Hb
    by (vm_compute; reflexivity).
  rewrite (Hall "b" PlayerO Hb). reflexivity.
Defined.

Lemma set_Players_same m : set_Players (Players m) m = m.
Proof. by destruct m. Qed.

Lemma foldl_delete_absent (p : gmap string string) us :
  (∀ u, u ∈ us → p !! u = None) →
  foldl (λ p u, delete u p) p us = p.
Proof.
  intros Habs. apply map_eq. intros k. rewrite foldl_delete_lookup.
  case_decide; [by rewrite Habs|done].
Qed.

(** X11. What leaving does.  The users named are removed from the players
    and nobody else is; a playing match becomes finished at any leave call,
    even one that names nobody or only strangers, and in any other phase the
    phase is kept; outside the playing phase a leave that names only users
    who are not players changes nothing at all; leaving twice is the same as
    leaving once, and one call for two lists is the same as two calls. *)
Theorem leave_behaviour m ps ps' :
  (∀ u, Players (MatchLeave m ps) !! u =
        if decide (u ∈ ps) then None else Players m !! u)
  ∧ (State m = GameStatePlaying → State (MatchLeave m ps) = GameStateFinished)
  ∧ (State m ≠ GameStatePlaying → State (MatchLeave m ps) = State m)
  ∧ (State m ≠ GameStatePlaying → (∀ u, u ∈ ps → Players m !! u = None) →
     MatchLeave m ps = m)
  ∧ MatchLeave (MatchLeave m ps) ps = MatchLeave m ps
  ∧ MatchLeave m (ps ++ ps') = MatchLeave (MatchLeave m ps) ps'
  ∧ (Board (MatchLeave m ps) = Board m ∧ Turn (MatchLeave m ps) = Turn m
     ∧ Winner (MatchLeave m ps) = Winner m
     ∧ MoveCount (MatchLeave m ps) = MoveCount m).
Proof.
  assert (∀ q, (∀ u, u ∈ ps → q !! u = None) →
            foldl (λ p u, delete u p) q ps = q) as Habs
    by (intros q; apply foldl_delete_absent).
  assert (foldl (λ p u, delete u p)
            (foldl (λ p u, delete u p) (Players m) ps) ps
          = foldl (λ p u, delete u p) (Players m) ps) as Hidem.
  { apply Habs. intros u Hu. rewrite foldl_delete_lookup. by rewrite decide_True. }
  split; [|split; [|split; [|split; [|split; [|split]]]]].
  - intros u. unfold MatchLeave. simpl.
    case_decide; simpl; apply foldl_delete_lookup.
  - intros Hs. unfold MatchLeave. simpl. by rewrite decide_True.
  - intros Hs. unfold MatchLeave. simpl. by rewrite decide_False.
  - intros Hs Hnone. unfold MatchLeave. simpl. rewrite decide_False by done.
    rewrite foldl_delete_absent by done. apply set_Players_same.
  - unfold MatchLeave. simpl. destruct (decide (State m = GameStatePlaying)).
    + simpl. unfold set_Players, set_State. simpl. by rewrite Hidem.
    + simpl. rewrite decide_False by done. unfold set_Players. simpl.
      by rewrite Hidem.
  - unfold MatchLeave. simpl. rewrite foldl_app.
    destruct (decide (State m = GameStatePlaying)); simpl.
    + done.
    + by rewrite decide_False by done.
  - unfold MatchLeave. simpl. by case_decide.
Qed.

Section Scoring.

Variable range_players : gmap string string → list (string * string).

Lemma scoring_app e1 e2 : scoring (e1 ++ e2) = scoring e1 ++ scoring e2.
Proof. apply List.filter_app. Qed.

Lemma report_seq_app l1 l2 : report_seq l1 → report_seq l2 → report_seq (l1 ++ l2).
Proof.
  induction 1 as [|u l _ IH|u l _ IH|u l _ IH]; intros H2; [done|..];
    rewrite <- app_assoc; constructor; by apply IH.
Qed.

Lemma report_cases w k v :
  report w (k, v) = win_report k ∨ report w (k, v) = draw_report k
  ∨ report w (k, v) = loss_report k.
Proof. unfold report. repeat case_decide; auto. Qed.

Lemma scoring_updateLeaderboard m :
  scoring (updateLeaderboard range_players m) = updateLeaderboard range_players m
  ∧ report_seq (updateLeaderboard range_players m).
Proof.
  unfold updateLeaderboard.
  induction (range_players (Players m)) as [|[k v] l [IH1 IH2]]; [by split; [|constructor]|].
  change (flat_map (report (Winner m)) ((k, v) :: l))
    with (report (Winner m) (k, v) ++ flat_map (report (Winner m)) l).
  rewrite scoring_app, IH1.
  destruct (report_cases (Winner m) k v) as [-> | [-> | ->]]; (split; [done|]).
  - exact (report_seq_win k _ IH2).
  - exact (report_seq_draw k _ IH2).
  - exact (report_seq_loss k _ IH2).
Qed.

Lemma handleMove_scoring m message m' effs :
  handleMove range_players m message = Some (m', effs) →
  report_seq (scoring effs)
  ∧ (State m' ≠ GameStateFinished → State m ≠ GameStateFinished ∧ scoring effs = []).
Proof.
  intros Hh.
  apply handleMove_inv in Hh as [(reason & _ & -> & ->)|(d & w & Hv & _ & Hout)].
  { split; [constructor|]. done. }
  destruct Hv as (Hs & _).
  destruct Hout as [(_ & -> & ->)|[(_ & _ & -> & ->)|(_ & _ & -> & ->)]].
  - rewrite scoring_app. simpl. rewrite app_nil_r.
    destruct (scoring_updateLeaderboard
                (set_State GameStateFinished (set_Winner w (after_move m d))))
      as [-> ?]. done.
  - rewrite scoring_app. simpl. rewrite app_nil_r.
    destruct (scoring_updateLeaderboard (set_State GameStateFinished (after_move m d)))
      as [-> ?]. done.
  - split; [constructor|]. intros _. split; [by rewrite Hs|done].
Qed.

Lemma MatchLoop_scoring m messages m' effs :
  MatchLoop range_players m messages = Some (m', effs) →
  report_seq (scoring effs)
  ∧ (State m' ≠ GameStateFinished → State m ≠ GameStateFinished ∧ scoring effs = []).
Proof.
  revert m effs. induction messages as [|message rest IH]; intros m effs; simpl.
  - intros [= <- <-]. split; [constructor|done].
  - case_decide; [|by apply IH].
    destruct (handleMove range_players m message) as [[m1 e1]|] eqn:H1; simpl; [|done].
    destruct (MatchLoop range_players m1 rest) as [[m2 e2]|] eqn:H2; simpl; [|done].
    intros [= <- <-].
    destruct (handleMove_scoring _ _ _ _ H1) as [Hr1 Hq1].
    destruct (IH _ _ H2) as [Hr2 Hq2].
    rewrite scoring_app. split; [by apply report_seq_app|].
    intros Hs. destruct (Hq2 Hs) as [Hs1 ->]. destruct (Hq1 Hs1) as [Hs0 ->]. done.
Qed.

Lemma step_scoring m c m' effs :
  step range_players m c = Some (m', effs) →
  report_seq (scoring effs)
  ∧ (State m' ≠ GameStateFinished → State m ≠ GameStateFinished ∧ scoring effs = []).
Proof.
  destruct c as [userId|presences|presences|messages|g|data]; simpl.
  - intros [= <- <-]. split; [constructor|]. unfold MatchJoinAttempt.
    case_decide; [done|]. case_decide; [done|]. done.
  - intros [= <- <-]. unfold MatchJoin. simpl. rewrite scoring_app. simpl.
    rewrite app_nil_r.
    assert (scoring (map (λ presence,
                       BroadcastMessage OpcodeMatchFound
                         (PMatchFound {| mf_MatchID := ID m; mf_Mode := Mode m |})
                         (Some [presence]) false) presences) = []) as ->
      by (induction presences; done).
    split; [constructor|done].
  - intros [= <- <-]. split; [constructor|]. unfold MatchLeave. simpl.
    case_decide as Hs; simpl; [done|]. done.
  - apply MatchLoop_scoring.
  - unfold MatchTerminate. case_decide as Hf; intros [= <- <-].
    + destruct (scoring_updateLeaderboard m) as [-> ?]. split; [done|].
      by destruct Hf.
    + split; [constructor|done].
  - intros [= <- <-]. split; [constructor|done].
Qed.

Lemma run_scoring m cs m' effs :
  run range_players m cs = Some (m', effs) →
  report_seq (scoring effs)
  ∧ (State m' ≠ GameStateFinished → State m ≠ GameStateFinished ∧ scoring effs = []).
Proof.
  revert m effs. induction cs as [|c cs IH]; intros m effs; simpl.
  - intros [= <- <-]. split; [constructor|done].
  - destruct (step range_players m c) as [[m1 e1]|] eqn:H1; simpl; [|done].
    destruct (run range_players m1 cs) as [[m2 e2]|] eqn:H2; simpl; [|done].
    intros [= <- <-].
    destruct (step_scoring _ _ _ _ H1) as [Hr1 Hq1].
    destruct (IH _ _ H2) as [Hr2 Hq2].
    rewrite scoring_app. split; [by apply report_seq_app|].
    intros Hs. destruct (Hq2 Hs) as [Hs1 ->]. destruct (Hq1 Hs1) as [Hs0 ->]. done.
Qed.

(** X12. The scoring collaborator is called for finished matches only and
    in whole reports only: in every history of a match the scoring calls,
    taken in order, are a sequence of reports, each a leaderboard write of
    10, 1 or -5 followed at once by the statistics update of the same user
    with the matching flag; and as long as the match is not finished no
    scoring call has been made. *)
Theorem scoring_only_whole_reports_after_finish modeParam now cs :
  ∃ m effs,
    run range_players (MatchInit modeParam now) cs = Some (m, effs)
    ∧ report_seq (scoring effs)
    ∧ (State m ≠ GameStateFinished → scoring effs = []).
Proof.
  destruct (run_total range_players (MatchInit modeParam now) cs (wf_MatchInit _ _))
    as [[m effs] Hrun].
  exists m, effs. split; [done|].
  destruct (run_scoring _ _ _ _ Hrun) as [Hr Hq].
  split; [done|]. intros Hs. by destruct (Hq Hs).
Qed.

End Scoring.

Section Lines.

Variable range_players : gmap string string → list (string * string).

Lemma lines_won_ext m m' :
  Size m' = Size m → Board m' = Board m → Winner m' = Winner m →
  lines_won m → lines_won m'.
Proof. unfold lines_won. intros -> -> ->. done. Qed.

Lemma handleMove_lines m message m' effs :
  wf m → lines_won m →
  handleMove range_players m message = Some (m', effs) → lines_won m'.
Proof.
  intros Hwf Hl Hh.
  apply handleMove_inv in Hh as [(reason & _ & -> & _)|(d & w & Hv & Hw & Hout)];
    [done|].
  assert (w = "" →
          ∀ l, l ∈ all_lines (Size m) →
               line_symbol (Board (after_move m d)) l = None) as Hnone.
  { intros ->. rewrite (checkWinner_after_move m message d Hwf Hv) in Hw.
    destruct (spec_winner (Board (after_move m d)) (Size m)) as [x|] eqn:Hx.
    - simpl in Hw. injection Hw as ->.
      apply spec_winner_Some in Hx as (l' & _ & (_ & Hne & _)%line_symbol_Some).
      done.
    - intros l. by apply spec_winner_None. }
  destruct Hout as [(Hne & -> & _)|[(-> & _ & -> & _)|(-> & _ & -> & _)]];
    intros l t Hin Ht; simpl in *.
  - rewrite (winner_after_move m message d w Hwf Hv Hw Hne).
    by apply (line_after_move m message d l t).
  - by rewrite (Hnone eq_refl l Hin) in Ht.
  - by rewrite (Hnone eq_refl l Hin) in Ht.
Qed.

Lemma MatchLoop_lines m messages m' effs :
  wf m → lines_won m →
  MatchLoop range_players m messages = Some (m', effs) → lines_won m'.
Proof.
  revert m effs. induction messages as [|message rest IH]; intros m effs Hwf Hl; simpl.
  - by intros [= <- <-].
  - case_decide; [|by apply IH].
    destruct (handleMove range_players m message) as [[m1 e1]|] eqn:H1; simpl; [|done].
    destruct (MatchLoop range_players m1 rest) as [[m2 e2]|] eqn:H2; simpl; [|done].
    intros [= <- <-]. eapply IH; [| |done].
    + by eapply handleMove_wf.
    + by eapply handleMove_lines.
Qed.

Lemma step_lines m c m' effs :
  wf m → lines_won m → step range_players m c = Some (m', effs) → lines_won m'.
Proof.
  intros Hwf Hl. destruct c as [userId|presences|presences|messages|g|data]; simpl.
  - intros [= <- <-]. apply (lines_won_ext m); [..|done];
      unfold MatchJoinAttempt; by repeat case_decide.
  - by intros [= <- <-].
  - intros [= <- <-]. apply (lines_won_ext m); [..|done];
      unfold MatchLeave; by repeat case_decide.
  - by apply MatchLoop_lines.
  - unfold MatchTerminate. case_decide; by intros [= <- <-].
  - by intros [= <- <-].
Qed.

Lemma run_lines m cs m' effs :
  wf m → lines_won m → run range_players m cs = Some (m', effs) → lines_won m'.
Proof.
  revert m effs. induction cs as [|c cs IH]; intros m effs Hwf Hl; simpl.
  - by intros [= <- <-].
  - destruct (step range_players m c) as [[m1 e1]|] eqn:H1; simpl; [|done].
    destruct (run range_players m1 cs) as [[m2 e2]|] eqn:H2; simpl; [|done].
    intros [= <- <-]. eapply IH; [| |done].
    + by eapply step_wf.
    + by eapply step_lines.
Qed.

(** X18. The recorded winner is the owner of the full lines of the board:
    after any sequence of host calls on a fresh match, every full line (row,
    column or diagonal of identical non-empty symbols) holds the symbol in
    [Winner] and the match is finished, so no board ever shows full lines of
    both symbols; and a non-empty [Winner] has a full line on the board. *)
Theorem full_lines_belong_to_the_winner modeParam now cs :
  ∃ m effs,
    run range_players (MatchInit modeParam now) cs = Some (m, effs)
    ∧ (∀ l t, l ∈ all_lines (Size m) → line_symbol (Board m) l = Some t →
              t = Winner m ∧ State m = GameStateFinished)
    ∧ (Winner m ≠ "" →
       ∃ l, l ∈ all_lines (Size m) ∧ line_symbol (Board m) l = Some (Winner m)).
Proof.
  pose proof (wf_MatchInit modeParam now) as Hwf0.
  destruct (run_total range_players (MatchInit modeParam now) cs Hwf0)
    as [[m effs] Hrun].
  pose proof (run_wf range_players _ _ _ _ Hwf0 Hrun) as Hwf.
  assert (lines_won (MatchInit modeParam now)) as Hl0.
  { intros l t Hin Ht.
    by rewrite (no_line_before_finish _ l Hwf0) in Ht. }
  pose proof (run_lines _ _ _ _ Hwf0 Hl0 Hrun) as Hl.
  exists m, effs. split; [done|]. split.
  - intros l t Hin Ht. split; [by apply (Hl l t)|].
    destruct (decide (State m = GameStateFinished)) as [|Hs]; [done|].
    by rewrite (no_line_before_finish m l Hwf Hs Hin) in Ht.
  - intros Hne. pose proof (wf_winner m Hwf) as Hw.
    rewrite checkWinner_spec in Hw by (apply wf_size_pos || apply wf_board; done).
    destruct (spec_winner (Board m) (Size m)) as [x|] eqn:Hx;
      simpl in Hw; injection Hw as Hw; [|by destruct Hne].
    rewrite <- Hw. by apply spec_winner_Some.
Qed.

Lemma match_found_updateLeaderboard m :
  omap match_found (updateLeaderboard range_players m) = [].
Proof.
  unfold updateLeaderboard.
  induction (range_players (Players m)) as [|[k v] l IH]; [done|].
  change (flat_map (report (Winner m)) ((k, v) :: l))
    with (report (Winner m) (k, v) ++ flat_map (report (Winner m)) l).
  rewrite omap_app, IH.
  by destruct (report_cases (Winner m) k v) as [-> | [-> | ->]].
Qed.

Lemma handleMove_identity m message m' effs :
  handleMove range_players m message = Some (m', effs) →
  ID m' = ID m ∧ Mode m' = Mode m ∧ CreatedAt m' = CreatedAt m
  ∧ omap match_found effs = [].
Proof.
  intros Hh.
  apply handleMove_inv in Hh as [(reason & _ & -> & ->)|(d & w & _ & _ & Hout)];
    [done|].
  destruct Hout as [(_ & -> & ->)|[(_ & _ & -> & ->)|(_ & _ & -> & ->)]];
    rewrite ?omap_app, ?match_found_updateLeaderboard; done.
Qed.

Lemma MatchLoop_identity m messages m' effs :
  MatchLoop range_players m messages = Some (m', effs) →
  ID m' = ID m ∧ Mode m' = Mode m ∧ CreatedAt m' = CreatedAt m
  ∧ omap match_found effs = [].
Proof.
  revert m effs. induction messages as [|message rest IH]; intros m effs; simpl.
  - by intros [= <- <-].
  - case_decide; [|by apply IH].
    destruct (handleMove range_players m message) as [[m1 e1]|] eqn:H1; simpl; [|done].
    destruct (MatchLoop range_players m1 rest) as [[m2 e2]|] eqn:H2; simpl; [|done].
    intros [= <- <-].
    destruct (IH _ _ H2) as (-> & -> & -> & He2).
    destruct (handleMove_identity _ _ _ _ H1) as (-> & -> & -> & He1).
    by rewrite omap_app, He1, He2.
Qed.

Lemma step_identity m c m' effs :
  step range_players m c = Some (m', effs) →
  ID m' = ID m ∧ Mode m' = Mode m ∧ CreatedAt m' = CreatedAt m
  ∧ omap match_found effs =
    (λ u, (Some [u], {| mf_MatchID := ID m; mf_Mode := Mode m |})) <$> joined [c].
Proof.
  destruct c as [userId|presences|presences|messages|g|data]; simpl.
  - intros [= <- <-]. unfold MatchJoinAttempt. by repeat case_decide.
  - intros [= <- <-]. rewrite app_nil_r, omap_app. simpl. rewrite app_nil_r.
    split; [done|]. split; [done|]. split; [done|].
    induction presences as [|u ps IH]; [done|]. simpl in *. by f_equal.
  - intros [= <- <-]. unfold MatchLeave. by repeat case_decide.
  - apply MatchLoop_identity.
  - unfold MatchTerminate. case_decide; intros [= <- <-];
      by rewrite ?match_found_updateLeaderboard.
  - by intros [= <- <-].
Qed.

Lemma joined_cons c cs : joined (c :: cs) = joined [c] ++ joined cs.
Proof. unfold joined. simpl. by rewrite app_nil_r. Qed.

Lemma run_identity m cs m' effs :
  run range_players m cs = Some (m', effs) →
  ID m' = ID m ∧ Mode m' = Mode m ∧ CreatedAt m' = CreatedAt m
  ∧ omap match_found effs =
    (λ u, (Some [u], {| mf_MatchID := ID m; mf_Mode := Mode m |})) <$> joined cs.
Proof.
  revert m effs. induction cs as [|c cs IH]; intros m effs; cbn -[joined step].
  - by intros [= <- <-].
  - destruct (step range_players m c) as [[m1 e1]|] eqn:H1; cbn -[joined step]; [|done].
    destruct (run range_players m1 cs) as [[m2 e2]|] eqn:H2; cbn -[joined step]; [|done].
    intros [= <- <-].
    destruct (step_identity _ _ _ _ H1) as (Hi & Hm & Hc & He1).
    destruct (IH _ _ H2) as (-> & -> & -> & He2).
    split; [done|]. split; [done|]. split; [done|].
    by rewrite omap_app, He1, He2, Hi, Hm, (joined_cons c cs), fmap_app.
Qed.

(** X19. No handler ever sets [ID]: after any sequence of host calls on a
    fresh match the id is still empty and the mode and the creation time are
    those of [MatchInit]; the match-found notices of the history are one per
    presence handed to [MatchJoin], in order, each addressed to that presence
    alone and carrying the empty match id and the mode of the match. *)
Theorem match_found_carries_no_match_id modeParam now cs :
  ∃ m effs,
    run range_players (MatchInit modeParam now) cs = Some (m, effs)
    ∧ ID m = ""
    ∧ Mode m = default GameModeClassic modeParam
    ∧ CreatedAt m = now
    ∧ omap match_found effs =
      (λ u, (Some [u], {| mf_MatchID := ""; mf_Mode := Mode m |})) <$> joined cs.
Proof.
  destruct (run_total range_players (MatchInit modeParam now) cs (wf_MatchInit _ _))
    as [[m effs] Hrun].
  exists m, effs. split; [done|].
  destruct (run_identity _ _ _ _ Hrun) as (Hi & Hm & Hc & He).
  rewrite Hi, Hm, Hc, He. by destruct modeParam.
Qed.

End Lines.

End MatchExtras.

(** * Further properties of the matchmaking queue *)

Module MatchmakingExtras.
Import Matchmaking MatchmakingProofs.

Lemma requested_mode_served request :
  requested_mode request = GameModeClassic ∨ requested_mode request = GameModeAdvanced.
Proof.
  unfold requested_mode. case_decide as Hm; [by left|].
  destruct (decide (req_Mode request = GameModeClassic)); [by left|].
  destruct (decide (req_Mode request = GameModeAdvanced)); [by right|].
  destruct Hm. by split.
Qed.

(** The search fails exactly when nobody else waits for the mode. *)
Lemma find_opponent_None_queue visit q mode userID :
  visit ≡ₚ map_to_list q →
  find_opponent visit mode userID = None →
  ∀ k e, q !! k = Some e → ¬ (Mode e = mode ∧ UserID e ≠ userID).
Proof.
  intros Hperm Hnone k e Hk. apply (find_opponent_None visit mode userID k e Hnone).
  rewrite Hperm. by apply elem_of_map_to_list.
Qed.

Lemma find_opponent_Some_queue visit q mode userID opponent :
  keyed q → visit ≡ₚ map_to_list q →
  find_opponent visit mode userID = Some opponent →
  q !! UserID opponent = Some opponent
  ∧ Mode opponent = mode ∧ UserID opponent ≠ userID.
Proof.
  intros Hkeyed Hperm Hfind.
  pose proof Hfind as (Hmode & Hne & _)%find_opponent_Some.
  destruct (find_opponent_queued _ _ _ _ _ Hperm Hfind) as [k Hk].
  pose proof (Hkeyed k opponent Hk) as Hu. split; [by rewrite Hu|done].
Qed.

(** With one waiter per mode the search has one possible answer. *)
Lemma find_opponent_unique visit q mode userID a ea :
  keyed q → one_per_mode q → visit ≡ₚ map_to_list q →
  q !! a = Some ea → Mode ea = mode → a ≠ userID →
  find_opponent visit mode userID = Some ea.
Proof.
  intros Hkeyed Hone Hperm Ha Hmode Hne.
  destruct (find_opponent visit mode userID) as [opp|] eqn:Hfind.
  - destruct (find_opponent_Some_queue _ _ _ _ _ Hkeyed Hperm Hfind)
      as (Hopp & Hm & _).
    assert (UserID opp = a) as Hk
      by (apply (Hone _ _ _ _ Hopp Ha); congruence).
    rewrite Hk in Hopp. congruence.
  - exfalso. apply (find_opponent_None_queue _ _ _ _ Hperm Hfind a ea Ha).
    split; [done|]. by rewrite (Hkeyed a ea Ha).
Qed.

Lemma start_invariants visit host ctxUser payload q :
  visit ≡ₚ map_to_list q →
  keyed q → one_per_mode q → modes_served q →
  let q' := (startMatchmakingRPC visit host ctxUser payload q).1.2 in
  keyed q' ∧ one_per_mode q' ∧ modes_served q'.
Proof.
  intros Hperm Hkeyed Hone Hmodes. unfold startMatchmakingRPC.
  destruct payload as [request|]; [|done].
  destruct ctxUser as [userID|]; [|done].
  assert (∀ q0 : gmap string MatchmakingQueue, ∀ k, one_per_mode q0 → one_per_mode (delete k q0)) as Hdel1.
  { intros q0 k H1 k1 k2 e1 e2. rewrite !lookup_delete.
    repeat case_decide; try done. apply H1. }
  assert (∀ q0 : gmap string MatchmakingQueue, ∀ k, modes_served q0 → modes_served (delete k q0)) as Hdel2.
  { intros q0 k H1 k1 e1. rewrite lookup_delete. case_decide; [done|]. apply H1. }
  assert (∀ (q0 : gmap string MatchmakingQueue) now,
            keyed q0 → one_per_mode q0 → modes_served q0 →
            (∀ k e, q0 !! k = Some e →
                    ¬ (Mode e = requested_mode request ∧ UserID e ≠ userID)) →
            let q1 := <[userID := {| UserID := userID; Mode := requested_mode request;
                                     Timestamp := now |}]> q0 in
            keyed q1 ∧ one_per_mode q1 ∧ modes_served q1) as Hins.
  { intros q0 now Hk0 H10 Hm0 Hnobody q1. split; [by apply keyed_insert|]. split.
    - intros k1 k2 e1 e2. unfold q1. rewrite !lookup_insert.
      destruct (decide (userID = k1)) as [<-|Hk1];
        destruct (decide (userID = k2)) as [<-|Hk2]; try done.
      + intros [= <-] H2 Hmode. simpl in Hmode. exfalso.
        apply (Hnobody k2 e2 H2). split; [done|]. by rewrite (Hk0 k2 e2 H2).
      + intros H1 [= <-] Hmode. simpl in Hmode. exfalso.
        apply (Hnobody k1 e1 H1). split; [done|]. by rewrite (Hk0 k1 e1 H1).
      + apply H10.
    - intros k e. unfold q1. rewrite lookup_insert. case_decide.
      + intros [= <-]. apply requested_mode_served.
      + apply Hm0. }
  destruct (find_opponent visit (requested_mode request) userID) as [opponent|] eqn:Hfind;
    simpl.
  - destruct (find_opponent_Some_queue _ _ _ _ _ Hkeyed Hperm Hfind)
      as (Hopp & Hmode & Hne).
    destruct (host_MatchCreate host); simpl.
    + split; [by apply keyed_delete|]. split; [by apply Hdel1|by apply Hdel2].
    + apply Hins; [by apply keyed_delete|by apply Hdel1|by apply Hdel2|].
      intros k e. rewrite lookup_delete. case_decide as Hk; [done|].
      intros He [Hm _]. apply Hk. apply (Hone _ _ _ _ Hopp He). congruence.
  - apply Hins; [done..|]. by apply (find_opponent_None_queue visit).
Qed.

Lemma reachable_invariants q :
  reachable q → keyed q ∧ one_per_mode q ∧ modes_served q.
Proof.
  induction 1 as [|q visit host ctxUser payload Hq (Hk & H1 & Hm) Hperm
                  |q ctxUser payload Hq (Hk & H1 & Hm)].
  - repeat split; intros ?; intros; by rewrite lookup_empty in *.
  - by apply start_invariants.
  - unfold stopMatchmakingRPC.
    destruct payload as [ticket|]; [|done].
    destruct ctxUser as [userID|]; [|done].
    destruct (q !! userID); simpl; [|done].
    split; [by apply keyed_delete|]. split.
    + intros k1 k2 e1 e2. rewrite !lookup_delete.
      repeat case_decide; try done. apply H1.
    + intros k1 e1. rewrite lookup_delete. case_decide; [done|]. apply Hm.
Qed.

(** X13. The queue never holds two players waiting for the same mode:
    in every state the two RPCs can produce, each entry is filed under its
    own user id, its mode is classic or advanced, no two entries have the
    same mode, and so the queue has at most two entries. *)
Theorem queue_holds_one_waiter_per_mode q :
  reachable q →
  keyed q ∧ modes_served q ∧ one_per_mode q ∧ (size q ≤ 2)%nat.
Proof.
  intros Hq. destruct (reachable_invariants q Hq) as (Hk & H1 & Hm).
  repeat split; [done..|].
  rewrite <- length_map_to_list.
  rewrite <- (length_fmap (λ ke, Mode ke.2)).
  change 2%nat with (length [GameModeClassic; GameModeAdvanced]).
  apply submseteq_length, NoDup_submseteq.
  - apply NoDup_fmap_2_strong; [|apply NoDup_map_to_list].
    intros [k1 e1] [k2 e2] H1' H2' Hmode. simpl in Hmode.
    apply elem_of_map_to_list in H1', H2'.
    assert (k1 = k2) as -> by (by apply (H1 _ _ _ _ H1' H2')). congruence.
  - intros mode ([k e] & -> & Hin)%list_elem_of_fmap.
    apply elem_of_map_to_list in Hin. simpl.
    destruct (Hm k e Hin) as [-> | ->]; [left|right; left].
Qed.

(** Instance of X13. *)
Lemma queue_holds_one_waiter_per_mode_witness :
  reachable two_waiting ∧ size two_waiting = 2%nat.
Proof.
  split; [exact two_waiting_reachable|].
  destruct (queue_holds_one_waiter_per_mode two_waiting two_waiting_reachable)
    as (_ & _ & _ & Hle).
  assert (2 ≤ size two_waiting)%nat as Hge by (vm_compute; lia).
  lia.
Defined.

(** X14. The outcome of a request does not depend on the order in which
    Go ranges over the queue: on a queue the RPCs can produce, two orders of
    visit give the same response, the same queue and the same host calls. *)
Theorem pairing_independent_of_visit_order visit1 visit2 host ctxUser payload q :
  reachable q →
  visit1 ≡ₚ map_to_list q → visit2 ≡ₚ map_to_list q →
  startMatchmakingRPC visit1 host ctxUser payload q =
  startMatchmakingRPC visit2 host ctxUser payload q.
Proof.
  intros Hq Hp1 Hp2. destruct (reachable_invariants q Hq) as (Hk & H1 & Hm).
  unfold startMatchmakingRPC.
  destruct payload as [request|]; [|done].
  destruct ctxUser as [userID|]; [|done].
  assert (find_opponent visit1 (requested_mode request) userID =
          find_opponent visit2 (requested_mode request) userID) as ->; [|done].
  destruct (find_opponent visit1 (requested_mode request) userID) as [opp|] eqn:Hf1.
  - destruct (find_opponent_Some_queue _ _ _ _ _ Hk Hp1 Hf1) as (Hopp & Hmode & Hne).
    symmetry. by eapply find_opponent_unique.
  - destruct (find_opponent visit2 (requested_mode request) userID) as [opp|] eqn:Hf2;
      [|done].
    destruct (find_opponent_Some_queue _ _ _ _ _ Hk Hp2 Hf2) as (Hopp & Hmode & Hne).
    by rewrite (find_opponent_unique visit1 q _ userID _ opp Hk H1 Hp1 Hopp Hmode Hne)
      in Hf1.
Qed.

(** Instance of X14: the queue visited forwards and backwards. *)
Lemma pairing_independent_of_visit_order_witness :
  reachable two_waiting
  ∧ map_to_list two_waiting ≡ₚ map_to_list two_waiting
  ∧ reverse (map_to_list two_waiting) ≡ₚ map_to_list two_waiting
  ∧ startMatchmakingRPC (map_to_list two_waiting) (host_ok 300) (Some "carol")
      (Some {| req_Mode := GameModeClassic |}) two_waiting =
    startMatchmakingRPC (reverse (map_to_list two_waiting)) (host_ok 300) (Some "carol")
      (Some {| req_Mode := GameModeClassic |}) two_waiting.
Proof.
  assert (reverse (map_to_list two_waiting) ≡ₚ map_to_list two_waiting) as Hrev
    by apply reverse_Permutation.
  split; [exact two_waiting_reachable|]. split; [reflexivity|]. split; [exact Hrev|].
  exact (pairing_independent_of_visit_order _ _ (host_ok 300) (Some "carol")
           (Some {| req_Mode := GameModeClassic |}) two_waiting
           two_waiting_reachable (reflexivity _) Hrev).
Defined.

(** X15. A request is paired with the player waiting for its mode: on a
    queue the RPCs can produce, if another user [a] waits for the mode the
    request is served in and the match can be created, then, in whatever
    order the queue is visited, the caller gets the match id, [a] gets the
    notification of that match, and [a]'s entry, and nothing else, leaves the
    queue. *)
Theorem request_pairs_with_the_waiter visit host a ea b request q matchID :
  reachable q → visit ≡ₚ map_to_list q →
  q !! a = Some ea → Mode ea = requested_mode request → a ≠ b →
  host_MatchCreate host = inl matchID →
  startMatchmakingRPC visit host (Some b) (Some request) q =
    (inr {| Ticket := matchID; resp_Mode := requested_mode request |},
     delete a q,
     [MatchCreate "ttt_match" (requested_mode request);
      NotificationsSend a "Match Created" matchID (requested_mode request) 1 true]).
Proof.
  intros Hq Hperm Ha Hmode Hab Hok.
  destruct (reachable_invariants q Hq) as (Hk & H1 & Hm).
  unfold startMatchmakingRPC.
  rewrite (find_opponent_unique visit q _ b a ea Hk H1 Hperm Ha Hmode Hab), Hok.
  by rewrite (Hk a ea Ha).
Qed.

(** Instance of X15: "carol" asks for a classic match while "alice" waits
    for one. *)
Lemma request_pairs_with_the_waiter_witness :
  reachable two_waiting
  ∧ two_waiting !! "alice" = Some alice_classic
  ∧ (startMatchmakingRPC (map_to_list two_waiting) (host_ok 300) (Some "carol")
       (Some {| req_Mode := GameModeClassic |}) two_waiting).1.2
    = delete "alice" two_waiting.
Proof.
  assert (two_waiting !! "alice" = Some alice_classic) as Ha
    by (vm_compute; reflexivity).
  split; [exact two_waiting_reachable|]. split; [exact Ha|].
  rewrite (request_pairs_with_the_waiter (map_to_list two_waiting) (host_ok 300)
             "alice" alice_classic "carol" {| req_Mode := GameModeClassic |}
             two_waiting "m1" two_waiting_reachable (reflexivity _) Ha eq_refl
             ltac:(discriminate) eq_refl).
  reflexivity.
Defined.

(** X16. Cancelling.  For an authenticated caller and a decodable payload
    [stopMatchmakingRPC] always succeeds, whatever ticket is sent: it removes
    the caller's entry and no other, and leaves the queue as it is when the
    caller has none.  Enqueueing and then cancelling gives back the queue
    without the caller. *)
Theorem cancel_behaviour userID ticket q :
  stopMatchmakingRPC (Some userID) (Some ticket) q = (inr tt, delete userID q)
  ∧ (q !! userID = None →
     stopMatchmakingRPC (Some userID) (Some ticket) q = (inr tt, q))
  ∧ (∀ k, k ≠ userID →
          (stopMatchmakingRPC (Some userID) (Some ticket) q).2 !! k = q !! k)
  ∧ (stopMatchmakingRPC (Some userID) (Some ticket) q).2 !! userID = None
  ∧ ∀ visit host request,
      find_opponent visit (requested_mode request) userID = None →
      (stopMatchmakingRPC (Some userID) (Some ticket)
         (startMatchmakingRPC visit host (Some userID) (Some request) q).1.2).2
      = delete userID q.
Proof.
  pose proof (stop_removes_entry userID ticket q) as Hstop.
  split; [done|]. split; [|split; [|split]].
  - intros Hnone. rewrite Hstop. by rewrite delete_id.
  - intros k Hk. rewrite Hstop. simpl. by rewrite lookup_delete_ne.
  - rewrite Hstop. simpl. by rewrite lookup_delete_eq.
  - intros visit host request Hfind.
    rewrite start_without_opponent_enqueues by done.
    rewrite stop_removes_entry. simpl. by rewrite delete_insert_eq.
Qed.


(** X20. What a request creates.  Every match [startMatchmakingRPC]
    asks the host for is a "ttt_match" in the classic or the advanced mode,
    and the match [MatchInit] then builds has that mode, a board of side 3
    (classic) or 5 (advanced), no player, no move, and waits.  A
    notification is sent only when the creation succeeded: it carries the id
    and mode of the caller's response, and goes to a user other than the
    caller who is no longer in the queue. *)
Theorem requests_create_served_matches visit host ctxUser payload q now :
  (∀ module mode,
     MatchCreate module mode ∈ (startMatchmakingRPC visit host ctxUser payload q).2 →
     module = "ttt_match"
     ∧ (mode = GameModeClassic ∨ mode = GameModeAdvanced)
     ∧ ∃ m, created_match (MatchCreate module mode) now = Some m
            ∧ Match.Mode m = mode
            ∧ Match.Size m = (if decide (mode = GameModeAdvanced) then 5 else 3)
            ∧ Match.State m = GameStateWaiting
            ∧ Match.Players m = ∅
            ∧ Match.MoveCount m = 0)
  ∧ (∀ u subject id mode code persistent,
       NotificationsSend u subject id mode code persistent
         ∈ (startMatchmakingRPC visit host ctxUser payload q).2 →
       host_MatchCreate host = inl id
       ∧ (startMatchmakingRPC visit host ctxUser payload q).1.1
         = inr {| Ticket := id; resp_Mode := mode |}
       ∧ (startMatchmakingRPC visit host ctxUser payload q).1.2 !! u = None
       ∧ ctxUser ≠ Some u).
Proof.
  unfold startMatchmakingRPC.
  destruct payload as [request|]; [|by split; intros; set_solver].
  destruct ctxUser as [userID|]; [|by split; intros; set_solver].
  destruct (find_opponent visit (requested_mode request) userID) as [opp|] eqn:Hfind;
    [|by split; intros; set_solver].
  apply find_opponent_Some in Hfind as (_ & Hne & _).
  assert (∀ module mode,
            MatchCreate module mode = MatchCreate "ttt_match" (requested_mode request) →
            module = "ttt_match"
            ∧ (mode = GameModeClassic ∨ mode = GameModeAdvanced)
            ∧ ∃ m, created_match (MatchCreate module mode) now = Some m
                   ∧ Match.Mode m = mode
                   ∧ Match.Size m = (if decide (mode = GameModeAdvanced) then 5 else 3)
                   ∧ Match.State m = GameStateWaiting
                   ∧ Match.Players m = ∅
                   ∧ Match.MoveCount m = 0) as Hcreate.
  { intros module mode [= -> ->]. split; [done|].
    split; [apply requested_mode_served|]. by eexists. }
  destruct (host_MatchCreate host) as [matchID|err]; simpl; split.
  - intros module mode [Hin|Hin%list_elem_of_singleton]%elem_of_cons; [|done].
    by apply Hcreate.
  - intros u subject id mode code persistent
      [Hin|Hin%list_elem_of_singleton]%elem_of_cons; [done|].
    injection Hin as -> -> -> -> -> ->.
    split; [done|]. split; [done|]. split; [by rewrite lookup_delete_eq|].
    intros [= ->]. done.
  - intros module mode Hin%list_elem_of_singleton. by apply Hcreate.
  - intros u subject id mode code persistent Hin%list_elem_of_singleton. done.
Qed.

(** X21. The matchmaker hook.  [handleMatchmakerMatched] refuses any
    number of entries other than two, without calling the host.  With two
    entries it reads the mode from the first entry only (the second does not
    matter) and, unlike [startMatchmakingRPC], does not validate it: a string
    property "mode" is passed on as it is, anything else means classic; so
    the match created has exactly that mode, with a board of side 5 when it
    is "advanced" and of side 3 for every other string.  The result is the
    match id, or the host's failure to create the match.
    [CreateCustomMatch] passes its mode on in the same way. *)
Theorem matchmaker_hook_trusts_the_first_entry create e0 e1 now :
  (∀ entries, length entries ≠ 2%nat →
     handleMatchmakerMatched create entries
     = (inl (ExpectedTwoPlayers (length entries)), []))
  ∧ (∀ e1', handleMatchmakerMatched create [e0; e1']
            = handleMatchmakerMatched create [e0; e1])
  ∧ (∀ s, entry_Properties e0 !! "mode" = Some (PropString s) →
       (handleMatchmakerMatched create [e0; e1]).2 = [MatchCreate "ttt_match" s]
       ∧ ∃ m, created_match (MatchCreate "ttt_match" s) now = Some m
              ∧ Match.Mode m = s
              ∧ Match.Size m = (if decide (s = GameModeAdvanced) then 5 else 3))
  ∧ ((∀ s, entry_Properties e0 !! "mode" ≠ Some (PropString s)) →
     (handleMatchmakerMatched create [e0; e1]).2
     = [MatchCreate "ttt_match" GameModeClassic])
  ∧ (∀ matchID, create = inl matchID →
       (handleMatchmakerMatched create [e0; e1]).1 = inr matchID)
  ∧ (∀ err, create = inr err →
       (handleMatchmakerMatched create [e0; e1]).1 = inl (FailedToCreateMatch err))
  ∧ (∀ mode, (CreateCustomMatch create mode).2 = [MatchCreate "ttt_match" mode]
             ∧ (CreateCustomMatch create mode).1
               = match create with inl matchID => inr matchID | inr err => inl err end).
Proof.
  split; [|split; [|split; [|split; [|split; [|split]]]]].
  - intros [|a [|b [|c rest]]] Hlen; simpl in *; done.
  - done.
  - intros s Hs. simpl. rewrite Hs. split; [by destruct create|].
    eexists. split; [done|]. done.
  - intros Hs. simpl.
    destruct (entry_Properties e0 !! "mode") as [[s|]|] eqn:Hp;
      [by destruct (Hs s)|by destruct create..].
  - by intros matchID ->.
  - by intros err ->.
  - intros mode. by destruct create.
Qed.

End MatchmakingExtras.

(** * Properties of the leaderboard update *)

Module LeaderboardExtras.
Import Leaderboard.

(** X22. [UpdateLeaderboard] looks the user up and then writes: the main
    board always, the weekly board exactly when the main write succeeded,
    both writes for the given user with the given score and subscore 0 under
    the name of the first user found (empty when none was).  It succeeds
    exactly when both writes do; a failed lookup alone never fails it; and
    when the weekly write fails the error is returned although the main
    board has been written. *)
Theorem leaderboard_update_outcomes host userID score :
  ((UpdateLeaderboard host userID score).1 = None ↔
   host_write_main host = None ∧ host_write_weekly host = None)
  ∧ written (UpdateLeaderboard host userID score).2
    = "ttt_leaderboard"
      :: match host_write_main host with
         | Some _ => []
         | None => ["ttt_weekly_leaderboard"]
         end
  ∧ head (UpdateLeaderboard host userID score).2 = Some (UsersGetId [userID])
  ∧ (∀ id ownerID username sc subscore,
       LeaderboardRecordWrite id ownerID username sc subscore
         ∈ (UpdateLeaderboard host userID score).2 →
       ownerID = userID ∧ sc = score ∧ subscore = 0
       ∧ username = default "" (Username <$> head (host_UsersGetId host).1))
  ∧ (∀ err, host_write_main host = None → host_write_weekly host = Some err →
       (UpdateLeaderboard host userID score).1 = Some (FailedWeeklyLeaderboard err)
       ∧ "ttt_leaderboard" ∈ written (UpdateLeaderboard host userID score).2)
  ∧ (∀ users lookupError,
       (host_UsersGetId host).1 = users →
       UpdateLeaderboard
         {| host_UsersGetId := (users, lookupError);
            host_write_main := host_write_main host;
            host_write_weekly := host_write_weekly host |} userID score
       = UpdateLeaderboard host userID score).
Proof.
  unfold UpdateLeaderboard.
  destruct host as [[users lookup] main weekly]; simpl.
  split; [|split; [|split; [|split; [|split]]]].
  - destruct main, weekly; simpl; split; (done || by intros []).
  - by destruct main, weekly.
  - by destruct main, weekly.
  - intros id ownerID username sc subscore.
    destruct main, weekly, users; simpl;
      rewrite ?elem_of_cons, elem_of_nil; intros Hin;
      repeat (destruct Hin as [Hin|Hin]; [by simplify_eq|]); done.
  - intros err -> ->. simpl. split; [done|]. left.
  - by intros ? lookupError <-.
Qed.

End LeaderboardExtras.
